(** * Procedural scene populator of [ascii-background.js]

    A shallow embedding of the grid-based generator of the animated
    background ([class AsciiBackground]): the seeded placement functions, the
    throttled update pass, the clean-up sweep and the per-frame oscillation of
    the loaded objects.

    Conventions of the embedding.
    - A JavaScript number is a rational [Q]: arithmetic is exact (the
      rounding and the range of IEEE doubles are not modelled), and a value
      that would be [NaN] or infinite (a division by zero) is [None].
      Integer-valued numbers (grid coordinates, the frame counter) are [Z].
    - [Math.sin], [Math.sqrt] and [Math.PI] belong to the host: they are the
      members [Math_sin], [Math_sqrt] and [Math_PI] of the class [Math].
      Nothing is assumed about them except where a statement says so.
    - The camera is its position together with the point test of the frustum
      that THREE.js derives from its matrices.
    - A [THREE.Object3D] keeps its position, its rotation and the [userData]
      fields the generator writes.  Scale, materials, colours
      ([Math.random]) and the spawn time ([Date.now]) only drive rendering
      and are left out.  The scene graph is the log of its add and remove
      calls.
    - The [Map] [loadedAetherytes] is an association list in insertion order;
      [distantStars] is a list, as in the source. *)

From Stdlib Require Import ZArith QArith Qround Qabs Qpower List String Ascii Bool.
From Stdlib Require Import Lia Lqa.
From Stdlib Require Import DecimalString DecimalZ DecimalPos.
Import ListNotations.

Local Open Scope Q_scope.

(** ** Numbers *)

(** [a > b] and [a < b] on numbers, as boolean tests. *)
Definition Qgtb (a b : Q) : bool := negb (Qle_bool a b).
Definition Qltb (a b : Q) : bool := negb (Qle_bool b a).

(** [a / b]; not a finite number when [b] is zero. *)
Definition js_div (a b : Q) : option Q :=
  if Qeq_bool b 0 then None else Some (a / b).

Definition Math_floor (a : Q) : Z := Qfloor a.
Definition Math_ceil (a : Q) : Z := Qceiling a.

(** [Math.round] rounds to the nearest integer, halves upwards. *)
Definition Math_round (a : Q) : Z := Qfloor (a + 0.5).

(** [a % b] of JavaScript takes the sign of the dividend. *)
Definition js_rem (a b : Z) : Z := Z.rem a b.

(** Decimal rendering of an integer inside a template literal. *)
Definition string_of_Z (n : Z) : string := NilZero.string_of_int (Z.to_int n).

(** A small option monad for the partial steps. *)
Definition bind {A B : Type} (m : option A) (f : A -> option B) : option B :=
  match m with
  | Some a => f a
  | None => None
  end.

Notation "'let*' x ':=' m 'in' k" := (bind m (fun x => k))
  (at level 10, x name, m at level 100, k at level 200).

(** ** Data model *)

Record Vector3 : Type := mkVector3 { vec_x : Q; vec_y : Q; vec_z : Q }.

(** A grid cell key before it is rendered as a string. *)
Record GridPos : Type := mkGridPos { grid_x : Z; grid_y : Z; grid_z : Z }.

Record Drift : Type := mkDrift {
  drift_x : Q; drift_y : Q; drift_z : Q;
  rotX : Q; rotY : Q; rotZ : Q
}.

(** [userData] of a generated object.  [originalPosition] and [drift] are
    tested for presence by the source, so they are optional here. *)
Record UserData : Type := mkUserData {
  originalPosition : option Vector3;
  drift : option Drift;
  gridKey : string;
  time : Q
}.

Record Object3D : Type := mkObject3D {
  position : Vector3;
  rotation : Vector3;
  userData : UserData
}.

Record Camera : Type := mkCamera {
  cam_position : Vector3;
  containsPoint : Vector3 -> bool
}.

(** The two representations of a placement. *)
Inductive Kind : Type := Star | Aetheryte.

(** Calls received by the scene graph. *)
Inductive SceneOp : Type :=
| SceneAdd (k : Kind) (o : Object3D)
| SceneRemove (k : Kind) (o : Object3D).

Record AsciiBackground : Type := mkAsciiBackground {
  scene : list SceneOp;
  camera : Camera;
  distantStars : list Object3D;
  loadedAetherytes : list (string * Object3D);
  renderDistance : Q;
  detailDistance : Q;
  gridSize : Q;
  aetheryteChance : Q;
  frameCount : Z
}.

(** Field updates. *)
Definition set_scene (this : AsciiBackground) (v : list SceneOp) :=
  mkAsciiBackground v (camera this) (distantStars this)
    (loadedAetherytes this) (renderDistance this) (detailDistance this)
    (gridSize this) (aetheryteChance this) (frameCount this).

Definition set_camera (this : AsciiBackground) (v : Camera) :=
  mkAsciiBackground (scene this) v (distantStars this)
    (loadedAetherytes this) (renderDistance this) (detailDistance this)
    (gridSize this) (aetheryteChance this) (frameCount this).

Definition set_distantStars (this : AsciiBackground) (v : list Object3D) :=
  mkAsciiBackground (scene this) (camera this) v
    (loadedAetherytes this) (renderDistance this) (detailDistance this)
    (gridSize this) (aetheryteChance this) (frameCount this).

Definition set_loadedAetherytes (this : AsciiBackground)
    (v : list (string * Object3D)) :=
  mkAsciiBackground (scene this) (camera this) (distantStars this)
    v (renderDistance this) (detailDistance this)
    (gridSize this) (aetheryteChance this) (frameCount this).

Definition set_frameCount (this : AsciiBackground) (v : Z) :=
  mkAsciiBackground (scene this) (camera this) (distantStars this)
    (loadedAetherytes this) (renderDistance this) (detailDistance this)
    (gridSize this) (aetheryteChance this) v.

Definition scene_add (k : Kind) (o : Object3D) (this : AsciiBackground) :=
  set_scene this (SceneAdd k o :: scene this).

Definition scene_remove (k : Kind) (o : Object3D) (this : AsciiBackground) :=
  set_scene this (SceneRemove k o :: scene this).

(** ** The [Map] and array operations the generator uses *)

Definition Map_has (k : string) (m : list (string * Object3D)) : bool :=
  existsb (fun e => String.eqb (fst e) k) m.

(** [set] keeps the place of a key that is present and appends a new one. *)
Definition Map_set (k : string) (v : Object3D) (m : list (string * Object3D))
  : list (string * Object3D) :=
  if Map_has k m
  then map (fun e => if String.eqb (fst e) k then (k, v) else e) m
  else m ++ [(k, v)].

Definition Map_delete (k : string) (m : list (string * Object3D))
  : list (string * Object3D) :=
  filter (fun e => negb (String.eqb (fst e) k)) m.

(** [findIndex]: [None] stands for the result [-1]. *)
Fixpoint findIndex {A : Type} (p : A -> bool) (l : list A) : option nat :=
  match l with
  | [] => None
  | a :: l' =>
      if p a then Some O
      else match findIndex p l' with
           | Some i => Some (S i)
           | None => None
           end
  end.

(** [splice(i, 1)]. *)
Fixpoint splice1 {A : Type} (i : nat) (l : list A) : list A :=
  match l, i with
  | [], _ => []
  | _ :: l', O => l'
  | a :: l', S j => a :: splice1 j l'
  end.

(** The integers [lo, lo+1, ..., hi] of a counting [for] loop. *)
Definition range (lo hi : Z) : list Z :=
  map (fun i => (lo + Z.of_nat i)%Z) (seq 0 (Z.to_nat (hi - lo + 1))).

(** The constructor's generation settings (camera at (0, 5, 50)). *)
Definition new_AsciiBackground (frustum : Vector3 -> bool) : AsciiBackground :=
  {| scene := [];
     camera := mkCamera (mkVector3 0 5 50) frustum;
     distantStars := [];
     loadedAetherytes := [];
     renderDistance := 300;
     detailDistance := 150;
     gridSize := 100;
     aetheryteChance := 0.3;
     frameCount := 0 |}.

(** The cell key [`${x},${y},${z}`]. *)
Definition cellKey (x y z : Z) : string :=
  (string_of_Z x ++ "," ++ string_of_Z y ++ "," ++ string_of_Z z)%string.

(** The host's [Math] object, as far as the generator calls it. *)
Class Math : Type := {
  Math_sin : Q -> Q;
  Math_sqrt : Q -> Q;
  Math_PI : Q
}.

Section Populator.

Context {host : Math}.

(** [THREE.Vector3.distanceTo]. *)
Definition distanceTo (a b : Vector3) : Q :=
  let dx := vec_x a - vec_x b in
  let dy := vec_y a - vec_y b in
  let dz := vec_z a - vec_z b in
  Math_sqrt (dx * dx + dy * dy + dz * dz).

(** ** Seeded placement *)

Definition seededRandom (x y z : Z) : Q :=
  let seed := inject_Z (x * 374761393 + y * 668265263 + z * 1274126177) in
  let t := Math_sin seed * 43758.5453 in
  t - inject_Z (Math_floor t).

Definition getGridPosition (this : AsciiBackground) (worldPos : Vector3)
  : option GridPos :=
  let* qx := js_div (vec_x worldPos) (gridSize this) in
  let* qy := js_div (vec_y worldPos) (gridSize this) in
  let* qz := js_div (vec_z worldPos) (gridSize this) in
  Some (mkGridPos (Math_round qx) (Math_round qy) (Math_round qz)).

Definition gridToWorld (this : AsciiBackground) (gridPos : GridPos)
  : Vector3 :=
  let gx := grid_x gridPos in
  let gy := grid_y gridPos in
  let gz := grid_z gridPos in
  {| vec_x := inject_Z gx * gridSize this + (seededRandom gx gy gz - 0.5) * 20;
     vec_y := inject_Z gy * gridSize this + (seededRandom gy gz gx - 0.5) * 20;
     vec_z := inject_Z gz * gridSize this + (seededRandom gz gx gy - 0.5) * 20
  |}.

Definition shouldHaveAetheryte (this : AsciiBackground) (gridPos : GridPos)
  : bool :=
  Qltb (seededRandom (grid_x gridPos) (grid_y gridPos) (grid_z gridPos))
       (aetheryteChance this).

(** ** Object creation *)

(** The mesh of a stand-in; its [userData] is filled in by the caller. *)
Definition createDistantStar (pos : Vector3) : Object3D :=
  {| position := pos;
     rotation := mkVector3 0 0 0;
     userData := mkUserData None None EmptyString 0 |}.

Definition isInViewFrustum (this : AsciiBackground) (worldPos : Vector3)
  : bool :=
  containsPoint (camera this) worldPos.

(** The detailed object of the cell [(x, y, z)]: the group returned by
    [createAetheryte] after the assignments that follow the call. *)
Definition newAetheryte (x y z : Z) (key : string) (worldPos : Vector3)
  : Object3D :=
  {| position := worldPos;
     rotation :=
       {| vec_x := seededRandom x y z * Math_PI * 2;
          vec_y := seededRandom y z x * Math_PI * 2;
          vec_z := seededRandom z x y * Math_PI * 2 |};
     userData :=
       {| originalPosition := Some worldPos;
          drift := Some
            {| drift_x := (seededRandom (x + 1) y z - 0.5) * 0.005;
               drift_y := (seededRandom x (y + 1) z - 0.5) * 0.005;
               drift_z := (seededRandom x y (z + 1) - 0.5) * 0.005;
               rotX := (seededRandom (x + 2) y z - 0.5) * 0.01;
               rotY := (seededRandom x (y + 2) z - 0.5) * 0.01;
               rotZ := (seededRandom x y (z + 2) - 0.5) * 0.01 |};
          gridKey := key;
          time := 0 |} |}.

(** The stand-in of the cell [key]: [createDistantStar pos] with its
    [gridKey] and [originalPosition] set. *)
Definition newStar (key : string) (pos : Vector3) : Object3D :=
  let star := createDistantStar pos in
  {| position := position star;
     rotation := rotation star;
     userData := mkUserData (Some pos) None key 0 |}.

Definition hasKey (key : string) (s : Object3D) : bool :=
  String.eqb (gridKey (userData s)) key.

(** ** The update pass *)

(** Body of the innermost loop of [updateProceduralAetherytes]. *)
Definition visitCell (this : AsciiBackground) (x y z : Z) : AsciiBackground :=
  let gridPos := mkGridPos x y z in
  let key := cellKey x y z in
  if negb (shouldHaveAetheryte this gridPos) then this else
  let worldPos := gridToWorld this gridPos in
  let distance := distanceTo (cam_position (camera this)) worldPos in
  if Qgtb distance (renderDistance this) then this else
  if negb (isInViewFrustum this worldPos) then this else
  if Qltb distance (detailDistance this) then
    if negb (Map_has key (loadedAetherytes this)) then
      let aetheryte := newAetheryte x y z key worldPos in
      let this := scene_add Aetheryte aetheryte this in
      let this :=
        set_loadedAetherytes this
          (Map_set key aetheryte (loadedAetherytes this)) in
      match findIndex (hasKey key) (distantStars this) with
      | Some starIndex =>
          let this :=
            match nth_error (distantStars this) starIndex with
            | Some s => scene_remove Star s this
            | None => this
            end in
          set_distantStars this (splice1 starIndex (distantStars this))
      | None => this
      end
    else this
  else
    if negb (Map_has key (loadedAetherytes this))
       && negb (existsb (hasKey key) (distantStars this)) then
      let star := newStar key worldPos in
      let this := scene_add Star star this in
      set_distantStars this (distantStars this ++ [star])
    else this.

(** One step of the sweep over the entries of [loadedAetherytes]. *)
Definition cleanupAetheryte (this : AsciiBackground)
    (entry : string * Object3D) : AsciiBackground :=
  let (key, aetheryte) := entry in
  match originalPosition (userData aetheryte) with
  | Some orig =>
      let distance := distanceTo (cam_position (camera this)) orig in
      if Qgtb distance (renderDistance this * 1.2) then
        let this := scene_remove Aetheryte aetheryte this in
        set_loadedAetherytes this (Map_delete key (loadedAetherytes this))
      else if Qgtb distance (detailDistance this * 1.2) then
        let this := scene_remove Aetheryte aetheryte this in
        let this :=
          set_loadedAetherytes this
            (Map_delete key (loadedAetherytes this)) in
        let star := newStar key orig in
        let this := scene_add Star star this in
        set_distantStars this (distantStars this ++ [star])
      else this
  | None => this
  end.

(** The [filter] callback on [distantStars]: [true] keeps the star. *)
Definition keepStar (this : AsciiBackground) (star : Object3D) : bool :=
  match originalPosition (userData star) with
  | Some orig =>
      negb (Qgtb (distanceTo (cam_position (camera this)) orig)
                 (renderDistance this * 1.2))
  | None => true
  end.

(** The sweep.  Its two parameters [camGridPos] and [checkRadius] are not
    used by the source and are left out.  Deleting the current entry while
    iterating over the [Map] leaves the other entries to be visited, so the
    loop runs over the entries present at its start. *)
Definition cleanupDistantObjects (this : AsciiBackground) : AsciiBackground :=
  let this := fold_left cleanupAetheryte (loadedAetherytes this) this in
  let removed := filter (fun s => negb (keepStar this s)) (distantStars this) in
  let this :=
    fold_left (fun t s => scene_remove Star s t) removed this in
  set_distantStars this (filter (keepStar this) (distantStars this)).

(** The three nested loops over the cube around the camera cell. *)
Definition visitCells (this : AsciiBackground) (c : GridPos) (r : Z)
  : AsciiBackground :=
  fold_left (fun t x =>
    fold_left (fun t y =>
      fold_left (fun t z => visitCell t x y z)
        (range (grid_z c - r) (grid_z c + r)) t)
      (range (grid_y c - r) (grid_y c + r)) t)
    (range (grid_x c - r) (grid_x c + r)) this.

Definition updateProceduralAetherytes (this : AsciiBackground)
  : option AsciiBackground :=
  let this := set_frameCount this (frameCount this + 1) in
  if negb (js_rem (frameCount this) 10 =? 0)%Z then Some this else
  let* camGridPos := getGridPosition this (cam_position (camera this)) in
  let* q := js_div (renderDistance this) (gridSize this) in
  let checkRadius := Math_ceil q in
  let this := visitCells this camGridPos checkRadius in
  Some (cleanupDistantObjects this).

(** ** The animation frame *)

(** The oscillation of one loaded object in [animate]. *)
Definition animateCrystal (crystal : Object3D) : Object3D :=
  match drift (userData crystal), originalPosition (userData crystal) with
  | Some d, Some orig =>
      let t := time (userData crystal) + 0.05 in
      let offset := 8 in
      {| position :=
           {| vec_x := vec_x orig + Math_sin (t * drift_x d * 100) * offset;
              vec_y := vec_y orig + Math_sin (t * drift_y d * 100 + 1) * offset;
              vec_z := vec_z orig + Math_sin (t * drift_z d * 100 + 2) * offset
           |};
         rotation :=
           {| vec_x := vec_x (rotation crystal) + rotX d;
              vec_y := vec_y (rotation crystal) + rotY d;
              vec_z := vec_z (rotation crystal) + rotZ d |};
         userData :=
           mkUserData (originalPosition (userData crystal))
             (drift (userData crystal)) (gridKey (userData crystal)) t |}
  | _, _ => crystal
  end.

(** The oscillation applied to every loaded object. *)
Definition animateAetherytes (this : AsciiBackground) : AsciiBackground :=
  set_loadedAetherytes this
    (map (fun e => (fst e, animateCrystal (snd e))) (loadedAetherytes this)).

(** One frame: the camera moves to [cam] ([updateAutoPilot] and
    [updateMovement], driven by the keyboard), the generator runs, then every
    loaded object oscillates. *)
Definition animate (cam : Camera) (this : AsciiBackground)
  : option AsciiBackground :=
  let this := set_camera this cam in
  let* this := updateProceduralAetherytes this in
  Some (animateAetherytes this).

(** [init] runs the generator once before the first frame. *)
Definition init (frustum : Vector3 -> bool) : option AsciiBackground :=
  updateProceduralAetherytes (new_AsciiBackground frustum).

(** The states a run passes through: the constructed object, then any
    sequence of the three steps of a frame.  [init] is one update, and a
    frame is a move, an update and an oscillation. *)
Inductive reachable : AsciiBackground -> Prop :=
| reach_new : forall frustum,
    reachable (new_AsciiBackground frustum)
| reach_move : forall this cam,
    reachable this -> reachable (set_camera this cam)
| reach_update : forall this this',
    reachable this -> updateProceduralAetherytes this = Some this' ->
    reachable this'
| reach_animate : forall this,
    reachable this -> reachable (animateAetherytes this).

End Populator.

(** ** Vocabulary of the statements *)

Definition keysOf (m : list (string * Object3D)) : list string := map fst m.

Definition starKeys (l : list Object3D) : list string :=
  map (fun s => gridKey (userData s)) l.

(** The generation settings are those of the constructor. *)
Definition Settings (this : AsciiBackground) : Prop :=
  renderDistance this = 300 /\ detailDistance this = 150 /\
  gridSize this = 100 /\ aetheryteChance this = 0.3.

(** Two states agree on the camera and the generation settings. *)
Definition sameView (t t' : AsciiBackground) : Prop :=
  camera t' = camera t /\ renderDistance t' = renderDistance t /\
  detailDistance t' = detailDistance t /\ gridSize t' = gridSize t /\
  aetheryteChance t' = aetheryteChance t.

(** Shape of the active set: keys are distinct in each subset, no key is in
    both, and every object carries its placement data. *)
Record Inv (this : AsciiBackground) : Prop := mkInv {
  inv_loaded : NoDup (keysOf (loadedAetherytes this));
  inv_stars : NoDup (starKeys (distantStars this));
  inv_exclusive : forall k,
    In k (keysOf (loadedAetherytes this)) ->
    ~ In k (starKeys (distantStars this));
  inv_placed : forall k a,
    In (k, a) (loadedAetherytes this) ->
    exists orig d,
      originalPosition (userData a) = Some orig /\
      drift (userData a) = Some d;
  inv_star_placed : forall s,
    In s (distantStars this) ->
    exists orig, originalPosition (userData s) = Some orig
}.

(** Whether a string contains a comma, the separator of the cell keys. *)
Fixpoint hasComma (s : string) : bool :=
  match s with
  | EmptyString => false
  | String c s' => Ascii.eqb c "," || hasComma s'
  end.

(** The stars left once the first stand-in of key [key] is spliced out. *)
Definition withoutStar (key : string) (stars : list Object3D)
  : list Object3D :=
  match findIndex (hasKey key) stars with
  | Some starIndex => splice1 starIndex stars
  | None => stars
  end.

(** A candidate cell of the pass around the camera cell [c]. *)
Definition inCube (c : GridPos) (r : Z) (x y z : Z) : Prop :=
  (grid_x c - r <= x <= grid_x c + r)%Z /\
  (grid_y c - r <= y <= grid_y c + r)%Z /\
  (grid_z c - r <= z <= grid_z c + r)%Z.

(** Every coordinate of [p] is within [bound] of the one of [q]. *)
Definition within (bound : Q) (p q : Vector3) : Prop :=
  Qabs (vec_x p - vec_x q) <= bound /\
  Qabs (vec_y p - vec_y q) <= bound /\
  Qabs (vec_z p - vec_z q) <= bound.

(** Every loaded object is within the oscillation amplitude of its
    placement. *)
Definition Anchored (this : AsciiBackground) : Prop :=
  forall key c, In (key, c) (loadedAetherytes this) ->
  exists orig,
    originalPosition (userData c) = Some orig /\
    within 8 (position c) orig.

Section Vocabulary.

Context {host : Math}.

(** The sweep's two tests on the stored placement position of an object. *)
Definition tooFar (this : AsciiBackground) (o : Object3D) : bool :=
  match originalPosition (userData o) with
  | Some orig =>
      Qgtb (distanceTo (cam_position (camera this)) orig)
           (renderDistance this * 1.2)
  | None => false
  end.

Definition beyondDetail (this : AsciiBackground) (o : Object3D) : bool :=
  match originalPosition (userData o) with
  | Some orig =>
      Qgtb (distanceTo (cam_position (camera this)) orig)
           (detailDistance this * 1.2)
  | None => false
  end.

(** What the sweep does with a loaded object. *)
Definition sweepKeeps (this : AsciiBackground) (o : Object3D) : bool :=
  negb (tooFar this o) && negb (beyondDetail this o).

Definition sweepDowngrades (this : AsciiBackground) (o : Object3D) : bool :=
  negb (tooFar this o) && beyondDetail this o.

(** An entry is deleted by the sweep of [rest] when an entry of its key is
    not kept. *)
Definition swept (this : AsciiBackground) (rest : list (string * Object3D))
    (e : string * Object3D) : bool :=
  existsb (fun r => String.eqb (fst r) (fst e) && negb (sweepKeeps this (snd r)))
          rest.

(** The stand-in that replaces a downgraded entry. *)
Definition downgradeStar (entry : string * Object3D) : Object3D :=
  match originalPosition (userData (snd entry)) with
  | Some orig => newStar (fst entry) orig
  | None => snd entry
  end.

(** The three tests a candidate cell must pass to be considered. *)
Definition candidate (this : AsciiBackground) (x y z : Z) : bool :=
  let worldPos := gridToWorld this (mkGridPos x y z) in
  shouldHaveAetheryte this (mkGridPos x y z)
  && negb (Qgtb (distanceTo (cam_position (camera this)) worldPos)
                (renderDistance this))
  && isInViewFrustum this worldPos.

(** Distance from the viewpoint to the placement of the cell. *)
Definition cellDistance (this : AsciiBackground) (x y z : Z) : Q :=
  distanceTo (cam_position (camera this))
             (gridToWorld this (mkGridPos x y z)).

End Vocabulary.

(** ** Stand-ins for the host functions

    Executable rational versions of the host's [Math] functions, used to run
    the model on concrete inputs. *)
Module Host.

Definition pi_approx : Q := 355 # 113.

(** Bhaskara's rational approximation of the sine, of period [2 * pi_approx],
    on the argument cut to six decimals; [sin_approx 0] is [0]. *)
Definition sin_approx (a : Q) : Q :=
  let p := pi_approx in
  let a := inject_Z (Qfloor (a * 1000000)) / 1000000 in
  let r := Qred (a - inject_Z (Qfloor (a / (2 * p))) * (2 * p)) in
  let h := fun u => Qred (16 * u * (p - u) / (5 * p * p - 4 * u * (p - u))) in
  if Qle_bool r p then h r else - h (r - p).

(** The square root truncated to three decimals. *)
Definition sqrt_approx (q : Q) : Q :=
  inject_Z (Z.sqrt (Qfloor (q * 1000000))) / 1000.

Definition approx : Math :=
  {| Math_sin := sin_approx; Math_sqrt := sqrt_approx; Math_PI := pi_approx |}.

(** A camera at [pos] looking down the negative Z axis: it sees the points in
    front of it. *)
Definition lookDownZ (pos : Vector3) : Camera :=
  mkCamera pos (fun p => Qltb (vec_z p) (vec_z pos)).

(** A camera at [pos] looking along the positive X axis. *)
Definition lookAlongX (pos : Vector3) : Camera :=
  mkCamera pos (fun p => Qltb (vec_x pos) (vec_x p)).

(** A run of frames, one camera pose per frame. *)
Fixpoint run (cams : list Camera) (this : AsciiBackground)
  : option AsciiBackground :=
  match cams with
  | [] => Some this
  | cam :: cams' =>
      let* this' := animate (host := approx) cam this in
      run cams' this'
  end.

(** The state of a run that is known to have one. *)
Definition state_of (o : option AsciiBackground) : AsciiBackground :=
  match o with
  | Some this => this
  | None => new_AsciiBackground (fun _ => false)
  end.

Definition home : Vector3 := mkVector3 0 5 50.

(** The page as loaded: [init], the camera at its initial position looking
    down the Z axis. *)
Definition start : option AsciiBackground :=
  init (host := approx) (containsPoint (lookDownZ home)).

Definition loaded_page : AsciiBackground := Eval vm_compute in state_of start.

(** Nine frames without moving: the ninth is the first sweeping update and
    loads the cell (0, 0, 0), in front of the camera. *)
Definition first_sweep : AsciiBackground :=
  Eval vm_compute in
    state_of (run (repeat (lookDownZ home) 9) loaded_page).

(** The placement and the loaded object of the cell (0, 0, 0). *)
Definition placement : Vector3 :=
  Eval vm_compute in gridToWorld (host := approx) first_sweep (mkGridPos 0 0 0).

Definition crystal : Object3D :=
  Eval vm_compute in
    match loadedAetherytes first_sweep with
    | (_, a) :: _ => a
    | [] => createDistantStar placement
    end.

(** The next frame begins with the camera far up the Z axis. *)
Definition flown_away : AsciiBackground :=
  set_camera first_sweep (lookDownZ (mkVector3 0 5 420)).

(** Nine frames later the second sweeping update is about to run; the camera
    has moved up the Z axis and turned towards the X axis, so the cell
    (0, 0, 0) is behind it. *)
Definition turned : Camera := lookAlongX (mkVector3 0 5 170).

Definition second_sweep_due : AsciiBackground :=
  Eval vm_compute in
    set_camera (state_of (run (repeat turned 9) first_sweep)) turned.

Definition second_sweep : AsciiBackground :=
  Eval vm_compute in
    state_of (updateProceduralAetherytes (host := approx) second_sweep_due).

(** The loaded object of the cell (0, 0, 0) when the second sweep is due. *)
Definition crystal_due : Object3D :=
  Eval vm_compute in
    match loadedAetherytes second_sweep_due with
    | (_, a) :: _ => a
    | [] => createDistantStar placement
    end.

End Host.

(** * Further vocabulary

    Notions used by the statements on the parts of the generator that go
    beyond the active set: the scene graph, the placement of the objects and
    whole runs of frames. *)

Definition Kind_eqb (a b : Kind) : bool :=
  match a, b with
  | Star, Star => true
  | Aetheryte, Aetheryte => true
  | _, _ => false
  end.

(** Calls of [scene.add] minus calls of [scene.remove] that the log holds for
    the objects of one kind and one key. *)
Fixpoint balance (kind : Kind) (key : string) (log : list SceneOp) : Z :=
  match log with
  | [] => 0
  | SceneAdd k o :: log' =>
      ((if Kind_eqb k kind && hasKey key o then 1 else 0)
       + balance kind key log')%Z
  | SceneRemove k o :: log' =>
      ((if Kind_eqb k kind && hasKey key o then -1 else 0)
       + balance kind key log')%Z
  end.

(** Number of times [key] occurs in a list of keys. *)
Definition occurrences (key : string) (keys : list string) : Z :=
  Z.of_nat (count_occ string_dec keys key).

Section FurtherVocabulary.

Context {host : Math}.

(** The object [o] stands for the cell named by [key]: it carries the key, the
    cell passes the placement gate, and the stored position is the jittered
    position of the cell. *)
Definition placedAt (this : AsciiBackground) (key : string) (o : Object3D)
  : Prop :=
  gridKey (userData o) = key /\
  exists x y z,
    key = cellKey x y z /\
    shouldHaveAetheryte this (mkGridPos x y z) = true /\
    originalPosition (userData o) = Some (gridToWorld this (mkGridPos x y z)).

Definition Placed (this : AsciiBackground) : Prop :=
  (forall k a, In (k, a) (loadedAetherytes this) -> placedAt this k a) /\
  (forall s, In s (distantStars this) ->
             placedAt this (gridKey (userData s)) s).

(** The scene graph holds each object of the active set once, and no star or
    detailed object that left it. *)
Definition Synced (this : AsciiBackground) : Prop :=
  forall key,
    balance Star key (scene this)
      = occurrences key (starKeys (distantStars this)) /\
    balance Aetheryte key (scene this)
      = occurrences key (keysOf (loadedAetherytes this)).

(** The stars of the state stand where their stored placement is, unturned. *)
Definition Still (this : AsciiBackground) : Prop :=
  forall s, In s (distantStars this) ->
    originalPosition (userData s) = Some (position s) /\
    rotation s = mkVector3 0 0 0.

(** Nothing is left to do for the viewpoint of the state: every candidate
    cell of the cube around the camera cell has its representation, the
    detailed one below [detailDistance], and the sweep would keep every
    object of the active set. *)
Definition Settled (this : AsciiBackground) : Prop :=
  (forall c q x y z,
     getGridPosition this (cam_position (camera this)) = Some c ->
     js_div (renderDistance this) (gridSize this) = Some q ->
     inCube c (Math_ceil q) x y z ->
     candidate this x y z = true ->
     (In (cellKey x y z) (keysOf (loadedAetherytes this)) \/
      In (cellKey x y z) (starKeys (distantStars this))) /\
     (cellDistance this x y z < detailDistance this ->
      In (cellKey x y z) (keysOf (loadedAetherytes this)))) /\
  (forall k a, In (k, a) (loadedAetherytes this) ->
               sweepKeeps this a = true) /\
  (forall s, In s (distantStars this) -> keepStar this s = true).

(** A run of frames on any host, one camera pose per frame. *)
Fixpoint frames (cams : list Camera) (this : AsciiBackground)
  : option AsciiBackground :=
  match cams with
  | [] => Some this
  | cam :: cams' =>
      let* this' := animate cam this in
      frames cams' this'
  end.

End FurtherVocabulary.


(** ** More states of the run on the stand-in host *)

Module Scenes.

(** Eight frames after the page is loaded, the camera at rest: the last state
    before the first sweep. *)
Definition eighth_frame : AsciiBackground :=
  Eval vm_compute in
    Host.state_of
      (frames (host := Host.approx) (repeat (Host.lookDownZ Host.home) 8)
              Host.loaded_page).

(** The object that the second sweep loads for the cell (1, 0, 1). *)
Definition near_crystal : Object3D :=
  Eval vm_compute in
    match loadedAetherytes Host.second_sweep with
    | (_, a) :: _ => a
    | [] => createDistantStar Host.home
    end.

(** The star that the second sweep puts in place of the object of the cell
    (0, 0, 0). *)
Definition downgraded_star : Object3D :=
  Eval vm_compute in
    nth 26 (distantStars Host.second_sweep) (createDistantStar Host.home).

(** The frame of the second sweep, the oscillation included. *)
Definition swept_frame : AsciiBackground :=
  Eval vm_compute in
    Host.state_of (animate (host := Host.approx) Host.turned
                     Host.second_sweep_due).

(** Ten frames later, the camera where it was. *)
Definition at_rest : AsciiBackground :=
  Eval vm_compute in
    Host.state_of
      (frames (host := Host.approx) (repeat Host.turned 10) swept_frame).

End Scenes.

(** * The page script

    The key sequence of [src/unnamed/part_001] that switches the page's colour
    filter. *)

Module Konami.

Definition konamiPattern : list string :=
  ["ArrowUp"; "ArrowUp"; "ArrowDown"; "ArrowDown"; "ArrowLeft"; "ArrowRight";
   "ArrowLeft"; "ArrowRight"; "b"; "a"]%string.

(** [Array.prototype.join(',')]. *)
Fixpoint join (l : list string) : string :=
  match l with
  | [] => EmptyString
  | [a] => a
  | a :: l' => (a ++ "," ++ join l')%string
  end.

(** [slice(-n)]: the last [n] elements, all of them when there are fewer. *)
Definition slice_last {A : Type} (n : nat) (l : list A) : list A :=
  skipn (List.length l - n) l.

(** The [keydown] listener on the buffer [konamiCode]: the new buffer, and
    whether [activateMatrixMode] is called. *)
Definition keydown (e_key : string) (konamiCode : list string)
  : list string * bool :=
  let konamiCode := konamiCode ++ [e_key] in
  let konamiCode := slice_last 10 konamiCode in
  (konamiCode, String.eqb (join konamiCode) (join konamiPattern)).

(** The buffer after a sequence of key presses. *)
Definition press (keys : list string) (konamiCode : list string)
  : list string :=
  fold_left (fun code key => fst (keydown key code)) keys konamiCode.

(** No key of the list contains the separator of [join]. *)
Definition commaFree (keys : list string) : Prop :=
  Forall (fun key => hasComma key = false) keys.

End Konami.

(** * Flight controls and the auto-pilot

    The fields of the [AsciiBackground] object that the keyboard listeners,
    [updateAutoPilot] and [updateMovement] work on.  The orientation of the
    camera is a THREE.js quaternion that this model does not follow: the
    forward vector that [updateMovement] derives from it is an input of each
    frame.  The clock is an input too: every event carries the values that
    its calls of [Date.now] return.  The field [acceleration] is reset at the
    start of [updateMovement] and read nowhere else; it is a local value
    here. *)

(** [Math.max] and [Math.min] on two numbers. *)
Definition Math_max (a b : Q) : Q := if Qle_bool a b then b else a.
Definition Math_min (a b : Q) : Q := if Qle_bool a b then a else b.

(** The host's cosine and two-argument arctangent. *)
Class Trig : Type := {
  Math_cos : Q -> Q;
  Math_atan2 : Q -> Q -> Q
}.

(** The methods of [THREE.Vector3] that the controls call. *)
Module Vec.

Definition add (a b : Vector3) : Vector3 :=
  mkVector3 (vec_x a + vec_x b) (vec_y a + vec_y b) (vec_z a + vec_z b).

Definition subVectors (a b : Vector3) : Vector3 :=
  mkVector3 (vec_x a - vec_x b) (vec_y a - vec_y b) (vec_z a - vec_z b).

Definition multiplyScalar (a : Vector3) (s : Q) : Vector3 :=
  mkVector3 (vec_x a * s) (vec_y a * s) (vec_z a * s).

Definition dot (a b : Vector3) : Q :=
  vec_x a * vec_x b + vec_y a * vec_y b + vec_z a * vec_z b.

Definition length {host : Math} (a : Vector3) : Q :=
  Math_sqrt (vec_x a * vec_x a + vec_y a * vec_y a + vec_z a * vec_z a).

(** [normalize] divides by [length() || 1]. *)
Definition normalize {host : Math} (a : Vector3) : Vector3 :=
  let len := length a in
  multiplyScalar a (1 / (if Qeq_bool len 0 then 1 else len)).

End Vec.

Module Controls.

Record Keys : Type := mkKeys {
  key_w : bool; key_a : bool; key_s : bool; key_d : bool;
  key_ArrowUp : bool; key_ArrowDown : bool;
  key_ArrowLeft : bool; key_ArrowRight : bool
}.

Record Controls : Type := mkControls {
  keys : Keys;
  velocity : Vector3;
  accelerationForce : Q;
  maxSpeed : Q;
  damping : Q;
  rotationalVelocity : Vector3;
  rotationalAcceleration : Q;
  maxRotationSpeed : Q;
  rotationalDamping : Q;
  idleTimer : Q;
  idleThreshold : Q;
  autoPilot : bool;
  autoPilotTime : Q;
  previousCameraPosition : Vector3;
  camera_position : Vector3
}.

(** The constructor's values; [init] puts the camera at (0, 5, 50). *)
Definition new_Controls : Controls :=
  {| keys := mkKeys false false false false false false false false;
     velocity := mkVector3 0 0 0;
     accelerationForce := 0.025;
     maxSpeed := 1.5;
     damping := 0.92;
     rotationalVelocity := mkVector3 0 0 0;
     rotationalAcceleration := 0.001;
     maxRotationSpeed := 0.04;
     rotationalDamping := 0.85;
     idleTimer := 0;
     idleThreshold := 10000;
     autoPilot := false;
     autoPilotTime := 0;
     previousCameraPosition := mkVector3 0 0 0;
     camera_position := mkVector3 0 5 50 |}.

Definition set_keys (this : Controls) (v : Keys) : Controls :=
  mkControls v (velocity this) (accelerationForce this) (maxSpeed this)
    (damping this) (rotationalVelocity this) (rotationalAcceleration this)
    (maxRotationSpeed this) (rotationalDamping this) (idleTimer this)
    (idleThreshold this) (autoPilot this) (autoPilotTime this)
    (previousCameraPosition this) (camera_position this).

Definition set_idleTimer (this : Controls) (v : Q) : Controls :=
  mkControls (keys this) (velocity this) (accelerationForce this)
    (maxSpeed this) (damping this) (rotationalVelocity this)
    (rotationalAcceleration this) (maxRotationSpeed this)
    (rotationalDamping this) v (idleThreshold this) (autoPilot this)
    (autoPilotTime this) (previousCameraPosition this) (camera_position this).

(** The fields the two update functions write. *)
Definition set_pilot (this : Controls) (on : bool) (t : Q) : Controls :=
  mkControls (keys this) (velocity this) (accelerationForce this)
    (maxSpeed this) (damping this) (rotationalVelocity this)
    (rotationalAcceleration this) (maxRotationSpeed this)
    (rotationalDamping this) (idleTimer this) (idleThreshold this) on t
    (previousCameraPosition this) (camera_position this).

Definition set_motion (this : Controls) (v rv prev pos : Vector3) : Controls :=
  mkControls (keys this) v (accelerationForce this) (maxSpeed this)
    (damping this) rv (rotationalAcceleration this) (maxRotationSpeed this)
    (rotationalDamping this) (idleTimer this) (idleThreshold this)
    (autoPilot this) (autoPilotTime this) prev pos.

(** [this.keys.hasOwnProperty(e.key)] *)
Definition hasOwnProperty (key : string) : bool :=
  existsb (String.eqb key)
    ["w"; "a"; "s"; "d"; "ArrowUp"; "ArrowDown"; "ArrowLeft";
     "ArrowRight"]%string.

(** [this.keys[e.key] = v] for a key that the object has. *)
Definition keys_set (key : string) (v : bool) (k : Keys) : Keys :=
  if String.eqb key "w" then
    mkKeys v (key_a k) (key_s k) (key_d k) (key_ArrowUp k) (key_ArrowDown k)
      (key_ArrowLeft k) (key_ArrowRight k)
  else if String.eqb key "a" then
    mkKeys (key_w k) v (key_s k) (key_d k) (key_ArrowUp k) (key_ArrowDown k)
      (key_ArrowLeft k) (key_ArrowRight k)
  else if String.eqb key "s" then
    mkKeys (key_w k) (key_a k) v (key_d k) (key_ArrowUp k) (key_ArrowDown k)
      (key_ArrowLeft k) (key_ArrowRight k)
  else if String.eqb key "d" then
    mkKeys (key_w k) (key_a k) (key_s k) v (key_ArrowUp k) (key_ArrowDown k)
      (key_ArrowLeft k) (key_ArrowRight k)
  else if String.eqb key "ArrowUp" then
    mkKeys (key_w k) (key_a k) (key_s k) (key_d k) v (key_ArrowDown k)
      (key_ArrowLeft k) (key_ArrowRight k)
  else if String.eqb key "ArrowDown" then
    mkKeys (key_w k) (key_a k) (key_s k) (key_d k) (key_ArrowUp k) v
      (key_ArrowLeft k) (key_ArrowRight k)
  else if String.eqb key "ArrowLeft" then
    mkKeys (key_w k) (key_a k) (key_s k) (key_d k) (key_ArrowUp k)
      (key_ArrowDown k) v (key_ArrowRight k)
  else if String.eqb key "ArrowRight" then
    mkKeys (key_w k) (key_a k) (key_s k) (key_d k) (key_ArrowUp k)
      (key_ArrowDown k) (key_ArrowLeft k) v
  else k.

Definition resetIdleTimer (now : Q) (this : Controls) : Controls :=
  let this := set_idleTimer this now in
  if autoPilot this then set_pilot this false 0 else this.

(** The [keydown] and [keyup] listeners. *)
Definition keydown (e_key : string) (now : Q) (this : Controls) : Controls :=
  if hasOwnProperty e_key then
    let this := set_keys this (keys_set e_key true (keys this)) in
    resetIdleTimer now this
  else this.

Definition keyup (e_key : string) (this : Controls) : Controls :=
  if hasOwnProperty e_key then
    set_keys this (keys_set e_key false (keys this))
  else this.

Section Hosted.

Context {host : Math} {trig : Trig}.

Definition updateAutoPilot (now deltaTime : Q) (this : Controls) : Controls :=
  let this :=
    if negb (autoPilot this)
       && Qgtb (now - idleTimer this) (idleThreshold this)
    then
      let this := set_pilot this true 0 in
      set_motion this (velocity this) (rotationalVelocity this)
        (camera_position this) (camera_position this)
    else this in
  if autoPilot this then
    let this :=
      set_pilot this true (autoPilotTime this + deltaTime * 0.001) in
    let radius := 150 in
    let speedX := 0.15 in
    let speedY := 0.23 in
    let speedZ := 0.19 in
    let targetX := Math_sin (autoPilotTime this * speedX) * radius in
    let targetY := Math_sin (autoPilotTime this * speedY) * radius * 0.5 + 50 in
    let targetZ := Math_cos (autoPilotTime this * speedZ) * radius in
    let previous := camera_position this in
    let pos :=
      mkVector3
        (vec_x previous + (targetX - vec_x previous) * 0.02)
        (vec_y previous + (targetY - vec_y previous) * 0.02)
        (vec_z previous + (targetZ - vec_z previous) * 0.02) in
    set_motion this (Vec.subVectors pos previous) (rotationalVelocity this)
      previous pos
  else this.

(** [forward] is the vector (0, 0, -1) turned by the camera's quaternion. *)
Definition updateMovement (forward : Vector3) (this : Controls) : Controls :=
  if autoPilot this then this else
  let k := keys this in
  let acceleration := mkVector3 0 0 0 in
  let acceleration :=
    if key_w k
    then Vec.add acceleration
           (Vec.multiplyScalar forward (accelerationForce this))
    else acceleration in
  let acceleration :=
    if key_s k
    then Vec.add acceleration
           (Vec.multiplyScalar forward (- accelerationForce this))
    else acceleration in
  let rx := vec_x (rotationalVelocity this) in
  let ry := vec_y (rotationalVelocity this) in
  let rz := vec_z (rotationalVelocity this) in
  let ry := if key_a k then ry + rotationalAcceleration this else ry in
  let ry := if key_d k then ry - rotationalAcceleration this else ry in
  let rx :=
    if key_ArrowUp k then rx + rotationalAcceleration this * 1.5 else rx in
  let rx :=
    if key_ArrowDown k then rx - rotationalAcceleration this * 1.5 else rx in
  let ry :=
    if key_ArrowLeft k then ry + rotationalAcceleration this * 1.5 else ry in
  let ry :=
    if key_ArrowRight k then ry - rotationalAcceleration this * 1.5 else ry in
  let v := Vec.add (velocity this) acceleration in
  let v := Vec.multiplyScalar v (damping this) in
  let speed := Vec.length v in
  let v :=
    if Qgtb speed (maxSpeed this)
    then Vec.multiplyScalar (Vec.normalize v) (maxSpeed this)
    else v in
  let rv := Vec.multiplyScalar (mkVector3 rx ry rz) (rotationalDamping this) in
  let clamp := fun a =>
    Math_max (- maxRotationSpeed this) (Math_min (maxRotationSpeed this) a) in
  let rv := mkVector3 (clamp (vec_x rv)) (clamp (vec_y rv)) (clamp (vec_z rv)) in
  set_motion this v rv (previousCameraPosition this)
    (Vec.add (camera_position this) v).

(** What happens to the controls: a key goes down or up, or a frame runs.  A
    frame reads the clock for the idle timer and again in [updateAutoPilot]. *)
Inductive Event : Type :=
| KeyDown (e_key : string) (now : Q)
| KeyUp (e_key : string)
| Frame (now pilotNow : Q) (forward : Vector3).

(** The part of [animate] that drives the controls. *)
Definition animate (now pilotNow : Q) (forward : Vector3) (this : Controls)
  : Controls :=
  let this :=
    if Qeq_bool (idleTimer this) 0 then set_idleTimer this now else this in
  let deltaTime := 16 in
  let this := updateAutoPilot pilotNow deltaTime this in
  updateMovement forward this.

Definition handle (this : Controls) (e : Event) : Controls :=
  match e with
  | KeyDown e_key now => keydown e_key now this
  | KeyUp e_key => keyup e_key this
  | Frame now pilotNow forward => animate now pilotNow forward this
  end.

Definition run (events : list Event) (this : Controls) : Controls :=
  fold_left handle events this.

(** An event that happens no earlier than [since] and, for a frame, no later
    than [span] after it. *)
Definition timely (since span : Q) (e : Event) : Prop :=
  match e with
  | KeyDown _ now => since <= now
  | KeyUp _ => True
  | Frame _ pilotNow _ => pilotNow <= since + span
  end.

End Hosted.

(** The rotation settings are the constructor's and the rotational velocity
    is within the speeds that the keys can build up. *)
Definition Turning (this : Controls) : Prop :=
  rotationalAcceleration this = 0.001 /\
  maxRotationSpeed this = 0.04 /\
  rotationalDamping this = 0.85 /\
  Qabs (vec_x (rotationalVelocity this)) <= 0.0085 /\
  Qabs (vec_y (rotationalVelocity this)) <= 17 # 1200 /\
  vec_z (rotationalVelocity this) == 0.

End Controls.

(** * The head-up display

    What [drawAutoPilotCountdown] computes before it draws; the calls on
    the canvas are left out. *)

Module Hud.

Import Controls.

(** Colours are arrays of three channel values. *)
Definition lerpColor (color1 color2 : Z * Z * Z) (t : Q) : Z * Z * Z :=
  let '(r1, g1, b1) := color1 in
  let '(r2, g2, b2) := color2 in
  (Math_round (inject_Z r1 + (inject_Z r2 - inject_Z r1) * t),
   Math_round (inject_Z g1 + (inject_Z g2 - inject_Z g1) * t),
   Math_round (inject_Z b1 + (inject_Z b2 - inject_Z b1) * t)).

(** What the countdown shows: nothing, or the number in the ring, the
    fraction of the ring that is drawn, and the colour of both. *)
Inductive Countdown : Type :=
| Hidden
| Shown (countdown : Z) (progress : Q) (color : Z * Z * Z).

(** [None] when the division by [idleThreshold] has no finite result. *)
Definition drawAutoPilotCountdown (now : Q) (this : Controls)
  : option Countdown :=
  if autoPilot this then Some Hidden else
  let k := keys this in
  let anyKeyPressed :=
    key_w k || key_a k || key_s k || key_d k
    || key_ArrowUp k || key_ArrowDown k
    || key_ArrowLeft k || key_ArrowRight k in
  if anyKeyPressed then Some Hidden else
  let timeSinceIdle := now - idleTimer this in
  if Qle_bool (idleThreshold this) timeSinceIdle then Some Hidden else
  let remainingTime := idleThreshold this - timeSinceIdle in
  let countdown := Math_ceil (remainingTime / 1000) in
  if (countdown >? 10)%Z then Some Hidden else
  let* progress := js_div timeSinceIdle (idleThreshold this) in
  let color :=
    if Qltb progress 0.33 then
      let t := progress / 0.33 in
      lerpColor (157, 78, 221)%Z (0, 229, 255)%Z t
    else if Qltb progress 0.66 then
      let t := (progress - 0.33) / 0.33 in
      lerpColor (0, 229, 255)%Z (91, 127, 255)%Z t
    else
      let t := (progress - 0.66) / 0.34 in
      lerpColor (91, 127, 255)%Z (255, 215, 0)%Z t in
  Some (Shown countdown progress color).

(** A colour channel of a canvas colour. *)
Definition channel (c : Z) : Prop := (0 <= c <= 255)%Z.

End Hud.

(** * The random supply

    [Math.random] is a sequence of values decided outside the program: the
    call number [n] returns [random n].  A computation that draws from it
    takes the sequence and the number of draws made so far, and returns its
    result with the number of draws made after it.  The supply of a model is
    the sequence of the values that its functions draw, in order; what other
    functions draw in between is not part of it. *)

Definition Draw (A : Type) : Type := (nat -> Q) -> nat -> A * nat.

Definition ret {A : Type} (a : A) : Draw A := fun _ n => (a, n).

Definition andThen {A B : Type} (m : Draw A) (f : A -> Draw B) : Draw B :=
  fun random n => let (a, n') := m random n in f a random n'.

Notation "x <~ m ;; k" := (andThen m (fun x => k))
  (at level 61, m at next level, right associativity).

Definition Math_random : Draw Q := fun random n => (random n, S n).

(** [array[i]]; [None] stands for [undefined]. *)
Definition array_at {A : Type} (array : list A) (i : Z) : option A :=
  if (i <? 0)%Z then None else nth_error array (Z.to_nat i).

(** [array[Math.floor(Math.random() * array.length)]] *)
Definition pick {A : Type} (array : list A) : Draw (option A) :=
  r <~ Math_random ;;
  ret (array_at array
         (Math_floor (r * inject_Z (Z.of_nat (List.length array))))).

(** A counting loop that pushes the result of its body [count] times. *)
Fixpoint times {A : Type} (count : nat) (body : Draw A) : Draw (list A) :=
  match count with
  | O => ret []
  | S count' =>
      a <~ body ;;
      rest <~ times count' body ;;
      ret (a :: rest)
  end.

(** Every value of the supply is one that [Math.random] can return. *)
Definition unitInterval (random : nat -> Q) : Prop :=
  forall n, 0 <= random n < 1.

(** * The drifting characters

    [createAsciiSprites] and the part of [animate] that moves the sprites.
    The canvas texture of a sprite is left out; its character and colour are
    kept. *)

Module Sprites.

Definition asciiChars : list string :=
  ["@"; "#"; "$"; "%"; "&"; "*"; "+"; "="; "~"; "◆"; "◇"; "★"; "✦"; "✧";
   "※"]%string.

Definition colors : list string :=
  ["#9d4edd"; "#00e5ff"; "#5b7fff"; "#ffd700"]%string.

Record Sprite : Type := mkSprite {
  sprite_char : option string;
  sprite_color : option string;
  sprite_position : Vector3;
  sprite_scale : Q * Q;
  sprite_velocity : Vector3;
  (** [velocity.rotation] and [material.rotation] *)
  sprite_spin : Q;
  sprite_rotation : Q
}.

(** The body of the loop of [createAsciiSprites]. *)
Definition newAsciiSprite : Draw Sprite :=
  char <~ pick asciiChars ;;
  color <~ pick colors ;;
  px <~ Math_random ;;
  py <~ Math_random ;;
  pz <~ Math_random ;;
  sx <~ Math_random ;;
  sy <~ Math_random ;;
  vx <~ Math_random ;;
  vy <~ Math_random ;;
  vz <~ Math_random ;;
  vr <~ Math_random ;;
  ret {| sprite_char := char;
         sprite_color := color;
         sprite_position :=
           mkVector3 ((px - 0.5) * 200) ((py - 0.5) * 200) ((pz - 0.5) * 200);
         sprite_scale := (4 + sx * 1, 4 + sy * 1);
         sprite_velocity :=
           mkVector3 ((vx - 0.5) * 0.05) ((vy - 0.5) * 0.05)
                     ((vz - 0.5) * 0.05);
         sprite_spin := (vr - 0.5) * 0.015;
         sprite_rotation := 0 |}.

Definition createAsciiSprites : Draw (list Sprite) :=
  times 80 newAsciiSprite.

(** [if (Math.abs(p) > 100) v *= -1] *)
Definition bounce (p v : Q) : Q :=
  if Qgtb (Qabs p) 100 then v * -1 else v.

(** The body of the loop over [asciiSprites] in [animate]. *)
Definition animateSprite (sprite : Sprite) : Sprite :=
  let p := Vec.add (sprite_position sprite) (sprite_velocity sprite) in
  let v := sprite_velocity sprite in
  let v :=
    mkVector3 (bounce (vec_x p) (vec_x v)) (bounce (vec_y p) (vec_y v))
              (bounce (vec_z p) (vec_z v)) in
  let rot :=
    if Qeq_bool (sprite_spin sprite) 0
    then sprite_rotation sprite
    else sprite_rotation sprite + sprite_spin sprite in
  mkSprite (sprite_char sprite) (sprite_color sprite) p
    (sprite_scale sprite) v (sprite_spin sprite) rot.

Definition animateSprites (asciiSprites : list Sprite) : list Sprite :=
  map animateSprite asciiSprites.

(** The sprites after a number of frames. *)
Fixpoint after (frames : nat) (asciiSprites : list Sprite) : list Sprite :=
  match frames with
  | O => asciiSprites
  | S frames' => after frames' (animateSprites asciiSprites)
  end.

(** On one axis: the sprite is inside the box or its next step takes it back
    inside, and it is no faster than a created sprite. *)
Definition returning (p v : Q) : Prop :=
  (Qabs p <= 100 \/ Qabs (p + v) <= 100) /\ Qabs v <= 0.025.

Definition Confined (sprite : Sprite) : Prop :=
  returning (vec_x (sprite_position sprite)) (vec_x (sprite_velocity sprite)) /\
  returning (vec_y (sprite_position sprite)) (vec_y (sprite_velocity sprite)) /\
  returning (vec_z (sprite_position sprite)) (vec_z (sprite_velocity sprite)).

End Sprites.

(** * The floating debris

    [createDebrisParticle], [createFloatingDebris] and
    [updateFloatingDebris].  A particle keeps its shape, its position, its
    rotation and the two [userData] fields; materials are left out.  The
    camera's forward, right and up vectors come from its quaternion and are
    inputs here.  The scene graph is the log of the calls made for debris,
    the latest first. *)

Module Debris.

Inductive Shape : Type :=
| Sparkle (color : option Z) (radius : Q)
| Shard (color : option Z) (radius : Q)
| Glyph (char : option string) (color : option string) (scale : Q * Q).

Record Particle : Type := mkParticle {
  shape : Shape;
  debris_position : Vector3;
  debris_rotation : Vector3;
  (** [userData.velocity] and [userData.rotationSpeed], unset at first *)
  debris_velocity : option Vector3;
  rotationSpeed : option Q
}.

Inductive SceneCall : Type :=
| Added (debris : Particle)
| Removed (debris : Particle).

Record Field : Type := mkField {
  floatingDebris : list Particle;
  debris_scene : list SceneCall
}.

(** The constructor's empty list. *)
Definition new_Field : Field := mkField [] [].

(** A mesh or sprite as THREE.js creates it. *)
Definition fresh (s : Shape) : Particle :=
  mkParticle s (mkVector3 0 0 0) (mkVector3 0 0 0) None None.

Definition createDebrisParticle : Draw Particle :=
  type <~ Math_random ;;
  if Qltb type 0.3 then
    sparkleColor <~ pick [0x9d4edd; 0x00e5ff; 0x5b7fff; 0xffd700]%Z ;;
    r <~ Math_random ;;
    ret (fresh (Sparkle sparkleColor (0.25 + r * 0.1)))
  else if Qltb type 0.6 then
    shardColor <~ pick [0x9d4edd; 0x00e5ff; 0x5b7fff]%Z ;;
    r <~ Math_random ;;
    ret (fresh (Shard shardColor (0.6 + r * 0.2)))
  else
    char <~ pick ["◆"; "◇"; "★"; "✦"; "✧"; "※"; "+"; "*"; "·"]%string ;;
    color <~ pick ["#9d4edd"; "#00e5ff"; "#5b7fff"; "#ffd700"]%string ;;
    sx <~ Math_random ;;
    sy <~ Math_random ;;
    ret (fresh (Glyph char color (1.8 + sx * 0.4, 1.8 + sy * 0.4))).

(** The velocity and the rotation speed that both creators give a particle
    once it is placed at [pos]. *)
Definition launch (debris : Particle) (pos : Vector3) : Draw Particle :=
  vx <~ Math_random ;;
  vy <~ Math_random ;;
  vz <~ Math_random ;;
  rs <~ Math_random ;;
  ret (mkParticle (shape debris) pos (debris_rotation debris)
         (Some (mkVector3 ((vx - 0.5) * 0.03) ((vy - 0.5) * 0.03)
                          ((vz - 0.5) * 0.03)))
         (Some ((rs - 0.5) * 0.015))).

Section Hosted.

Context {host : Math} {trig : Trig}.

(** The body of the loop of [createFloatingDebris]. *)
Definition newFloatingDebris (camera_position : Vector3) : Draw Particle :=
  a <~ Math_random ;;
  a2 <~ Math_random ;;
  d <~ Math_random ;;
  let angle := a * Math_PI * 2 in
  let angle2 := a2 * Math_PI in
  let distance := 50 + d * 200 in
  let x := Math_cos angle * Math_sin angle2 * distance in
  let y := Math_sin angle * Math_sin angle2 * distance in
  let z := Math_cos angle2 * distance in
  debris <~ createDebrisParticle ;;
  launch debris
    (mkVector3 (vec_x camera_position + x) (vec_y camera_position + y)
               (vec_z camera_position + z)).

(** [push] and [scene.add] for each new particle, in the order of creation. *)
Definition pushAll (created : list Particle) (this : Field) : Field :=
  fold_left
    (fun this debris =>
       mkField (floatingDebris this ++ [debris])
               (Added debris :: debris_scene this))
    created this.

Definition createFloatingDebris (camera_position : Vector3) (this : Field)
  : Draw Field :=
  let debrisCount := 300%nat in
  created <~ times debrisCount (newFloatingDebris camera_position) ;;
  ret (pushAll created this).

(** The callback of the [filter] in [updateFloatingDebris]: the particle
    after its move and turn, and whether it is kept. *)
Definition visit (cam : Camera) (debris : Particle) : Particle * bool :=
  let pos :=
    match debris_velocity debris with
    | Some v => Vec.add (debris_position debris) v
    | None => debris_position debris
    end in
  let rot :=
    match rotationSpeed debris with
    | Some rs =>
        if Qeq_bool rs 0 then debris_rotation debris
        else
          mkVector3 (vec_x (debris_rotation debris) + rs)
                    (vec_y (debris_rotation debris) + rs * 0.7)
                    (vec_z (debris_rotation debris) + rs * 0.5)
    | None => debris_rotation debris
    end in
  let debris :=
    mkParticle (shape debris) pos rot (debris_velocity debris)
               (rotationSpeed debris) in
  let inFrustum := containsPoint cam pos in
  let distance := distanceTo (cam_position cam) pos in
  if Qgtb distance 250 || (negb inFrustum && Qgtb distance 100)
  then (debris, false)
  else (debris, true).

(** The body of the loop that refills the field. *)
Definition spawn (cam : Camera) (forward right up : Vector3) : Draw Particle :=
  a <~ Math_random ;;
  a2 <~ Math_random ;;
  d <~ Math_random ;;
  let angle := a * Math_PI * 2 in
  let angle2 := (a2 - 0.5) * Math_PI * 0.8 in
  let distance := 100 + d * 150 in
  let offset := Vec.multiplyScalar forward distance in
  let offset :=
    Vec.add offset
      (Vec.multiplyScalar right
         (Math_cos angle * distance * Math_sin angle2)) in
  let offset :=
    Vec.add offset
      (Vec.multiplyScalar up
         (Math_sin angle * distance * Math_sin angle2)) in
  debris <~ createDebrisParticle ;;
  launch debris (Vec.add (cam_position cam) offset).

Definition updateFloatingDebris (cam : Camera) (forward right up : Vector3)
    (this : Field) : Draw Field :=
  let visited := map (visit cam) (floatingDebris this) in
  let scene :=
    fold_left
      (fun scene (v : Particle * bool) =>
         if snd v then scene else Removed (fst v) :: scene)
      visited (debris_scene this) in
  let this := mkField (map fst (filter snd visited)) scene in
  if (List.length (floatingDebris this) <? 200)%nat then
    created <~ times 5 (spawn cam forward right up) ;;
    ret (pushAll created this)
  else ret this.

(** One camera pose per frame: the camera and its three axes. *)
Record Pose : Type := mkPose {
  pose_camera : Camera;
  pose_forward : Vector3;
  pose_right : Vector3;
  pose_up : Vector3
}.

(** The field after a run of frames. *)
Fixpoint fly (poses : list Pose) (this : Field) : Draw Field :=
  match poses with
  | [] => ret this
  | pose :: poses' =>
      this' <~ updateFloatingDebris (pose_camera pose) (pose_forward pose)
                 (pose_right pose) (pose_up pose) this ;;
      fly poses' this'
  end.

End Hosted.

(** A shape that [createDebrisParticle] can return when [Math.random] stays
    in [0, 1): the colour and the character are entries of their arrays and
    the sizes are in the ranges that the source's comments give. *)
Definition wellShaped (s : Shape) : Prop :=
  match s with
  | Sparkle color radius =>
      (exists c, color = Some c) /\ 0.25 <= radius < 0.35
  | Shard color radius =>
      (exists c, color = Some c) /\ 0.6 <= radius < 0.8
  | Glyph char color (sx, sy) =>
      (exists c, char = Some c) /\ (exists c, color = Some c) /\
      1.8 <= sx < 2.2 /\ 1.8 <= sy < 2.2
  end.

(** A particle as both creators leave it: its velocity and its rotation
    speed are set and small. *)
Definition Launched (debris : Particle) : Prop :=
  wellShaped (shape debris) /\
  (exists v, debris_velocity debris = Some v /\
             Qabs (vec_x v) <= 0.015 /\ Qabs (vec_y v) <= 0.015 /\
             Qabs (vec_z v) <= 0.015) /\
  (exists rs, rotationSpeed debris = Some rs /\ Qabs rs <= 0.0075).

(** What the filter of [updateFloatingDebris] lets through. *)
Definition near {host : Math} (cam : Camera) (debris : Particle) : Prop :=
  distanceTo (cam_position cam) (debris_position debris) <= 250 /\
  (containsPoint cam (debris_position debris) = true \/
   distanceTo (cam_position cam) (debris_position debris) <= 100).

(** Calls of [scene.add] minus calls of [scene.remove] in the log. *)
Fixpoint present (log : list SceneCall) : Z :=
  match log with
  | [] => 0
  | Added _ :: log' => (present log' + 1)%Z
  | Removed _ :: log' => (present log' - 1)%Z
  end.

End Debris.

(** * Fading in and pulsing

    The scale and the opacities that [animate] sets on a loaded object and on
    a star.  The spawn time of an object is the value of [Date.now] at its
    creation; [None] stands for a field that is not set. *)

Module Glow.

(** [Math.pow(b, 3)] *)
Definition Math_pow3 (b : Q) : Q := b * b * b.

(** A number that a condition takes for true. *)
Definition truthy (v : option Q) : bool :=
  match v with
  | Some t => negb (Qeq_bool t 0)
  | None => false
  end.

Definition easeOut (progress : Q) : Q := 1 - Math_pow3 (1 - progress).

(** What the fade-in block does with the scale of a crystal. *)
Inductive ScaleUpdate : Type :=
| Untouched
| SetScale (scale : Q).

Definition fadeScale (fadeInDuration now : Q) (spawnTime : option Q)
  : option ScaleUpdate :=
  match spawnTime with
  | Some t =>
      if truthy spawnTime then
        let age := now - t in
        if Qltb age fadeInDuration then
          let* progress := js_div age fadeInDuration in
          Some (SetScale (0.1 + 0.9 * easeOut progress))
        else Some (SetScale 1)
      else Some Untouched
  | None => Some Untouched
  end.

Section Hosted.

Context {host : Math}.



End Hosted.

End Glow.

(** * The speed lines of the head-up display

    [updateSpeedLines]: the filter that moves, fades and removes the lines,
    and the spawning of a symmetric pair.  A line is the object that the
    source pushes, with its fields.  The lines, the previous velocity and the
    two settings are fields of the [AsciiBackground] object; the velocity, the
    rotational velocity and the auto-pilot flag are read from the controls,
    and the three axes of the camera are inputs. *)

Module SpeedLines.

Record Point : Type := mkPoint { pt_x : Q; pt_y : Q }.

Record Line : Type := mkLine {
  line_x : Q;
  line_y : Q;
  line_vx : Q;
  line_vy : Q;
  line_length : Q;
  line_width : Q;
  line_color : option string;
  line_alpha : Q;
  line_life : Q;
  line_maxLife : Q;
  line_curveX : Q;
  line_curveY : Q;
  line_trail : list Point;
  line_maxTrailLength : Z;
  line_sharedCurvePerpendicular : option Point
}.

Record Streaks : Type := mkStreaks {
  speedLines : list Line;
  maxSpeedLines : Q;
  speedLineColors : list string;
  previousVelocity : Vector3
}.

(** The constructor's values. *)
Definition new_Streaks : Streaks :=
  {| speedLines := [];
     maxSpeedLines := 60;
     speedLineColors :=
       ["rgba(157, 78, 221, 0.8)"; "rgba(0, 229, 255, 0.8)";
        "rgba(91, 127, 255, 0.8)"; "rgba(255, 215, 0, 0.8)"]%string;
     previousVelocity := mkVector3 0 0 0 |}.

(** [trail.shift()] when the trail is longer than [maxTrail]. *)
Definition shiftOver (maxTrail : Z) (trail : list Point) : list Point :=
  if (Z.of_nat (List.length trail) >? maxTrail)%Z then tl trail else trail.

Section Hosted.

Context {host : Math} {trig : Trig}.

(** The callback of the [filter]: the line after the frame, and whether it
    is kept. *)
Definition advance (speed curveFactor verticalCurveFactor width height : Q)
    (line : Line) : Line * bool :=
  let trail := line_trail line ++ [mkPoint (line_x line) (line_y line)] in
  let maxTrail := Math_ceil (line_length line / 5) in
  let trail := shiftOver maxTrail trail in
  let moveSpeed := speed * 15 + 5 in
  let perpX :=
    match line_sharedCurvePerpendicular line with
    | Some p => pt_x p
    | None => - line_vy line
    end in
  let perpY :=
    match line_sharedCurvePerpendicular line with
    | Some p => pt_y p
    | None => line_vx line
    end in
  let curveInfluence := 0.008 in
  let vx := line_vx line + perpX * line_curveX line * curveInfluence in
  let vy := line_vy line + perpY * line_curveY line * curveInfluence in
  let velMag := Math_sqrt (vx * vx + vy * vy) in
  let vx' := if Qgtb velMag 0 then vx / velMag else vx in
  let vy' := if Qgtb velMag 0 then vy / velMag else vy in
  let x := line_x line + vx' * moveSpeed in
  let y := line_y line + vy' * moveSpeed in
  let length :=
    if Qltb speed 0.5
    then Math_max 5 (line_length line - (0.5 - speed) * 3)
    else line_length line in
  let trail :=
    if Qltb speed 0.5
    then shiftOver (Math_ceil (length / 5)) trail
    else trail in
  let life := line_life line + 1 in
  let alpha :=
    if Qltb life 10 then life / 10
    else if Qgtb life (line_maxLife line - 20)
         then (line_maxLife line - life) / 20
         else line_alpha line in
  let alpha :=
    if Qltb length 15 then Math_min alpha (length / 15) else alpha in
  let outOfBounds :=
    Qltb x (-200) || Qgtb x (width + 200)
    || Qltb y (-200) || Qgtb y (height + 200) in
  (mkLine x y vx' vy' length (line_width line) (line_color line) alpha life
     (line_maxLife line) curveFactor verticalCurveFactor trail
     (line_maxTrailLength line) (line_sharedCurvePerpendicular line),
   Qltb life (line_maxLife line) && Qgtb length 3 && negb outOfBounds).

(** The perpendicular of the movement in screen space, normalised when it is
    not zero. *)
Definition sharedPerp (velX velY : Q) : Point :=
  let px := - velY in
  let py := velX in
  let perpMag := Math_sqrt (px * px + py * py) in
  if Qgtb perpMag 0 then mkPoint (px / perpMag) (py / perpMag)
  else mkPoint px py.

(** The two objects pushed for a pair; each draws its own [maxLife]. *)
Definition pushPair (start1 dir1 start2 dir2 : Point)
    (lineLength lineWidth : Q) (lineColor : option string)
    (curveFactor verticalCurveFactor : Q) (perp : Point)
  : Draw (list Line) :=
  let trailSegments := Math_ceil (lineLength / 5) in
  m1 <~ Math_random ;;
  m2 <~ Math_random ;;
  ret [mkLine (pt_x start1) (pt_y start1) (pt_x dir1) (pt_y dir1)
         lineLength lineWidth lineColor 0 0 (60 + m1 * 40)
         curveFactor verticalCurveFactor [] trailSegments (Some perp);
       mkLine (pt_x start2) (pt_y start2) (pt_x dir2) (pt_y dir2)
         lineLength lineWidth lineColor 0 0 (60 + m2 * 40)
         curveFactor verticalCurveFactor [] trailSegments (Some perp)].

(** The pair spawned while moving forward: near the vanishing point, mirrored
    across the direction of movement. *)
Definition spawnForward (width height velX velY : Q)
    (curveFactor verticalCurveFactor : Q) (colors : list string)
  : Draw (list Line) :=
  let horizonY := height * 0.65 in
  let vanishingX := width / 2 - velX * 100 in
  let vanishingY := horizonY + velY * 100 in
  r <~ Math_random ;;
  let spawnRadius := 150 + r * 100 in
  let movementAngle := Math_atan2 velY velX in
  rand <~ Math_random ;;
  o <~ Math_random ;;
  let angleOffset :=
    if Qltb rand 0.6 then (o - 0.5) * Math_PI * 0.8
    else if Qltb rand 0.8 then Math_PI + (o - 0.5) * Math_PI * 0.6
    else (o - 0.5) * Math_PI * 0.4 in
  let angle1 := movementAngle + angleOffset in
  let start1 :=
    mkPoint (vanishingX + Math_cos angle1 * spawnRadius)
            (vanishingY + Math_sin angle1 * spawnRadius) in
  let dir1 := mkPoint (Math_cos angle1) (Math_sin angle1) in
  let angle2 := movementAngle - angleOffset in
  let start2 :=
    mkPoint (vanishingX + Math_cos angle2 * spawnRadius)
            (vanishingY + Math_sin angle2 * spawnRadius) in
  let dir2 := mkPoint (Math_cos angle2) (Math_sin angle2) in
  l <~ Math_random ;;
  let lineLength := 20 + l * 40 in
  lineColor <~ pick colors ;;
  w <~ Math_random ;;
  let lineWidth := 1 + w * 2 in
  pushPair start1 dir1 start2 dir2 lineLength lineWidth lineColor
    curveFactor verticalCurveFactor (sharedPerp velX velY).

(** The pair spawned while moving backward: on an edge, heading for the
    vanishing point.  [None] when a start point is the vanishing point, where
    the direction is not a number. *)
Definition spawnBackward (width height velX velY : Q)
    (curveFactor verticalCurveFactor : Q) (colors : list string)
  : Draw (option (list Line)) :=
  let horizonY := height * 0.65 in
  let vanishingX := width / 2 - velX * 150 in
  let vanishingY := horizonY + velY * 150 in
  e <~ Math_random ;;
  let edge := Math_floor (e * 4) in
  let margin := 100 in
  o <~ Math_random ;;
  let starts :=
    if (edge =? 0)%Z || (edge =? 2)%Z then
      let offsetX := (o - 0.5) * width * 0.8 in
      let baseX := width / 2 in
      let y := if (edge =? 0)%Z then - margin else height + margin in
      (mkPoint (baseX + offsetX) y, mkPoint (baseX - offsetX) y)
    else
      let offsetY := (o - 0.5) * height * 0.8 in
      let baseY := height / 2 in
      let x := if (edge =? 3)%Z then - margin else width + margin in
      (mkPoint x (baseY + offsetY), mkPoint x (baseY - offsetY)) in
  let start1 := fst starts in
  let start2 := snd starts in
  let dx1 := vanishingX - pt_x start1 in
  let dy1 := vanishingY - pt_y start1 in
  let dist1 := Math_sqrt (dx1 * dx1 + dy1 * dy1) in
  let dx2 := vanishingX - pt_x start2 in
  let dy2 := vanishingY - pt_y start2 in
  let dist2 := Math_sqrt (dx2 * dx2 + dy2 * dy2) in
  let dirs :=
    let* vx1 := js_div dx1 dist1 in
    let* vy1 := js_div dy1 dist1 in
    let* vx2 := js_div dx2 dist2 in
    let* vy2 := js_div dy2 dist2 in
    Some (mkPoint vx1 vy1, mkPoint vx2 vy2) in
  l <~ Math_random ;;
  let lineLength := 20 + l * 40 in
  lineColor <~ pick colors ;;
  w <~ Math_random ;;
  let lineWidth := 1 + w * 2 in
  match dirs with
  | Some (dir1, dir2) =>
      pair <~ pushPair start1 dir1 start2 dir2 lineLength lineWidth
                lineColor curveFactor verticalCurveFactor
                (sharedPerp velX velY) ;;
      ret (Some pair)
  | None => ret None
  end.

Definition updateSpeedLines (width height : Q) (forward right up : Vector3)
    (c : Controls.Controls) (this : Streaks) : Draw (option Streaks) :=
  let velocity := Controls.velocity c in
  let speed := Vec.length velocity in
  let forwardDot := Vec.dot velocity forward in
  let isMovingForward := Qgtb forwardDot 0 in
  let velX := Vec.dot velocity right in
  let velY := Vec.dot velocity up in
  let velocityChange := Vec.subVectors velocity (previousVelocity this) in
  let curveFactor :=
    if Controls.autoPilot c
    then Vec.dot velocityChange right * 800
    else vec_y (Controls.rotationalVelocity c) * 600 in
  let verticalCurveFactor :=
    if Controls.autoPilot c
    then Vec.dot velocityChange up * 600
    else vec_x (Controls.rotationalVelocity c) * 450 in
  let visited :=
    map (advance speed curveFactor verticalCurveFactor width height)
        (speedLines this) in
  let kept := map fst (filter snd visited) in
  let done := fun lines =>
    mkStreaks lines (maxSpeedLines this) (speedLineColors this) velocity in
  let spawnRate := Math_min (speed * 20) (maxSpeedLines this / 20) in
  if Qgtb speed 0.05 then
    r <~ Math_random ;;
    if Qltb r spawnRate
       && Qltb (inject_Z (Z.of_nat (List.length kept)))
               (maxSpeedLines this - 1)
    then
      if isMovingForward then
        pair <~ spawnForward width height velX velY curveFactor
                  verticalCurveFactor (speedLineColors this) ;;
        ret (Some (done (kept ++ pair)))
      else
        pair <~ spawnBackward width height velX velY curveFactor
                  verticalCurveFactor (speedLineColors this) ;;
        ret (let* pair := pair in Some (done (kept ++ pair)))
    else ret (Some (done kept))
  else ret (Some (done kept)).

(** What a frame gives [updateSpeedLines]: the size of the canvas, the axes
    of the camera and the controls. *)
Record Frame : Type := mkFrame {
  frame_width : Q;
  frame_height : Q;
  frame_forward : Vector3;
  frame_right : Vector3;
  frame_up : Vector3;
  frame_controls : Controls.Controls
}.

(** The lines after a run of frames; [None] when a direction was not a
    number. *)
Fixpoint streak (frames : list Frame) (this : Streaks)
  : Draw (option Streaks) :=
  match frames with
  | [] => ret (Some this)
  | f :: frames' =>
      next <~ updateSpeedLines (frame_width f) (frame_height f)
                (frame_forward f) (frame_right f) (frame_up f)
                (frame_controls f) this ;;
      match next with
      | Some this' => streak frames' this'
      | None => ret None
      end
  end.

End Hosted.


End SpeedLines.

(** ** Concrete inputs for the controls, the display and the random supply *)

Module Flights.

(** The stand-in cosine: the stand-in sine a quarter period ahead. *)
Definition cos_approx (a : Q) : Q :=
  Host.sin_approx (a + Host.pi_approx / 2).

(** The stand-in arctangent: linear in the smaller over the larger
    coordinate within each octant, 0 at the origin. *)
Definition atan2_approx (y x : Q) : Q :=
  let p := Host.pi_approx in
  if Qle_bool (Qabs y) (Qabs x) then
    if Qeq_bool x 0 then 0
    else if Qltb 0 x then p / 4 * (y / x)
    else if Qle_bool 0 y then p + p / 4 * (y / x)
    else - p + p / 4 * (y / x)
  else
    if Qltb 0 y then p / 2 - p / 4 * (x / y)
    else - (p / 2) - p / 4 * (x / y).

Definition trig : Trig :=
  {| Math_cos := cos_approx; Math_atan2 := atan2_approx |}.

(** A supply of values in [0, 1): the multiples of 37 hundredths, modulo
    one. *)
Definition dice (n : nat) : Q :=
  inject_Z ((Z.of_nat n * 37) mod 100) / 100.

(** The page left alone from the time 1000 on: the controls just before the
    frame at 12000, more than ten seconds later. *)
Definition idle : Controls.Controls :=
  Controls.set_idleTimer Controls.new_Controls 1000.

(** The same page four seconds into the countdown. *)
Definition waiting : Q := 5000.

(** The sixth sprite after three frames. *)
Definition sprite : Sprites.Sprite :=
  Eval vm_compute in
    nth 5 (Sprites.after 3 (fst (Sprites.createAsciiSprites dice 0%nat)))
      (Sprites.mkSprite None None (mkVector3 0 0 0) (0, 0) (mkVector3 0 0 0)
         0 0).

(** The first particle that [createFloatingDebris] makes around the camera
    of the page as loaded. *)
Definition particle : Debris.Particle :=
  Eval vm_compute in
    fst (Debris.newFloatingDebris (host := Host.approx) (trig := trig)
           Host.home dice 0%nat).

(** Flying straight ahead at speed 1 on a canvas of 1280 by 720. *)
Definition cruising : Controls.Controls :=
  Controls.set_motion Controls.new_Controls (mkVector3 0 0 (-1))
    (mkVector3 0 0 0) (mkVector3 0 0 0) (mkVector3 0 5 50).

Definition frame : SpeedLines.Frame :=
  SpeedLines.mkFrame 1280 720 (mkVector3 0 0 (-1)) (mkVector3 1 0 0)
    (mkVector3 0 1 0) cruising.

(** The speed lines after three such frames, and the first of them. *)
Definition streaks : SpeedLines.Streaks :=
  Eval vm_compute in
    match fst (SpeedLines.streak (host := Host.approx) (trig := trig)
                 [frame; frame; frame] SpeedLines.new_Streaks dice 0%nat) with
    | Some s => s
    | None => SpeedLines.new_Streaks
    end.

Definition line : SpeedLines.Line :=
  Eval vm_compute in
    nth 0 (SpeedLines.speedLines streaks)
      (SpeedLines.mkLine 0 0 0 0 0 0 None 0 0 0 0 0 [] 0 None).

End Flights.

(** * Doubles

    The numbers of the source are IEEE 754 binary64 values.  This module
    gives the placement functions and the counters of the candidate pass
    with their rounding: every arithmetic operation of the source is followed
    by [round64], the rounding to the nearest double with ties to the even
    mantissa, subnormal numbers included.  Overflow to an infinity is not
    modelled: the values that occur here are far below [2 ^ 1024]. *)

Module Binary64.

Definition pow2 (e : Z) : Q := 2 ^ e.

(** The binary exponent [floor (log2 |q|)] of a number other than zero. *)
Definition exponent (q : Q) : Z :=
  let a := Qabs q in
  if Qle_bool 1 a then Z.log2 (Qfloor a)
  else (- Z.log2_up (Qceiling (/ a)))%Z.

(** The nearest integer, a tie going to the even one. *)
Definition roundEven (t : Q) : Z :=
  let f := Qfloor t in
  match Qcompare (t - inject_Z f) (1 # 2) with
  | Lt => f
  | Gt => (f + 1)%Z
  | Eq => if Z.even f then f else (f + 1)%Z
  end.

(** The nearest double: a multiple of [2 ^ (e - 52)], where [e] is the
    exponent of the number and at least -1022. *)
Definition round64 (q : Q) : Q :=
  if Qeq_bool q 0 then 0 else
  let e := Z.max (exponent q) (-1022) in
  Qred (inject_Z (roundEven (q / pow2 (e - 52))) * pow2 (e - 52)).

(** Half the distance between neighbouring doubles: relative to a normal
    number, absolute for a subnormal one. *)
Definition eps : Q := 1 # 9007199254740992.
Definition tiny : Q := Eval vm_compute in pow2 (-1075).

(** The operators [+], [-], [*] and [/], and a literal of the source text. *)
Definition add (a b : Q) : Q := round64 (a + b).
Definition sub (a b : Q) : Q := round64 (a - b).
Definition mul (a b : Q) : Q := round64 (a * b).
Definition div (a b : Q) : option Q :=
  if Qeq_bool b 0 then None else Some (round64 (a / b)).
Definition lit (q : Q) : Q := round64 q.

(** A counter of a [for] loop holds a whole number: [x++], and the bounds
    [camGridPos.x - checkRadius] and [camGridPos.x + checkRadius]. *)
Definition incr (x : Z) : Z := Qfloor (add (inject_Z x) 1).
Definition offset (c d : Z) : Z := Qfloor (add (inject_Z c) (inject_Z d)).

(** [for (let x = lo; x <= hi; x++) body]: [None] when the loop has not ended
    after [fuel] tests of its condition. *)
Fixpoint forLoop {S : Type} (fuel : nat) (x hi : Z)
    (body : S -> Z -> option S) (s : S) : option S :=
  match fuel with
  | O => None
  | Datatypes.S fuel' =>
      if (x <=? hi)%Z then
        let* s' := body s x in
        forLoop fuel' (incr x) hi body s'
      else Some s
  end.

Section Hosted.

Context {host : Math}.

(** The grid coordinates are whole numbers that the source holds in
    doubles; the host's sine returns a double. *)
Definition seededRandom (x y z : Z) : Q :=
  let seed :=
    add (add (mul (inject_Z x) 374761393) (mul (inject_Z y) 668265263))
        (mul (inject_Z z) 1274126177) in
  let t := mul (round64 (Math_sin seed)) (lit 43758.5453) in
  sub t (inject_Z (Math_floor t)).

Definition getGridPosition (this : AsciiBackground) (worldPos : Vector3)
  : option GridPos :=
  let* qx := div (vec_x worldPos) (gridSize this) in
  let* qy := div (vec_y worldPos) (gridSize this) in
  let* qz := div (vec_z worldPos) (gridSize this) in
  Some (mkGridPos (Math_round qx) (Math_round qy) (Math_round qz)).

Definition gridToWorld (this : AsciiBackground) (gridPos : GridPos)
  : Vector3 :=
  let gx := grid_x gridPos in
  let gy := grid_y gridPos in
  let gz := grid_z gridPos in
  {| vec_x := add (mul (inject_Z gx) (gridSize this))
                  (mul (sub (seededRandom gx gy gz) 0.5) 20);
     vec_y := add (mul (inject_Z gy) (gridSize this))
                  (mul (sub (seededRandom gy gz gx) 0.5) 20);
     vec_z := add (mul (inject_Z gz) (gridSize this))
                  (mul (sub (seededRandom gz gx gy) 0.5) 20)
  |}.

(** The three nested loops of the candidate pass with their counters as the
    source holds them; the body is [visitCell]. *)
Definition visitCells (fuel : nat) (this : AsciiBackground) (c : GridPos)
    (r : Z) : option AsciiBackground :=
  forLoop fuel (offset (grid_x c) (- r)) (offset (grid_x c) r)
    (fun t x =>
       forLoop fuel (offset (grid_y c) (- r)) (offset (grid_y c) r)
         (fun t y =>
            forLoop fuel (offset (grid_z c) (- r)) (offset (grid_z c) r)
              (fun t z => Some (visitCell t x y z)) t)
         t)
    this.

(** The update with the camera cell and the loop counters in doubles. *)
Definition updateProceduralAetherytes (fuel : nat) (this : AsciiBackground)
  : option AsciiBackground :=
  let this := set_frameCount this (frameCount this + 1) in
  if negb (js_rem (frameCount this) 10 =? 0)%Z then Some this else
  let* camGridPos := getGridPosition this (cam_position (camera this)) in
  let* q := div (renderDistance this) (gridSize this) in
  let checkRadius := Math_ceil q in
  let* this := visitCells fuel this camGridPos checkRadius in
  Some (cleanupDistantObjects this).

End Hosted.

End Binary64.
(** * Properties *)

(** ** Comparisons *)

Lemma Qgtb_true (a b : Q) : Qgtb a b = true <-> b < a.
Proof.
  unfold Qgtb. rewrite negb_true_iff. split; intro H.
  - apply Qnot_le_lt. intro L. apply Qle_bool_iff in L. congruence.
  - destruct (Qle_bool a b) eqn:E; [|reflexivity].
    apply Qle_bool_iff in E. exfalso. apply (Qlt_not_le _ _ H E).
Qed.

Lemma Qgtb_false (a b : Q) : Qgtb a b = false <-> a <= b.
Proof.
  unfold Qgtb. rewrite negb_false_iff. apply Qle_bool_iff.
Qed.

Lemma Qltb_true (a b : Q) : Qltb a b = true <-> a < b.
Proof. apply (Qgtb_true b a). Qed.

Lemma Qltb_false (a b : Q) : Qltb a b = false <-> b <= a.
Proof. apply (Qgtb_false b a). Qed.

(** ** Maps and arrays *)

Lemma Map_has_In (k : string) (m : list (string * Object3D)) :
  Map_has k m = true <-> In k (keysOf m).
Proof.
  unfold Map_has, keysOf. rewrite existsb_exists, in_map_iff. split.
  - intros [e [Hin He]]. apply String.eqb_eq in He. eauto.
  - intros [e [He Hin]]. exists e. split; [assumption|].
    now apply String.eqb_eq.
Qed.

Lemma Map_has_false (k : string) (m : list (string * Object3D)) :
  Map_has k m = false <-> ~ In k (keysOf m).
Proof.
  rewrite <- Map_has_In. destruct (Map_has k m); split; congruence.
Qed.

Lemma star_has_In (k : string) (l : list Object3D) :
  existsb (hasKey k) l = true <-> In k (starKeys l).
Proof.
  unfold starKeys, hasKey. rewrite existsb_exists, in_map_iff. split.
  - intros [s [Hin Hs]]. apply String.eqb_eq in Hs. eauto.
  - intros [s [Hs Hin]]. exists s. split; [assumption|].
    now apply String.eqb_eq.
Qed.

Lemma star_has_false (k : string) (l : list Object3D) :
  existsb (hasKey k) l = false <-> ~ In k (starKeys l).
Proof.
  rewrite <- star_has_In. destruct (existsb (hasKey k) l); split; congruence.
Qed.

Lemma Map_set_fresh (k : string) (v : Object3D) (m : list (string * Object3D)) :
  Map_has k m = false -> Map_set k v m = m ++ [(k, v)].
Proof. unfold Map_set. now intros ->. Qed.

Lemma keysOf_app (m1 m2 : list (string * Object3D)) :
  keysOf (m1 ++ m2) = keysOf m1 ++ keysOf m2.
Proof. apply map_app. Qed.

Lemma starKeys_app (l1 l2 : list Object3D) :
  starKeys (l1 ++ l2) = starKeys l1 ++ starKeys l2.
Proof. apply map_app. Qed.

Lemma NoDup_snoc {A : Type} (l : list A) (a : A) :
  NoDup l -> ~ In a l -> NoDup (l ++ [a]).
Proof.
  intros Hl Ha. induction Hl as [|b l Hb Hl IH]; simpl.
  - constructor; [intros []|constructor].
  - constructor.
    + rewrite in_app_iff. intros [H|[H|[]]]; [auto|].
      subst. apply Ha. now left.
    + apply IH. intro H. apply Ha. now right.
Qed.

(** Filtering keeps the projections of a list distinct. *)
Lemma distinct_after_filter {V K : Type} (key : V -> K) (keep : V -> bool) :
  forall items : list V,
    NoDup (map key items) -> NoDup (map key (filter keep items)).
Proof.
  intros items. induction items as [|v items IH]; simpl; intro H;
    [constructor|].
  inversion H as [|? ? Hv Hrest]; subst.
  destruct (keep v); simpl; [|auto].
  constructor; [|auto].
  rewrite in_map_iff. intros [w [Hw Hin]]. apply Hv.
  rewrite in_map_iff. exists w. split; [assumption|].
  apply filter_In in Hin. tauto.
Qed.

Lemma findIndex_None {A : Type} (p : A -> bool) (l : list A) :
  findIndex p l = None <-> existsb p l = false.
Proof.
  induction l as [|a l IH]; simpl; [tauto|].
  destruct (p a); simpl.
  - split; discriminate.
  - destruct (findIndex p l); rewrite <- IH; split; congruence.
Qed.

(** Splicing out the first star of key [k] leaves the stars of other keys,
    and no star of key [k] when the keys were distinct. *)
Lemma splice1_findIndex_keys (k : string) (l : list Object3D) (i : nat) :
  findIndex (hasKey k) l = Some i ->
  NoDup (starKeys l) ->
  NoDup (starKeys (splice1 i l)) /\
  forall k', In k' (starKeys (splice1 i l)) <-> In k' (starKeys l) /\ k' <> k.
Proof.
  revert i. induction l as [|a l IH]; simpl; intros i Hi Hnd; [discriminate|].
  inversion Hnd as [|? ? Ha Hl]; subst.
  destruct (hasKey k a) eqn:Hk.
  - injection Hi as <-. simpl. split; [assumption|].
    apply String.eqb_eq in Hk. intro k'. split.
    + intro H. split; [now right|]. intro E. subst k'. congruence.
    + intros [[H|H] Hne]; [congruence|assumption].
  - destruct (findIndex (hasKey k) l) as [j|] eqn:Hj; [|discriminate].
    injection Hi as <-. simpl.
    destruct (IH j eq_refl Hl) as [IH1 IH2].
    apply String.eqb_neq in Hk. split.
    + constructor; [|assumption]. rewrite IH2. tauto.
    + intro k'. rewrite IH2. split.
      * intros [H|[H Hne]]; [|tauto]. split; [now left|congruence].
      * intros [[H|H] Hne]; [now left|right; tauto].
Qed.

Section Properties.

Context {host : Math}.

(** ** The loop body *)

Ltac split_ifs :=
  repeat match goal with
  | |- context [if ?c then _ else _] => destruct c eqn:?
  | |- context [match findIndex ?p ?l with _ => _ end] =>
      destruct (findIndex p l) eqn:?
  | |- context [match nth_error ?l ?i with _ => _ end] =>
      destruct (nth_error l i) eqn:?
  end.

Lemma sameView_refl (t : AsciiBackground) : sameView t t.
Proof. unfold sameView. tauto. Qed.

Lemma sameView_trans (t1 t2 t3 : AsciiBackground) :
  sameView t1 t2 -> sameView t2 t3 -> sameView t1 t3.
Proof.
  unfold sameView. intros (A1 & A2 & A3 & A4 & A5) (B1 & B2 & B3 & B4 & B5).
  repeat split; congruence.
Qed.

Lemma visitCell_sameView (this : AsciiBackground) (x y z : Z) :
  sameView this (visitCell this x y z).
Proof.
  unfold visitCell. split_ifs; unfold sameView; simpl; tauto.
Qed.

(** ** The loop body, case by case *)

Lemma candidate_true (t : AsciiBackground) (x y z : Z) :
  candidate t x y z = true <->
  shouldHaveAetheryte t (mkGridPos x y z) = true /\
  Qgtb (cellDistance t x y z) (renderDistance t) = false /\
  isInViewFrustum t (gridToWorld t (mkGridPos x y z)) = true.
Proof.
  unfold candidate, cellDistance.
  rewrite !andb_true_iff, negb_true_iff. tauto.
Qed.

Lemma visitCell_skip (t : AsciiBackground) (x y z : Z) :
  candidate t x y z = false -> visitCell t x y z = t.
Proof.
  unfold candidate, visitCell. intro H.
  destruct (shouldHaveAetheryte t (mkGridPos x y z)); [|reflexivity].
  destruct (Qgtb _ (renderDistance t)); [reflexivity|].
  destruct (isInViewFrustum t _); [discriminate|reflexivity].
Qed.

(** The three outcomes of visiting a cell: nothing, an upgrade, a new
    stand-in. *)
Lemma visitCell_cases (t : AsciiBackground) (x y z : Z) :
  let key := cellKey x y z in
  let worldPos := gridToWorld t (mkGridPos x y z) in
  (visitCell t x y z = t /\
   (candidate t x y z = false \/
    (cellDistance t x y z < detailDistance t /\
     Map_has key (loadedAetherytes t) = true) \/
    (detailDistance t <= cellDistance t x y z /\
     (Map_has key (loadedAetherytes t) = true \/
      existsb (hasKey key) (distantStars t) = true))))
  \/ (candidate t x y z = true /\
      cellDistance t x y z < detailDistance t /\
      Map_has key (loadedAetherytes t) = false /\
      loadedAetherytes (visitCell t x y z) =
        loadedAetherytes t ++ [(key, newAetheryte x y z key worldPos)] /\
      distantStars (visitCell t x y z) = withoutStar key (distantStars t))
  \/ (candidate t x y z = true /\
      detailDistance t <= cellDistance t x y z /\
      Map_has key (loadedAetherytes t) = false /\
      existsb (hasKey key) (distantStars t) = false /\
      loadedAetherytes (visitCell t x y z) = loadedAetherytes t /\
      distantStars (visitCell t x y z) =
        distantStars t ++ [newStar key worldPos]).
Proof.
  intros key worldPos. subst key worldPos.
  destruct (candidate t x y z) eqn:Hc;
    [|left; split; [now apply visitCell_skip|now left]].
  apply candidate_true in Hc. destruct Hc as (Hg & Hr & Hf).
  unfold visitCell, cellDistance in *. rewrite Hg, Hr, Hf. cbn [negb].
  set (key := cellKey x y z).
  set (worldPos := gridToWorld t (mkGridPos x y z)).
  destruct (Qltb _ (detailDistance t)) eqn:Hd.
  - apply Qltb_true in Hd.
    destruct (Map_has key (loadedAetherytes t)) eqn:Hhas; simpl;
      [left; tauto|].
    right. left. unfold withoutStar.
    destruct (findIndex (hasKey key) (distantStars t)) as [i|];
      [destruct (nth_error (distantStars t) i)|]; simpl;
      rewrite Map_set_fresh by assumption; repeat split; auto.
  - apply Qltb_false in Hd.
    destruct (Map_has key (loadedAetherytes t)) eqn:Hhas; simpl;
      [left; tauto|].
    destruct (existsb (hasKey key) (distantStars t)) eqn:Hstar; simpl;
      [left; tauto|].
    right. right. repeat split; auto.
Qed.

Lemma withoutStar_keys (key : string) (stars : list Object3D) :
  NoDup (starKeys stars) ->
  forall k, In k (starKeys (withoutStar key stars)) <->
            In k (starKeys stars) /\ k <> key.
Proof.
  intros Hnd k. unfold withoutStar.
  destruct (findIndex (hasKey key) stars) as [i|] eqn:Hi.
  - now apply splice1_findIndex_keys.
  - apply findIndex_None, star_has_false in Hi.
    split; [|tauto]. intro H. split; [assumption|]. congruence.
Qed.

Lemma withoutStar_incl (key : string) (stars : list Object3D) (s : Object3D) :
  In s (withoutStar key stars) -> In s stars.
Proof.
  unfold withoutStar. destruct (findIndex (hasKey key) stars) as [i|];
    [|auto].
  revert i. induction stars as [|a l IH]; intros [|i]; simpl; auto.
  intros [H|H]; eauto.
Qed.

(** A visit never removes a loaded object. *)
Lemma visitCell_loaded_mono (t : AsciiBackground) (x y z : Z)
    (e : string * Object3D) :
  In e (loadedAetherytes t) -> In e (loadedAetherytes (visitCell t x y z)).
Proof.
  intro H.
  destruct (visitCell_cases t x y z)
    as [[-> _]|[(_ & _ & _ & -> & _)|(_ & _ & _ & _ & -> & _)]]; auto.
  apply in_app_iff. now left.
Qed.


Lemma visitCell_Inv (this : AsciiBackground) (x y z : Z) :
  Inv this -> Inv (visitCell this x y z).
Proof.
  intros [Hl Hs Hx Hp Hq].
  destruct (visitCell_cases this x y z)
    as [[-> _]|[(_ & _ & Hhas & El & Es)|(_ & _ & Hhas & Hstar & El & Es)]];
    [now constructor| |].
  - apply Map_has_false in Hhas.
    pose proof (withoutStar_keys (cellKey x y z) _ Hs) as Hkeys.
    constructor; rewrite ?El, ?Es.
    + rewrite keysOf_app. now apply NoDup_snoc.
    + unfold withoutStar.
      destruct (findIndex _ (distantStars this)) as [i|] eqn:Hi; [|assumption].
      now apply (splice1_findIndex_keys (cellKey x y z)).
    + intros k Hk. rewrite keysOf_app, in_app_iff in Hk.
      rewrite Hkeys. intros [Hin Hne].
      destruct Hk as [Hk|[Hk|[]]]; [now apply (Hx k)|]. simpl in Hk.
      congruence.
    + intros k a Hin. apply in_app_iff in Hin.
      destruct Hin as [Hin|[Hin|[]]]; [now apply (Hp k a)|].
      injection Hin as <- <-. simpl. eauto.
    + intros s Hin. apply withoutStar_incl in Hin. now apply Hq.
  - apply Map_has_false in Hhas. apply star_has_false in Hstar.
    constructor; rewrite ?El, ?Es.
    + assumption.
    + rewrite starKeys_app. now apply NoDup_snoc.
    + intros k Hk. rewrite starKeys_app, in_app_iff.
      intros [Hin|[Hin|[]]]; [now apply (Hx k)|]. simpl in Hin.
      apply Hhas. now rewrite Hin.
    + assumption.
    + intros s Hin. apply in_app_iff in Hin.
      destruct Hin as [Hin|[<-|[]]]; [now apply Hq|]. simpl. eauto.
Qed.

(** Induction over the cells visited by the three nested loops. *)
Lemma visitCells_ind (P : AsciiBackground -> Prop)
    (this : AsciiBackground) (c : GridPos) (r : Z) :
  (forall t x y z, inCube c r x y z -> P t -> P (visitCell t x y z)) ->
  P this -> P (visitCells this c r).
Proof.
  intros Hstep. unfold visitCells.
  assert (Hrange : forall lo hi v, In v (range lo hi) -> (lo <= v <= hi)%Z).
  { unfold range. intros lo hi v Hv. apply in_map_iff in Hv.
    destruct Hv as [i [<- Hi]]. apply in_seq in Hi. lia. }
  assert (Hfold : forall (A : Type) (f : AsciiBackground -> A -> AsciiBackground)
                    (l : list A),
             (forall t a, In a l -> P t -> P (f t a)) ->
             forall t, P t -> P (fold_left f l t)).
  { intros A f l. induction l as [|a l IH]; simpl; intros Hf t Ht; [assumption|].
    apply IH; [intros; apply Hf; auto|]. apply Hf; auto. }
  revert this. apply Hfold. intros t x Hx. apply Hfold. intros t' y Hy.
  apply Hfold. intros t'' z Hz. apply Hstep.
  apply Hrange in Hx, Hy, Hz. unfold inCube. tauto.
Qed.

Lemma visitCells_sameView (this : AsciiBackground) (c : GridPos) (r : Z) :
  sameView this (visitCells this c r).
Proof.
  apply visitCells_ind; [|apply sameView_refl].
  intros t x y z _ Ht. eapply sameView_trans; [exact Ht|].
  apply visitCell_sameView.
Qed.

Lemma visitCells_Inv (this : AsciiBackground) (c : GridPos) (r : Z) :
  Inv this -> Inv (visitCells this c r).
Proof.
  intro H. apply visitCells_ind; [|assumption].
  intros t x y z _. apply visitCell_Inv.
Qed.

(** ** The sweep *)

Lemma tooFar_sameView (t t' : AsciiBackground) (o : Object3D) :
  sameView t t' -> tooFar t' o = tooFar t o.
Proof.
  intros (Hc & Hr & _). unfold tooFar. now rewrite Hc, Hr.
Qed.

Lemma beyondDetail_sameView (t t' : AsciiBackground) (o : Object3D) :
  sameView t t' -> beyondDetail t' o = beyondDetail t o.
Proof.
  intros (Hc & _ & Hd & _). unfold beyondDetail. now rewrite Hc, Hd.
Qed.

Lemma sweepKeeps_sameView (t t' : AsciiBackground) (o : Object3D) :
  sameView t t' -> sweepKeeps t' o = sweepKeeps t o.
Proof.
  intro H. unfold sweepKeeps.
  now rewrite (tooFar_sameView _ _ _ H), (beyondDetail_sameView _ _ _ H).
Qed.

Lemma sweepDowngrades_sameView (t t' : AsciiBackground) (o : Object3D) :
  sameView t t' -> sweepDowngrades t' o = sweepDowngrades t o.
Proof.
  intro H. unfold sweepDowngrades.
  now rewrite (tooFar_sameView _ _ _ H), (beyondDetail_sameView _ _ _ H).
Qed.

Lemma keepStar_tooFar (t : AsciiBackground) (s : Object3D) :
  keepStar t s = negb (tooFar t s).
Proof.
  unfold keepStar, tooFar. now destruct (originalPosition (userData s)).
Qed.

(** Effect of one step of the sweep on the three parts of the state. *)
Lemma cleanupAetheryte_spec (t : AsciiBackground) (k : string) (a : Object3D) :
  sameView t (cleanupAetheryte t (k, a)) /\
  loadedAetherytes (cleanupAetheryte t (k, a)) =
    (if sweepKeeps t a then loadedAetherytes t
     else Map_delete k (loadedAetherytes t)) /\
  distantStars (cleanupAetheryte t (k, a)) =
    (if sweepDowngrades t a then distantStars t ++ [downgradeStar (k, a)]
     else distantStars t).
Proof.
  unfold cleanupAetheryte, sweepKeeps, sweepDowngrades, tooFar, beyondDetail,
    downgradeStar, sameView.
  simpl. destruct (originalPosition (userData a)) as [orig|]; simpl; [|tauto].
  destruct (Qgtb _ (renderDistance t * 1.2)); simpl; [tauto|].
  destruct (Qgtb _ (detailDistance t * 1.2)); simpl; tauto.
Qed.

Lemma filter_filter {A : Type} (p q : A -> bool) (l : list A) :
  filter p (filter q l) = filter (fun a => q a && p a) l.
Proof.
  induction l as [|a l IH]; simpl; [reflexivity|].
  destruct (q a); simpl; [destruct (p a)|]; now rewrite IH.
Qed.

Lemma cleanup_fold_spec (this : AsciiBackground)
    (rest : list (string * Object3D)) :
  forall t, sameView this t ->
  sameView this (fold_left cleanupAetheryte rest t) /\
  loadedAetherytes (fold_left cleanupAetheryte rest t) =
    filter (fun e => negb (swept this rest e)) (loadedAetherytes t) /\
  distantStars (fold_left cleanupAetheryte rest t) =
    distantStars t ++
    map downgradeStar (filter (fun e => sweepDowngrades this (snd e)) rest).
Proof.
  induction rest as [|[k a] rest IH]; intros t Ht; cbn [fold_left].
  - split; [exact Ht|]. split.
    + symmetry. apply forallb_filter_id. now apply forallb_forall.
    + simpl. now rewrite app_nil_r.
  - destruct (cleanupAetheryte_spec t k a) as (Hv & Hl & Hs).
    assert (Ht' : sameView this (cleanupAetheryte t (k, a)))
      by (eapply sameView_trans; eassumption).
    destruct (IH _ Ht') as (IHv & IHl & IHs).
    split; [exact IHv|]. rewrite IHl, IHs, Hl, Hs.
    rewrite (sweepKeeps_sameView _ _ _ Ht), (sweepDowngrades_sameView _ _ _ Ht).
    split.
    + unfold swept. cbn [existsb fst snd]. destruct (sweepKeeps this a); simpl.
      * apply filter_ext. intro e. now rewrite andb_false_r.
      * unfold Map_delete. rewrite filter_filter. apply filter_ext.
        intro e. rewrite andb_true_r, negb_orb.
        now rewrite (String.eqb_sym k (fst e)).
    + cbn [filter snd]. destruct (sweepDowngrades this a); [|reflexivity].
      cbn [map]. now rewrite <- app_assoc.
Qed.

Lemma NoDup_keys_eq (m : list (string * Object3D)) (e r : string * Object3D) :
  NoDup (keysOf m) -> In e m -> In r m -> fst r = fst e -> r = e.
Proof.
  induction m as [|x m IH]; simpl; intros Hnd He Hr Hk; [contradiction|].
  inversion Hnd as [|? ? Hx Hm]; subst.
  destruct He as [->|He], Hr as [->|Hr]; auto.
  - exfalso. apply Hx. rewrite <- Hk. now apply in_map.
  - exfalso. apply Hx. rewrite Hk. now apply in_map.
Qed.

Lemma swept_all (this : AsciiBackground) (m : list (string * Object3D)) :
  NoDup (keysOf m) ->
  filter (fun e => negb (swept this m e)) m =
  filter (fun e => sweepKeeps this (snd e)) m.
Proof.
  intro Hnd. apply filter_ext_in. intros e He. unfold swept.
  destruct (sweepKeeps this (snd e)) eqn:Hk.
  - apply negb_true_iff. apply not_true_is_false. intro H.
    apply existsb_exists in H. destruct H as [r [Hr Hc]].
    apply andb_true_iff in Hc. destruct Hc as [Hc1 Hc2].
    apply String.eqb_eq in Hc1.
    rewrite (NoDup_keys_eq m e r Hnd He Hr Hc1), Hk in Hc2. discriminate.
  - apply negb_false_iff. apply existsb_exists. exists e.
    split; [assumption|]. now rewrite String.eqb_refl, Hk.
Qed.

(** The sweep in closed form, for a map with distinct keys. *)
Lemma cleanupDistantObjects_spec (this : AsciiBackground) :
  NoDup (keysOf (loadedAetherytes this)) ->
  sameView this (cleanupDistantObjects this) /\
  loadedAetherytes (cleanupDistantObjects this) =
    filter (fun e => sweepKeeps this (snd e)) (loadedAetherytes this) /\
  distantStars (cleanupDistantObjects this) =
    filter (keepStar this)
      (distantStars this ++
       map downgradeStar
         (filter (fun e => sweepDowngrades this (snd e))
                 (loadedAetherytes this))).
Proof.
  intro Hnd. unfold cleanupDistantObjects.
  destruct (cleanup_fold_spec this (loadedAetherytes this) this
              (sameView_refl this)) as (Hv & Hl & Hs).
  set (t1 := fold_left cleanupAetheryte (loadedAetherytes this) this) in *.
  set (removed := filter (fun s => negb (keepStar t1 s)) (distantStars t1)).
  assert (Hrem : forall l t,
            sameView t (fold_left (fun t s => scene_remove Star s t) l t) /\
            loadedAetherytes (fold_left (fun t s => scene_remove Star s t) l t)
              = loadedAetherytes t /\
            distantStars (fold_left (fun t s => scene_remove Star s t) l t)
              = distantStars t).
  { induction l as [|s l IH]; intro t; simpl.
    - split; [apply sameView_refl|tauto].
    - destruct (IH (scene_remove Star s t)) as (A & B & C).
      split; [|split].
      + eapply sameView_trans; [|exact A]. unfold sameView. simpl. tauto.
      + rewrite B. reflexivity.
      + rewrite C. reflexivity. }
  destruct (Hrem removed t1) as (Rv & Rl & Rs).
  set (t2 := fold_left (fun t s => scene_remove Star s t) removed t1) in *.
  assert (Hv2 : sameView this t2) by (eapply sameView_trans; eassumption).
  simpl. split; [|split].
  - unfold sameView in *. simpl. tauto.
  - rewrite Rl, Hl. now apply swept_all.
  - rewrite Rs, Hs. apply filter_ext. intro s.
    rewrite !keepStar_tooFar. now rewrite (tooFar_sameView _ _ _ Hv2).
Qed.


Lemma downgradeStar_data (this : AsciiBackground) (e : string * Object3D) :
  sweepDowngrades this (snd e) = true ->
  gridKey (userData (downgradeStar e)) = fst e /\
  originalPosition (userData (downgradeStar e)) =
    originalPosition (userData (snd e)).
Proof.
  unfold sweepDowngrades, beyondDetail, downgradeStar.
  destruct (originalPosition (userData (snd e))); simpl; [tauto|].
  rewrite andb_false_r. discriminate.
Qed.

Lemma downgraded_keys (this : AsciiBackground) (m : list (string * Object3D)) :
  starKeys (map downgradeStar
              (filter (fun e => sweepDowngrades this (snd e)) m)) =
  keysOf (filter (fun e => sweepDowngrades this (snd e)) m).
Proof.
  unfold starKeys, keysOf. rewrite map_map. apply map_ext_in.
  intros e He. apply filter_In in He.
  now apply (downgradeStar_data this).
Qed.

Lemma sweep_exclusive (this : AsciiBackground) (o : Object3D) :
  sweepKeeps this o = true -> sweepDowngrades this o = true -> False.
Proof.
  unfold sweepKeeps, sweepDowngrades.
  destruct (tooFar this o), (beyondDetail this o); discriminate.
Qed.

Lemma starKeys_filter (p : Object3D -> bool) (l : list Object3D) (k : string) :
  In k (starKeys (filter p l)) -> In k (starKeys l).
Proof.
  unfold starKeys. rewrite !in_map_iff. intros [s [Hs Hin]].
  apply filter_In in Hin. exists s. tauto.
Qed.

Lemma keysOf_filter (p : string * Object3D -> bool)
    (m : list (string * Object3D)) (k : string) :
  In k (keysOf (filter p m)) -> In k (keysOf m).
Proof.
  unfold keysOf. rewrite !in_map_iff. intros [e [He Hin]].
  apply filter_In in Hin. exists e. tauto.
Qed.

Lemma cleanupDistantObjects_Inv (this : AsciiBackground) :
  Inv this -> Inv (cleanupDistantObjects this).
Proof.
  intros [Hl Hs Hx Hp Hq].
  destruct (cleanupDistantObjects_spec this Hl) as (_ & El & Es).
  constructor; rewrite ?El, ?Es.
  - now apply distinct_after_filter.
  - apply distinct_after_filter. fold (starKeys (distantStars this ++
      map downgradeStar (filter (fun e => sweepDowngrades this (snd e))
                                (loadedAetherytes this)))).
    rewrite starKeys_app, downgraded_keys. apply NoDup_app.
    + assumption.
    + now apply distinct_after_filter.
    + intros k Hk Hk'. apply keysOf_filter in Hk'. now apply (Hx k).
  - intros k Hk Hk'. apply starKeys_filter in Hk'.
    rewrite starKeys_app, downgraded_keys, in_app_iff in Hk'.
    destruct Hk' as [Hk'|Hk'].
    + apply keysOf_filter in Hk. now apply (Hx k).
    + unfold keysOf in Hk, Hk'. apply in_map_iff in Hk, Hk'.
      destruct Hk as [e [He Hin]], Hk' as [e' [He' Hin']].
      apply filter_In in Hin, Hin'. destruct Hin as [Hin Hkeep].
      destruct Hin' as [Hin' Hdown].
      assert (e' = e) by (apply (NoDup_keys_eq _ e e' Hl); congruence).
      subst e'. now apply (sweep_exclusive this (snd e)).
  - intros k a Hin. apply filter_In in Hin. now apply (Hp k a).
  - intros s Hin. apply filter_In in Hin. destruct Hin as [Hin _].
    apply in_app_iff in Hin. destruct Hin as [Hin|Hin]; [now apply Hq|].
    apply in_map_iff in Hin. destruct Hin as [e [<- Hin]].
    apply filter_In in Hin. destruct Hin as [Hin Hd].
    destruct (downgradeStar_data this e Hd) as [_ ->].
    destruct e as [k a]. simpl.
    destruct (Hp k a Hin) as (orig & d & Ho & _). eauto.
Qed.

(** ** The update pass and the frame *)

Lemma js_div_Some (a b : Q) : ~ b == 0 -> js_div a b = Some (a / b).
Proof.
  intro H. unfold js_div. destruct (Qeq_bool b 0) eqn:E; [|reflexivity].
  apply Qeq_bool_eq in E. contradiction.
Qed.


(** A sweeping update is the candidate pass followed by the sweep. *)
Lemma update_sweeping (this this' : AsciiBackground) :
  updateProceduralAetherytes this = Some this' ->
  js_rem (frameCount this + 1) 10 = 0%Z ->
  exists c q,
    getGridPosition this (cam_position (camera this)) = Some c /\
    js_div (renderDistance this) (gridSize this) = Some q /\
    this' = cleanupDistantObjects
              (visitCells (set_frameCount this (frameCount this + 1))
                          c (Math_ceil q)).
Proof.
  unfold updateProceduralAetherytes. simpl. intros H Hrem.
  rewrite Hrem in H. simpl in H.
  change (getGridPosition (set_frameCount this (frameCount this + 1)))
    with (getGridPosition this) in H.
  destruct (getGridPosition this _) as [c|]; [|discriminate]. simpl in H.
  destruct (js_div _ _) as [q|]; [|discriminate]. simpl in H.
  injection H as <-. eauto.
Qed.

Lemma update_throttled (this : AsciiBackground) :
  js_rem (frameCount this + 1) 10 <> 0%Z ->
  updateProceduralAetherytes this =
    Some (set_frameCount this (frameCount this + 1)).
Proof.
  intro H. unfold updateProceduralAetherytes. simpl.
  apply Z.eqb_neq in H. now rewrite H.
Qed.

Lemma update_cases (this this' : AsciiBackground) :
  updateProceduralAetherytes this = Some this' ->
  this' = set_frameCount this (frameCount this + 1) \/
  exists c r,
    this' = cleanupDistantObjects
              (visitCells (set_frameCount this (frameCount this + 1)) c r).
Proof.
  intro H. destruct (Z.eq_dec (js_rem (frameCount this + 1) 10) 0) as [E|E].
  - right. destruct (update_sweeping _ _ H E) as (c & q & _ & _ & ->). eauto.
  - left. rewrite (update_throttled _ E) in H. congruence.
Qed.

Lemma update_Inv (this this' : AsciiBackground) :
  Inv this -> updateProceduralAetherytes this = Some this' -> Inv this'.
Proof.
  intros Hinv H.
  assert (Hinv0 : Inv (set_frameCount this (frameCount this + 1)))
    by (destruct Hinv; now constructor).
  destruct (update_cases _ _ H) as [->|(c & r & ->)]; [assumption|].
  now apply cleanupDistantObjects_Inv, visitCells_Inv.
Qed.


Lemma cleanupDistantObjects_sameView (this : AsciiBackground) :
  sameView this (cleanupDistantObjects this).
Proof.
  unfold cleanupDistantObjects.
  destruct (cleanup_fold_spec this (loadedAetherytes this) this
              (sameView_refl this)) as (Hv & _).
  set (t1 := fold_left cleanupAetheryte (loadedAetherytes this) this) in *.
  generalize (filter (fun s => negb (keepStar t1 s)) (distantStars t1)).
  intro removed.
  assert (Hrem : forall l t,
            sameView t (fold_left (fun t s => scene_remove Star s t) l t)).
  { induction l as [|s l IH]; intro t; simpl; [apply sameView_refl|].
    eapply sameView_trans; [|apply IH]. unfold sameView. simpl. tauto. }
  specialize (Hrem removed t1).
  eapply sameView_trans; [exact Hv|]. eapply sameView_trans; [exact Hrem|].
  unfold sameView. simpl. tauto.
Qed.

Lemma Settings_sameView (t t' : AsciiBackground) :
  sameView t t' -> Settings t -> Settings t'.
Proof.
  unfold sameView, Settings. intros (_ & -> & -> & -> & ->). tauto.
Qed.

Lemma update_Settings (this this' : AsciiBackground) :
  Settings this -> updateProceduralAetherytes this = Some this' ->
  Settings this'.
Proof.
  intros Hset H.
  destruct (update_cases _ _ H) as [->|(c & r & ->)]; [exact Hset|].
  eapply Settings_sameView; [apply cleanupDistantObjects_sameView|].
  eapply Settings_sameView; [apply visitCells_sameView|]. exact Hset.
Qed.

Lemma animateCrystal_data (c : Object3D) :
  originalPosition (userData (animateCrystal c)) =
    originalPosition (userData c) /\
  drift (userData (animateCrystal c)) = drift (userData c) /\
  gridKey (userData (animateCrystal c)) = gridKey (userData c).
Proof.
  unfold animateCrystal.
  destruct (drift (userData c)) eqn:Hd;
    destruct (originalPosition (userData c)) eqn:Ho; simpl; auto.
Qed.

Lemma animate_cases (cam : Camera) (this this' : AsciiBackground) :
  animate cam this = Some this' ->
  exists t,
    updateProceduralAetherytes (set_camera this cam) = Some t /\
    this' = animateAetherytes t.
Proof.
  unfold animate.
  destruct (updateProceduralAetherytes (set_camera this cam)) as [t|];
    simpl; intro H; [|discriminate].
  injection H as <-. eauto.
Qed.

Lemma animateAetherytes_keys (this : AsciiBackground) :
  keysOf (loadedAetherytes (animateAetherytes this)) =
  keysOf (loadedAetherytes this).
Proof.
  unfold keysOf. simpl. rewrite map_map. now apply map_ext.
Qed.

Lemma animateAetherytes_Inv (this : AsciiBackground) :
  Inv this -> Inv (animateAetherytes this).
Proof.
  intros [Hl Hs Hx Hp Hq].
  constructor; rewrite ?animateAetherytes_keys; try assumption.
  intros k a Hin. apply in_map_iff in Hin.
  destruct Hin as [[k' a'] [E Hin]]. simpl in E. injection E as <- <-.
  destruct (animateCrystal_data a') as (-> & -> & _). now apply (Hp k').
Qed.

Lemma new_Inv (frustum : Vector3 -> bool) : Inv (new_AsciiBackground frustum).
Proof.
  constructor; simpl; try constructor; intros; contradiction.
Qed.

Lemma new_Settings (frustum : Vector3 -> bool) :
  Settings (new_AsciiBackground frustum).
Proof. unfold Settings. simpl. tauto. Qed.

(** Every state of a run has a well-shaped active set and the constructor's
    settings. *)
Lemma reachable_Inv (this : AsciiBackground) :
  reachable this -> Inv this /\ Settings this.
Proof.
  induction 1 as [frustum|this cam _ [IHi IHs]|this this' _ [IHi IHs] H
                 |this _ [IHi IHs]].
  - split; [apply new_Inv|apply new_Settings].
  - split; [destruct IHi; now constructor|exact IHs].
  - split; [apply (update_Inv _ _ IHi H)|apply (update_Settings _ _ IHs H)].
  - split; [now apply animateAetherytes_Inv|exact IHs].
Qed.

(** A whole frame, and [init], stay within the reachable states. *)
Lemma reachable_frame (cam : Camera) (this this' : AsciiBackground) :
  reachable this -> animate cam this = Some this' -> reachable this'.
Proof.
  intros Hr H. destruct (animate_cases _ _ _ H) as (t & Hu & ->).
  apply reach_animate. eapply reach_update; [|exact Hu].
  now apply reach_move.
Qed.

Lemma reachable_init (frustum : Vector3 -> bool) (this : AsciiBackground) :
  init frustum = Some this -> reachable this.
Proof.
  intro H. eapply reach_update; [apply reach_new|exact H].
Qed.


(** ** Determinism of the placement *)

(** Claim C1.  The placement gate and the jitter function depend on the cell
    key only: evaluated in any two states of any runs, [shouldHaveAetheryte]
    and [gridToWorld] give equal results on the same key. *)
Theorem placement_deterministic (this1 this2 : AsciiBackground)
    (gridPos : GridPos) :
  reachable this1 -> reachable this2 ->
  shouldHaveAetheryte this1 gridPos = shouldHaveAetheryte this2 gridPos /\
  gridToWorld this1 gridPos = gridToWorld this2 gridPos.
Proof.
  intros H1 H2.
  destruct (reachable_Inv _ H1) as [_ (_ & _ & Hg1 & Hc1)].
  destruct (reachable_Inv _ H2) as [_ (_ & _ & Hg2 & Hc2)].
  unfold shouldHaveAetheryte, gridToWorld.
  now rewrite Hg1, Hg2, Hc1, Hc2.
Qed.

(** ** Throttling *)

(** Claim C5.  When the incremented frame counter is not a multiple of 10,
    [updateProceduralAetherytes] returns after counting the frame: the stars,
    the loaded objects and the scene are unchanged. *)
Theorem throttled_update_changes_nothing (this : AsciiBackground) :
  ~ (10 | frameCount this + 1)%Z ->
  exists this',
    updateProceduralAetherytes this = Some this' /\
    frameCount this' = (frameCount this + 1)%Z /\
    distantStars this' = distantStars this /\
    loadedAetherytes this' = loadedAetherytes this /\
    scene this' = scene this /\
    camera this' = camera this.
Proof.
  intro H. exists (set_frameCount this (frameCount this + 1)).
  split; [|simpl; tauto].
  apply update_throttled. unfold js_rem. intro E. apply H.
  apply Z.rem_divide; [discriminate|exact E].
Qed.

(** ** Mutual exclusion *)

(** Claim C2.  After any update of a state of a run, no key is both in
    [loadedAetherytes] and the key of a star of [distantStars]. *)
Theorem mutual_exclusion (this this' : AsciiBackground) (key : string) :
  reachable this ->
  updateProceduralAetherytes this = Some this' ->
  ~ (Map_has key (loadedAetherytes this') = true /\
     existsb (hasKey key) (distantStars this') = true).
Proof.
  intros Hr Hu [Hl Hs].
  destruct (reachable_Inv this' (reach_update _ _ Hr Hu)) as [[_ _ Hx _ _] _].
  apply Map_has_In in Hl. apply star_has_In in Hs. exact (Hx key Hl Hs).
Qed.

(** ** Totality *)


(** ** Round trip between cells and placements *)

Lemma seededRandom_range (x y z : Z) :
  0 <= seededRandom x y z /\ seededRandom x y z < 1.
Proof.
  unfold seededRandom, Math_floor.
  set (t := Math_sin _ * 43758.5453).
  pose proof (Qfloor_le t) as H1. pose proof (Qlt_floor t) as H2.
  rewrite inject_Z_plus in H2. change (inject_Z 1) with 1 in H2.
  split; lra.
Qed.

Lemma Qfloor_unique (v : Q) (n : Z) :
  inject_Z n <= v -> v < inject_Z n + 1 -> Qfloor v = n.
Proof.
  intros H1 H2.
  pose proof (Qfloor_le v) as F1. pose proof (Qlt_floor v) as F2.
  rewrite inject_Z_plus in F2. change (inject_Z 1) with 1 in F2.
  assert (A : inject_Z (Qfloor v) < inject_Z (n + 1))
    by (rewrite inject_Z_plus; change (inject_Z 1) with 1; lra).
  assert (B : inject_Z n < inject_Z (Qfloor v + 1))
    by (rewrite inject_Z_plus; change (inject_Z 1) with 1; lra).
  rewrite <- Zlt_Qlt in A, B. lia.
Qed.




(** ** Oscillation around the placement *)

Lemma within_refl (bound : Q) (p : Vector3) : 0 <= bound -> within bound p p.
Proof.
  intro H. unfold within. repeat split; apply Qabs_Qle_condition; lra.
Qed.

Lemma animateCrystal_within (c : Object3D) :
  (forall a, -1 <= Math_sin a <= 1) ->
  (exists orig, originalPosition (userData c) = Some orig /\
                within 8 (position c) orig) ->
  exists orig, originalPosition (userData (animateCrystal c)) = Some orig /\
               within 8 (position (animateCrystal c)) orig.
Proof.
  intros Hsin [orig [Ho Hw]]. exists orig. unfold animateCrystal.
  rewrite Ho. destruct (drift (userData c)) as [d|]; [|tauto].
  cbn [userData originalPosition position]. split; [reflexivity|].
  unfold within. cbn [vec_x vec_y vec_z].
  repeat split; apply Qabs_Qle_condition.
  - pose proof (Hsin ((time (userData c) + 0.05) * drift_x d * 100)). lra.
  - pose proof (Hsin ((time (userData c) + 0.05) * drift_y d * 100 + 1)). lra.
  - pose proof (Hsin ((time (userData c) + 0.05) * drift_z d * 100 + 2)). lra.
Qed.

Lemma visitCell_Anchored (t : AsciiBackground) (x y z : Z) :
  Anchored t -> Anchored (visitCell t x y z).
Proof.
  intros H key c.
  destruct (visitCell_cases t x y z)
    as [[-> _]|[(_ & _ & _ & -> & _)|(_ & _ & _ & _ & -> & _)]]; try apply H.
  intro Hin. apply in_app_iff in Hin.
  destruct Hin as [Hin|[Hin|[]]]; [now apply (H key c)|].
  injection Hin as <- <-. eexists. split; [reflexivity|].
  apply within_refl. lra.
Qed.

Lemma update_Anchored (this this' : AsciiBackground) :
  Inv this -> Anchored this ->
  updateProceduralAetherytes this = Some this' -> Anchored this'.
Proof.
  intros Hinv Ha H.
  destruct (update_cases _ _ H) as [->|(c & r & ->)]; [exact Ha|].
  set (t0 := set_frameCount this (frameCount this + 1)).
  assert (Hinv1 : Inv (visitCells t0 c r)).
  { apply visitCells_Inv. destruct Hinv. now constructor. }
  assert (Ha1 : Anchored (visitCells t0 c r)).
  { apply visitCells_ind; [|exact Ha].
    intros t x y z _. apply visitCell_Anchored. }
  destruct (cleanupDistantObjects_spec _ (inv_loaded _ Hinv1)) as (_ & El & _).
  intros key o Hin. rewrite El in Hin. apply filter_In in Hin.
  now apply (Ha1 key o).
Qed.

Lemma reachable_Anchored (this : AsciiBackground) :
  (forall a, -1 <= Math_sin a <= 1) -> reachable this -> Anchored this.
Proof.
  intros Hsin Hr. induction Hr as [frustum|this cam _ IH|this this' Hr IH H
                                  |this _ IH].
  - intros key c [].
  - exact IH.
  - destruct (reachable_Inv _ Hr) as [Hinv _].
    apply (update_Anchored _ _ Hinv IH H).
  - intros key c Hin. apply in_map_iff in Hin.
    destruct Hin as [[k' c'] [E Hin]]. simpl in E. injection E as <- <-.
    apply (animateCrystal_within c' Hsin). now apply (IH k').
Qed.

(** Claim C10.  With a sine bounded by 1, every loaded object of every state
    of a run carries its placement position and each coordinate of its
    position is within 8 units of it. *)
Theorem bounded_oscillation (this : AsciiBackground) (key : string)
    (crystal : Object3D) :
  (forall a, -1 <= Math_sin a <= 1) ->
  reachable this ->
  In (key, crystal) (loadedAetherytes this) ->
  exists orig,
    originalPosition (userData crystal) = Some orig /\
    within 8 (position crystal) orig.
Proof.
  intros Hsin Hr. apply (reachable_Anchored this Hsin Hr).
Qed.

(** ** What the sweep does with each loaded object *)

Lemma sweep_kept (this : AsciiBackground) (e : string * Object3D) :
  NoDup (keysOf (loadedAetherytes this)) ->
  In e (loadedAetherytes this) ->
  sweepKeeps this (snd e) = true ->
  In e (loadedAetherytes (cleanupDistantObjects this)).
Proof.
  intros Hnd Hin Hk.
  destruct (cleanupDistantObjects_spec this Hnd) as (_ & -> & _).
  apply filter_In. tauto.
Qed.

Lemma sweep_gone (this : AsciiBackground) (e : string * Object3D) :
  NoDup (keysOf (loadedAetherytes this)) ->
  In e (loadedAetherytes this) ->
  sweepKeeps this (snd e) = false ->
  ~ In (fst e) (keysOf (loadedAetherytes (cleanupDistantObjects this))).
Proof.
  intros Hnd Hin Hk.
  destruct (cleanupDistantObjects_spec this Hnd) as (_ & -> & _).
  unfold keysOf. rewrite in_map_iff. intros [e' [Hkey Hin']].
  apply filter_In in Hin'. destruct Hin' as [Hin' Hk'].
  rewrite (NoDup_keys_eq _ e e' Hnd Hin Hin' Hkey) in Hk'. congruence.
Qed.

Lemma sweep_downgraded (this : AsciiBackground) (e : string * Object3D) :
  NoDup (keysOf (loadedAetherytes this)) ->
  In e (loadedAetherytes this) ->
  sweepDowngrades this (snd e) = true ->
  In (downgradeStar e) (distantStars (cleanupDistantObjects this)).
Proof.
  intros Hnd Hin Hd.
  destruct (cleanupDistantObjects_spec this Hnd) as (_ & _ & ->).
  apply filter_In. split.
  - apply in_app_iff. right. apply in_map. apply filter_In. tauto.
  - rewrite keepStar_tooFar. unfold tooFar.
    destruct (downgradeStar_data this e Hd) as [_ ->].
    unfold sweepDowngrades, tooFar in Hd.
    apply andb_true_iff in Hd. tauto.
Qed.

Lemma sweep_removed (this : AsciiBackground) (e : string * Object3D) :
  Inv this ->
  In e (loadedAetherytes this) ->
  tooFar this (snd e) = true ->
  ~ In (fst e) (starKeys (distantStars (cleanupDistantObjects this))).
Proof.
  intros [Hl Hs Hx Hp] Hin Hfar.
  destruct (cleanupDistantObjects_spec this Hl) as (_ & _ & ->).
  intro H. apply starKeys_filter in H.
  rewrite starKeys_app, downgraded_keys, in_app_iff in H.
  destruct H as [H|H].
  - apply (Hx (fst e)); [|assumption]. now apply in_map.
  - unfold keysOf in H. apply in_map_iff in H. destruct H as [e' [Hkey Hin']].
    apply filter_In in Hin'. destruct Hin' as [Hin' Hd].
    rewrite (NoDup_keys_eq _ e e' Hl Hin Hin' Hkey) in Hd.
    unfold sweepDowngrades in Hd. rewrite Hfar in Hd. discriminate.
Qed.

(** The state the sweep of a sweeping update starts from. *)
Lemma update_sweep_state (this this' : AsciiBackground) :
  Inv this ->
  updateProceduralAetherytes this = Some this' ->
  (10 | frameCount this + 1)%Z ->
  exists t,
    this' = cleanupDistantObjects t /\ Inv t /\ sameView this t /\
    (forall e, In e (loadedAetherytes this) -> In e (loadedAetherytes t)).
Proof.
  intros Hinv H Hdiv.
  assert (E : js_rem (frameCount this + 1) 10 = 0%Z)
    by (apply Z.rem_divide; [discriminate|exact Hdiv]).
  destruct (update_sweeping _ _ H E) as (c & q & _ & _ & ->).
  set (t0 := set_frameCount this (frameCount this + 1)).
  exists (visitCells t0 c (Math_ceil q)). split; [reflexivity|].
  split; [|split].
  - apply visitCells_Inv. destruct Hinv. now constructor.
  - apply (sameView_trans _ t0); [|apply visitCells_sameView].
    unfold sameView. simpl. tauto.
  - intros e He. apply visitCells_ind; [|exact He].
    intros t x y z _. apply visitCell_loaded_mono.
Qed.


(** ** Hysteresis of the downgrade *)

Lemma tooFar_at (t : AsciiBackground) (o : Object3D) (orig : Vector3) :
  originalPosition (userData o) = Some orig ->
  tooFar t o =
    Qgtb (distanceTo (cam_position (camera t)) orig) (renderDistance t * 1.2).
Proof. unfold tooFar. now intros ->. Qed.

Lemma beyondDetail_at (t : AsciiBackground) (o : Object3D) (orig : Vector3) :
  originalPosition (userData o) = Some orig ->
  beyondDetail t o =
    Qgtb (distanceTo (cam_position (camera t)) orig) (detailDistance t * 1.2).
Proof. unfold beyondDetail. now intros ->. Qed.

(** Claim C3.  In a sweeping update of a state of a run, a loaded object
    whose placement is at distance [d] from the viewpoint is kept when
    [d <= detailDistance * 1.2], so in particular anywhere between
    [detailDistance] and [detailDistance * 1.2]; it leaves the loaded set only
    when [d] exceeds [detailDistance * 1.2], and then a star of its key is put
    at its placement unless [d] also exceeds [renderDistance * 1.2], in which
    case the cell is left with no star. *)
Theorem hysteresis (this this' : AsciiBackground) (key : string)
    (a : Object3D) (orig : Vector3) :
  reachable this ->
  updateProceduralAetherytes this = Some this' ->
  (10 | frameCount this + 1)%Z ->
  In (key, a) (loadedAetherytes this) ->
  originalPosition (userData a) = Some orig ->
  let d := distanceTo (cam_position (camera this)) orig in
  (d <= detailDistance this * 1.2 ->
     In (key, a) (loadedAetherytes this')) /\
  (detailDistance this * 1.2 < d ->
     ~ In key (keysOf (loadedAetherytes this'))) /\
  (detailDistance this * 1.2 < d -> d <= renderDistance this * 1.2 ->
     In (newStar key orig) (distantStars this')) /\
  (renderDistance this * 1.2 < d ->
     ~ In key (starKeys (distantStars this'))).
Proof.
  intros Hr Hu Hdiv Hin Ho d.
  destruct (reachable_Inv _ Hr) as [Hinv (Hrd & Hdd & _)].
  destruct (update_sweep_state _ _ Hinv Hu Hdiv) as (t & -> & Hinvt & Hv & Hmono).
  apply Hmono in Hin.
  pose proof (tooFar_sameView _ _ a Hv) as Ef.
  pose proof (beyondDetail_sameView _ _ a Hv) as Eb.
  rewrite (tooFar_at this a orig Ho) in Ef.
  rewrite (beyondDetail_at this a orig Ho) in Eb.
  fold d in Ef, Eb. rewrite Hrd in *. rewrite Hdd in *.
  pose proof (inv_loaded _ Hinvt) as Hnd.
  repeat split.
  - intro Hd. apply (sweep_kept t (key, a) Hnd Hin).
    unfold sweepKeeps. simpl. rewrite Ef, Eb.
    assert (Qgtb d (300 * 1.2) = false) as -> by (apply Qgtb_false; lra).
    assert (Qgtb d (150 * 1.2) = false) as -> by (now apply Qgtb_false).
    reflexivity.
  - intro Hd. apply (sweep_gone t (key, a) Hnd Hin).
    unfold sweepKeeps. simpl. rewrite Eb.
    assert (Qgtb d (150 * 1.2) = true) as -> by (now apply Qgtb_true).
    apply andb_false_r.
  - intros Hd Hd'.
    assert (Hdown : sweepDowngrades t a = true).
    { unfold sweepDowngrades. rewrite Ef, Eb.
      assert (Qgtb d (300 * 1.2) = false) as -> by (now apply Qgtb_false).
      assert (Qgtb d (150 * 1.2) = true) as -> by (now apply Qgtb_true).
      reflexivity. }
    pose proof (sweep_downgraded t (key, a) Hnd Hin Hdown) as H.
    unfold downgradeStar in H. simpl in H. now rewrite Ho in H.
  - intro Hd. apply (sweep_removed t (key, a) Hinvt Hin).
    simpl. rewrite Ef. now apply Qgtb_true.
Qed.

(** ** Removal beyond the render distance *)

(** Claim C4, amended.  After a sweeping update of a state of a run, that is
    when the incremented frame counter is a multiple of 10, every star and
    every loaded object carries its placement position, and the distance from
    the viewpoint to it does not exceed [renderDistance * 1.2]. *)
Theorem sweep_removes_far (this this' : AsciiBackground) (o : Object3D) :
  reachable this ->
  updateProceduralAetherytes this = Some this' ->
  (10 | frameCount this + 1)%Z ->
  In o (distantStars this') \/ In o (map snd (loadedAetherytes this')) ->
  exists orig,
    originalPosition (userData o) = Some orig /\
    distanceTo (cam_position (camera this')) orig
      <= renderDistance this' * 1.2.
Proof.
  intros Hr Hu Hdiv Hin.
  destruct (reachable_Inv _ Hr) as [Hinv _].
  destruct (reachable_Inv _ (reach_update _ _ Hr Hu)) as [Hinv' _].
  destruct (update_sweep_state _ _ Hinv Hu Hdiv) as (t & E & Hinvt & _ & _).
  destruct (cleanupDistantObjects_spec t (inv_loaded _ Hinvt))
    as (Hv & El & Es).
  rewrite <- E in Hv, El, Es.
  assert (Hnear : tooFar t o = false).
  { destruct Hin as [Hin|Hin].
    - rewrite Es in Hin. apply filter_In in Hin. destruct Hin as [_ Hk].
      rewrite keepStar_tooFar in Hk. now apply negb_true_iff.
    - apply in_map_iff in Hin. destruct Hin as [e [<- Hin]].
      rewrite El in Hin. apply filter_In in Hin. destruct Hin as [_ Hk].
      unfold sweepKeeps in Hk. apply andb_true_iff in Hk.
      now apply negb_true_iff. }
  assert (Hplaced : exists orig, originalPosition (userData o) = Some orig).
  { destruct Hin as [Hin|Hin].
    - now apply (inv_star_placed _ Hinv').
    - apply in_map_iff in Hin. destruct Hin as [[k a] [<- Hin]].
      destruct (inv_placed _ Hinv' k a Hin) as (orig & _ & Ho & _). eauto. }
  destruct Hplaced as [orig Ho]. exists orig. split; [assumption|].
  rewrite <- (tooFar_sameView _ _ o Hv), (tooFar_at _ o orig Ho) in Hnear.
  now apply Qgtb_false.
Qed.

(** ** The upgrade step *)



(** ** Cell keys *)

Lemma uint_noComma (d : Decimal.uint) :
  hasComma (NilEmpty.string_of_uint d) = false.
Proof. induction d; simpl; auto. Qed.

Lemma string_of_Z_noComma (n : Z) : hasComma (string_of_Z n) = false.
Proof.
  unfold string_of_Z, NilZero.string_of_int, NilZero.string_of_uint.
  destruct (Z.to_int n) as [d|d]; destruct d; simpl;
    auto using uint_noComma.
Qed.

Lemma string_of_Z_inj (n n' : Z) : string_of_Z n = string_of_Z n' -> n = n'.
Proof.
  unfold string_of_Z. intro H. apply DecimalZ.to_int_inj.
  assert (Hn : forall m, Z.to_int m <> Decimal.Pos Decimal.Nil /\
                         Z.to_int m <> Decimal.Neg Decimal.Nil).
  { intros [|p|p]; simpl; split; try discriminate;
      intro E; injection E; apply Unsigned.to_uint_nonnil. }
  assert (E : Some (Z.to_int n) = Some (Z.to_int n')).
  { rewrite <- (NilZero.isi (Z.to_int n)) by apply Hn.
    rewrite <- (NilZero.isi (Z.to_int n')) by apply Hn.
    now rewrite H. }
  now injection E.
Qed.

Lemma comma_split (s1 s2 r1 r2 : string) :
  hasComma s1 = false -> hasComma s2 = false ->
  (s1 ++ String "," r1)%string = (s2 ++ String "," r2)%string ->
  s1 = s2 /\ r1 = r2.
Proof.
  revert s2. induction s1 as [|c s1 IH]; intros [|c' s2]; simpl;
    intros H1 H2 E.
  - injection E as <-. auto.
  - injection E as <- _. discriminate.
  - injection E as -> _. discriminate.
  - injection E as <- E. apply orb_false_iff in H1, H2.
    destruct (IH s2 (proj2 H1) (proj2 H2) E) as [<- <-]. auto.
Qed.

(** Distinct cells have distinct keys. *)
Lemma cellKey_inj (x y z x' y' z' : Z) :
  cellKey x y z = cellKey x' y' z' -> x = x' /\ y = y' /\ z = z'.
Proof.
  unfold cellKey. simpl. intro E.
  apply comma_split in E; try apply string_of_Z_noComma.
  destruct E as [Ex E].
  apply comma_split in E; try apply string_of_Z_noComma.
  destruct E as [Ey Ez].
  auto using string_of_Z_inj.
Qed.

(** ** Where new keys come from *)

Lemma candidate_sameView (t t' : AsciiBackground) (x y z : Z) :
  sameView t t' -> candidate t' x y z = candidate t x y z.
Proof.
  intros (Hc & Hr & _ & Hg & Ha).
  unfold candidate, shouldHaveAetheryte, gridToWorld, isInViewFrustum.
  now rewrite Hc, Hr, Hg, Ha.
Qed.

Lemma withoutStar_key_incl (key k : string) (stars : list Object3D) :
  In k (starKeys (withoutStar key stars)) -> In k (starKeys stars).
Proof.
  unfold starKeys. rewrite !in_map_iff. intros [s [Hs Hin]].
  exists s. split; [assumption|]. now apply (withoutStar_incl key).
Qed.

(** A key that appears during a visit is the key of the visited cell, and
    that cell passed the three tests. *)
Lemma visitCell_new_keys (t : AsciiBackground) (x y z : Z) (k : string) :
  (In k (keysOf (loadedAetherytes (visitCell t x y z))) ->
   In k (keysOf (loadedAetherytes t)) \/
   (k = cellKey x y z /\ candidate t x y z = true)) /\
  (In k (starKeys (distantStars (visitCell t x y z))) ->
   In k (starKeys (distantStars t)) \/
   (k = cellKey x y z /\ candidate t x y z = true)).
Proof.
  destruct (visitCell_cases t x y z)
    as [[-> _]|[(Hc & _ & _ & -> & ->)|(Hc & _ & _ & _ & -> & ->)]].
  - tauto.
  - split.
    + rewrite keysOf_app, in_app_iff. simpl. intros [H|[H|[]]]; auto.
    + intro H. left. now apply (withoutStar_key_incl (cellKey x y z)).
  - split; [tauto|].
    rewrite starKeys_app, in_app_iff. simpl. intros [H|[H|[]]]; auto.
Qed.

Lemma visitCells_new_keys (this : AsciiBackground) (c : GridPos) (r : Z)
    (k : string) :
  (In k (keysOf (loadedAetherytes (visitCells this c r))) ->
   In k (keysOf (loadedAetherytes this)) \/
   exists x y z, inCube c r x y z /\ k = cellKey x y z /\
                 candidate this x y z = true) /\
  (In k (starKeys (distantStars (visitCells this c r))) ->
   In k (starKeys (distantStars this)) \/
   exists x y z, inCube c r x y z /\ k = cellKey x y z /\
                 candidate this x y z = true).
Proof.
  cut (sameView this (visitCells this c r) /\
       (In k (keysOf (loadedAetherytes (visitCells this c r))) ->
        In k (keysOf (loadedAetherytes this)) \/
        exists x y z, inCube c r x y z /\ k = cellKey x y z /\
                      candidate this x y z = true) /\
       (In k (starKeys (distantStars (visitCells this c r))) ->
        In k (starKeys (distantStars this)) \/
        exists x y z, inCube c r x y z /\ k = cellKey x y z /\
                      candidate this x y z = true)); [tauto|].
  apply visitCells_ind; [|split; [apply sameView_refl|tauto]].
  intros t x y z Hcube (Hv & Hl & Hs).
  destruct (visitCell_new_keys t x y z k) as [Hl' Hs'].
  rewrite (candidate_sameView _ _ x y z Hv) in Hl', Hs'.
  split; [|split].
  - eapply sameView_trans; [exact Hv|apply visitCell_sameView].
  - intro H. destruct (Hl' H) as [H'|[-> Hc]]; [auto|].
    right. exists x, y, z. auto.
  - intro H. destruct (Hs' H) as [H'|[-> Hc]]; [auto|].
    right. exists x, y, z. auto.
Qed.

(** ** Visibility gating *)

(** Claim C6, amended.  For a cell whose jittered position is outside the
    frustum, the candidate pass leaves the state as it is, and an update of a
    state of a run gives the cell no loaded object it did not have; a star of
    its key after the update was there before, or replaces the loaded object
    of the cell, downgraded by the sweep. *)
Theorem frustum_gating (this this' : AsciiBackground) (x y z : Z) :
  reachable this ->
  updateProceduralAetherytes this = Some this' ->
  isInViewFrustum this (gridToWorld this (mkGridPos x y z)) = false ->
  let key := cellKey x y z in
  (forall t, sameView this t -> visitCell t x y z = t) /\
  (In key (keysOf (loadedAetherytes this')) ->
   In key (keysOf (loadedAetherytes this))) /\
  (In key (starKeys (distantStars this')) ->
   In key (starKeys (distantStars this)) \/
   In key (keysOf (loadedAetherytes this))).
Proof.
  intros Hr Hu Hf key.
  assert (Hnc : candidate this x y z = false).
  { unfold candidate. rewrite Hf. apply andb_false_r. }
  split.
  { intros t Hv. apply visitCell_skip.
    now rewrite (candidate_sameView _ _ x y z Hv). }
  destruct (update_cases _ _ Hu) as [->|(c & r & ->)]; [simpl; tauto|].
  set (t0 := set_frameCount this (frameCount this + 1)).
  destruct (reachable_Inv _ Hr) as [Hinv _].
  assert (Hinv1 : Inv (visitCells t0 c r)).
  { apply visitCells_Inv. destruct Hinv. now constructor. }
  destruct (cleanupDistantObjects_spec _ (inv_loaded _ Hinv1))
    as (_ & -> & ->).
  destruct (visitCells_new_keys t0 c r key) as [Hl Hs].
  assert (Hfresh : ~ exists x' y' z', inCube c r x' y' z' /\
                     key = cellKey x' y' z' /\ candidate t0 x' y' z' = true).
  { intros (x' & y' & z' & _ & E & Hc).
    apply cellKey_inj in E. destruct E as (<- & <- & <-).
    change (candidate t0 x y z) with (candidate this x y z) in Hc.
    congruence. }
  split.
  - intro H. apply keysOf_filter in H.
    destruct (Hl H) as [H'|H']; [exact H'|contradiction].
  - intro H. apply starKeys_filter in H.
    rewrite starKeys_app, downgraded_keys, in_app_iff in H.
    destruct H as [H|H].
    + destruct (Hs H) as [H'|H']; [now left|contradiction].
    + apply keysOf_filter in H.
      destruct (Hl H) as [H'|H']; [now right|contradiction].
Qed.

(** ** The upgrade within a whole update *)

Lemma range_In (lo hi v : Z) : (lo <= v <= hi)%Z -> In v (range lo hi).
Proof.
  intro H. unfold range. apply in_map_iff.
  exists (Z.to_nat (v - lo)). split; [lia|]. apply in_seq. lia.
Qed.

(** A loop that meets the element [a] of its list: a property [R] kept by
    every iteration and turned into [Q] by the iteration on [a], [Q] being
    kept afterwards, ends in [Q]. *)
Lemma fold_left_meets {S A : Type} (f : S -> A -> S) (R Q : S -> Prop)
    (a : A) (l : list A) :
  In a l ->
  (forall t b, R t -> R (f t b)) ->
  (forall t, R t -> Q (f t a)) ->
  (forall t b, Q t -> Q (f t b)) ->
  forall s, R s -> Q (fold_left f l s).
Proof.
  intros Hin HR HRQ HQ.
  assert (Hkeep : forall l' s, Q s -> Q (fold_left f l' s)).
  { induction l' as [|b l' IH]; simpl; auto. }
  induction l as [|b l IH]; simpl; intros s Hs; [contradiction|].
  destruct Hin as [->|Hin].
  - apply Hkeep. now apply HRQ.
  - apply IH; [assumption|]. now apply HR.
Qed.

Lemma fold_left_keeps {S A : Type} (f : S -> A -> S) (R : S -> Prop)
    (l : list A) :
  (forall t b, R t -> R (f t b)) -> forall s, R s -> R (fold_left f l s).
Proof.
  intro HR. induction l as [|b l IH]; simpl; auto.
Qed.

(** The pass meets every cell of the cube. *)
Lemma visitCells_meets (R Q : AsciiBackground -> Prop)
    (this : AsciiBackground) (c : GridPos) (r : Z) (x y z : Z) :
  inCube c r x y z ->
  (forall t x' y' z', R t -> R (visitCell t x' y' z')) ->
  (forall t, R t -> Q (visitCell t x y z)) ->
  (forall t x' y' z', Q t -> Q (visitCell t x' y' z')) ->
  R this -> Q (visitCells this c r).
Proof.
  intros (Hx & Hy & Hz) HR HRQ HQ. unfold visitCells.
  apply (fold_left_meets _ R Q x); [now apply range_In| | |].
  - intros t x' Ht. apply fold_left_keeps; [|exact Ht].
    intros t' y' Ht'. apply fold_left_keeps; [|exact Ht'].
    intros t'' z'. apply HR.
  - intros t Ht.
    apply (fold_left_meets _ R Q y); [now apply range_In| | | |exact Ht].
    + intros t' y' Ht'. apply fold_left_keeps; [|exact Ht'].
      intros t'' z'. apply HR.
    + intros t' Ht'.
      apply (fold_left_meets _ R Q z); [now apply range_In| | | |exact Ht'];
        auto.
    + intros t' y' Ht'. apply fold_left_keeps; [|exact Ht'].
      intros t'' z'. apply HQ.
  - intros t x' Ht. apply fold_left_keeps; [|exact Ht].
    intros t' y' Ht'. apply fold_left_keeps; [|exact Ht'].
    intros t'' z'. apply HQ.
Qed.

(** Over a whole sweeping update of a state of a run: a cell of the cube
    that passes the three tests below [detailDistance] and was not loaded is
    loaded afterwards, with its placement as stored position, and has no
    star. *)
Lemma upgrade_in_update (this this' : AsciiBackground) (c : GridPos) (q : Q)
    (x y z : Z) :
  reachable this ->
  updateProceduralAetherytes this = Some this' ->
  (10 | frameCount this + 1)%Z ->
  getGridPosition this (cam_position (camera this)) = Some c ->
  js_div (renderDistance this) (gridSize this) = Some q ->
  inCube c (Math_ceil q) x y z ->
  candidate this x y z = true ->
  cellDistance this x y z < detailDistance this ->
  ~ In (cellKey x y z) (keysOf (loadedAetherytes this)) ->
  (exists a, In (cellKey x y z, a) (loadedAetherytes this') /\
             originalPosition (userData a)
               = Some (gridToWorld this (mkGridPos x y z))) /\
  ~ In (cellKey x y z) (starKeys (distantStars this')).
Proof.
  intros Hr Hu Hdiv Hc Hq Hcube Hcand Hd Hfresh.
  set (key := cellKey x y z) in *.
  set (worldPos := gridToWorld this (mkGridPos x y z)) in *.
  destruct (reachable_Inv _ Hr) as [Hinv (Hrd & Hdd & _)].
  assert (E : js_rem (frameCount this + 1) 10 = 0%Z)
    by (apply Z.rem_divide; [discriminate|exact Hdiv]).
  destruct (update_sweeping _ _ Hu E) as (c' & q' & Hc' & Hq' & ->).
  rewrite Hc in Hc'. injection Hc' as <-.
  rewrite Hq in Hq'. injection Hq' as <-.
  set (t0 := set_frameCount this (frameCount this + 1)).
  set (Q := fun t => sameView this t /\
              exists a, In (key, a) (loadedAetherytes t) /\
                        originalPosition (userData a) = Some worldPos).
  set (R := fun t => sameView this t /\
              ((exists a, In (key, a) (loadedAetherytes t) /\
                          originalPosition (userData a) = Some worldPos) \/
               ~ In key (keysOf (loadedAetherytes t)))).
  assert (HQ : forall t x' y' z', Q t -> Q (visitCell t x' y' z')).
  { intros t x' y' z' [Hv (a & Hin & Ho)]. split.
    - eapply sameView_trans; [exact Hv|apply visitCell_sameView].
    - exists a. split; [now apply visitCell_loaded_mono|exact Ho]. }
  assert (Hsame : forall t, sameView this t ->
            gridToWorld t (mkGridPos x y z) = worldPos).
  { intros t (_ & _ & _ & Hg & _). unfold worldPos, gridToWorld.
    now rewrite Hg. }
  assert (HR : forall t x' y' z', R t -> R (visitCell t x' y' z')).
  { intros t x' y' z' [Hv [Hl|Hn]].
    - destruct (HQ t x' y' z' (conj Hv Hl)) as [Hv' Hl']. split; auto.
    - split; [eapply sameView_trans; [exact Hv|apply visitCell_sameView]|].
      destruct (visitCell_cases t x' y' z')
        as [[-> _]|[(_ & _ & _ & El & _)|(_ & _ & _ & _ & -> & _)]]; auto.
      rewrite El.
      destruct (string_dec (cellKey x' y' z') key) as [Ek|Ek].
      + left. destruct (cellKey_inj _ _ _ _ _ _ Ek) as (-> & -> & ->).
        eexists. split; [apply in_app_iff; right; left; reflexivity|].
        simpl. f_equal. now apply Hsame.
      + right. rewrite keysOf_app, in_app_iff. simpl.
        intros [H|[H|[]]]; [now apply Hn|now apply Ek]. }
  assert (HRQ : forall t, R t -> Q (visitCell t x y z)).
  { intros t [Hv [Hl|Hn]]; [now apply HQ|].
    split; [eapply sameView_trans; [exact Hv|apply visitCell_sameView]|].
    destruct (visitCell_cases t x y z)
      as [[_ [Hno|[[_ Hhas]|[Hge _]]]]
         |[(_ & _ & _ & El & _)|(_ & Hge & _)]].
    - rewrite (candidate_sameView _ _ x y z Hv) in Hno. congruence.
    - apply Map_has_In in Hhas. contradiction.
    - exfalso. unfold cellDistance in *. rewrite (Hsame t Hv) in Hge.
      destruct Hv as (Hcam & _ & Hdet & _). rewrite Hcam, Hdet in Hge.
      apply (Qlt_not_le _ _ Hd Hge).
    - rewrite El. eexists.
      split; [apply in_app_iff; right; left; reflexivity|].
      simpl. f_equal. now apply Hsame.
    - exfalso. unfold cellDistance in *. rewrite (Hsame t Hv) in Hge.
      destruct Hv as (Hcam & _ & Hdet & _). rewrite Hcam, Hdet in Hge.
      apply (Qlt_not_le _ _ Hd Hge). }
  assert (Hv0 : sameView this t0) by (unfold sameView; simpl; tauto).
  destruct (visitCells_meets R Q t0 c (Math_ceil q) x y z Hcube HR HRQ HQ)
    as [Hv (a & Hin & Ho)].
  { split; [exact Hv0|]. right. exact Hfresh. }
  assert (Hinv1 : Inv (visitCells t0 c (Math_ceil q))).
  { apply visitCells_Inv. destruct Hinv. now constructor. }
  assert (Hkeep : sweepKeeps (visitCells t0 c (Math_ceil q)) a = true).
  { unfold sweepKeeps.
    rewrite (tooFar_sameView _ _ a Hv), (beyondDetail_sameView _ _ a Hv).
    rewrite (tooFar_at this a worldPos Ho), (beyondDetail_at this a worldPos Ho).
    unfold cellDistance in Hd. fold worldPos in Hd.
    rewrite Hrd, Hdd in *.
    assert (Qgtb (distanceTo (cam_position (camera this)) worldPos)
                 (300 * 1.2) = false) as -> by (apply Qgtb_false; lra).
    assert (Qgtb (distanceTo (cam_position (camera this)) worldPos)
                 (150 * 1.2) = false) as -> by (apply Qgtb_false; lra).
    reflexivity. }
  pose proof (sweep_kept _ (key, a) (inv_loaded _ Hinv1) Hin Hkeep) as Hin'.
  split; [eauto|].
  apply (inv_exclusive _ (cleanupDistantObjects_Inv _ Hinv1)).
  unfold keysOf. apply in_map_iff. exists (key, a). auto.
Qed.

End Properties.

(** * Runs on the stand-in host *)

Lemma Qsquare_nonneg (q : Q) : 0 <= q * q.
Proof.
  destruct (Qlt_le_dec q 0) as [H|H].
  - assert (E : q * q == (- q) * (- q)) by ring. rewrite E.
    apply Qmult_le_0_compat; lra.
  - now apply Qmult_le_0_compat.
Qed.

Lemma bhaskara_bound (u : Q) :
  0 <= u -> u <= Host.pi_approx ->
  0 <= 16 * u * (Host.pi_approx - u)
       / (5 * Host.pi_approx * Host.pi_approx - 4 * u * (Host.pi_approx - u))
    <= 1.
Proof.
  intros H0 H1. unfold Host.pi_approx in *.
  assert (Hw : 0 <= u * ((355 # 113) - u))
    by (apply Qmult_le_0_compat; lra).
  assert (Hq : 4 * (u * ((355 # 113) - u)) <= (355 # 113) * (355 # 113)).
  { pose proof (Qsquare_nonneg (2 * u - (355 # 113))) as S. lra. }
  assert (Hd : 0 < 5 * (355 # 113) * (355 # 113) - 4 * u * ((355 # 113) - u))
    by lra.
  split.
  - apply Qle_shift_div_l; [exact Hd|]. lra.
  - apply Qle_shift_div_r; [exact Hd|]. lra.
Qed.

(** The stand-in sine stays within [-1, 1]. *)
Lemma sin_approx_bounded (a : Q) : -1 <= Host.sin_approx a <= 1.
Proof.
  unfold Host.sin_approx.
  set (a' := inject_Z (Qfloor (a * 1000000)) / 1000000).
  set (r := Qred _).
  assert (Hr : 0 <= r /\ r < 2 * Host.pi_approx).
  { unfold r. rewrite Qred_correct.
    pose proof (Qfloor_le (a' / (2 * Host.pi_approx))) as H1.
    pose proof (Qlt_floor (a' / (2 * Host.pi_approx))) as H2.
    rewrite inject_Z_plus in H2. change (inject_Z 1) with 1 in H2.
    set (k := inject_Z (Qfloor (a' / (2 * Host.pi_approx)))) in *.
    assert (E : a' == a' / (2 * Host.pi_approx) * (2 * Host.pi_approx))
      by (unfold Host.pi_approx; field).
    unfold Host.pi_approx in *. split; nra. }
  destruct (Qle_bool r Host.pi_approx) eqn:Hc.
  - apply Qle_bool_iff in Hc. rewrite Qred_correct.
    destruct (bhaskara_bound r (proj1 Hr) Hc). split; lra.
  - assert (Hc' : Host.pi_approx < r).
    { apply Qnot_le_lt. intro L. apply Qle_bool_iff in L. congruence. }
    rewrite Qred_correct.
    destruct (bhaskara_bound (r - Host.pi_approx));
      [lra|unfold Host.pi_approx in *; lra|].
    split; lra.
Qed.

Lemma reachable_run (cams : list Camera) (this this' : AsciiBackground) :
  reachable (host := Host.approx) this ->
  Host.run cams this = Some this' ->
  reachable (host := Host.approx) this'.
Proof.
  revert this. induction cams as [|cam cams IH]; simpl; intros this Hr H.
  - now injection H as <-.
  - destruct (animate (host := Host.approx) cam this) as [t|] eqn:E;
      [|discriminate].
    simpl in H. apply (IH t); [|exact H].
    apply (reachable_frame cam this t Hr E).
Qed.

Lemma loaded_page_reachable : reachable (host := Host.approx) Host.loaded_page.
Proof.
  apply (reachable_init (containsPoint (Host.lookDownZ Host.home))).
  vm_compute. reflexivity.
Qed.

Lemma first_sweep_reachable : reachable (host := Host.approx) Host.first_sweep.
Proof.
  apply (reachable_run (repeat (Host.lookDownZ Host.home) 9) Host.loaded_page);
    [apply loaded_page_reachable|].
  vm_compute. reflexivity.
Qed.

Lemma flown_away_reachable : reachable (host := Host.approx) Host.flown_away.
Proof. apply reach_move, first_sweep_reachable. Qed.

Lemma second_sweep_due_reachable :
  reachable (host := Host.approx) Host.second_sweep_due.
Proof.
  destruct (Host.run (repeat Host.turned 9) Host.first_sweep) as [t|] eqn:E;
    [|vm_compute in E; discriminate].
  assert (Ht : reachable (host := Host.approx) t)
    by (apply (reachable_run _ _ _ first_sweep_reachable E)).
  replace Host.second_sweep_due with (set_camera t Host.turned);
    [now apply reach_move|].
  vm_compute in E. injection E as <-. vm_compute. reflexivity.
Qed.

Lemma second_sweep_update :
  updateProceduralAetherytes (host := Host.approx) Host.second_sweep_due =
  Some Host.second_sweep.
Proof. vm_compute. reflexivity. Qed.

(** ** The statements at concrete states *)

(** The gate and the jitter of the cell (1, -2, 3), on the page as loaded and
    after the first sweep. *)
Lemma placement_deterministic_witness :
  shouldHaveAetheryte (host := Host.approx) Host.loaded_page (mkGridPos 1 (-2) 3)
  = shouldHaveAetheryte (host := Host.approx) Host.first_sweep
      (mkGridPos 1 (-2) 3) /\
  gridToWorld (host := Host.approx) Host.loaded_page (mkGridPos 1 (-2) 3)
  = gridToWorld (host := Host.approx) Host.first_sweep (mkGridPos 1 (-2) 3).
Proof.
  apply (placement_deterministic (host := Host.approx)
           Host.loaded_page Host.first_sweep (mkGridPos 1 (-2) 3)).
  - apply loaded_page_reachable.
  - apply first_sweep_reachable.
Defined.

(** After the second sweep the cell (0, 0, 0) is not in both sets. *)
Lemma mutual_exclusion_witness :
  ~ (Map_has "0,0,0"%string (loadedAetherytes Host.second_sweep) = true /\
     existsb (hasKey "0,0,0"%string) (distantStars Host.second_sweep) = true).
Proof.
  apply (mutual_exclusion (host := Host.approx)
           Host.second_sweep_due Host.second_sweep "0,0,0"%string).
  - apply second_sweep_due_reachable.
  - apply second_sweep_update.
Defined.

(** The second sweep finds the loaded object of the cell (0, 0, 0) at distance
    180.9, between 180 and 360: its star is among the stars afterwards. *)
Lemma hysteresis_witness :
  In (newStar "0,0,0"%string Host.placement) (distantStars Host.second_sweep).
Proof.
  apply (hysteresis (host := Host.approx)
           Host.second_sweep_due Host.second_sweep "0,0,0"%string
           Host.crystal_due Host.placement).
  - apply second_sweep_due_reachable.
  - apply second_sweep_update.
  - exists 2%Z. reflexivity.
  - left. reflexivity.
  - reflexivity.
  - vm_compute. reflexivity.
  - vm_compute. discriminate.
Defined.

(** After the second sweep the star of the cell (0, 0, 0) is within 360 of the
    viewpoint. *)
Lemma sweep_removes_far_witness :
  exists orig,
    originalPosition (userData (newStar "0,0,0"%string Host.placement)) = Some orig /\
    distanceTo (host := Host.approx)
      (cam_position (camera Host.second_sweep)) orig
      <= renderDistance Host.second_sweep * 1.2.
Proof.
  apply (sweep_removes_far (host := Host.approx)
           Host.second_sweep_due Host.second_sweep).
  - apply second_sweep_due_reachable.
  - apply second_sweep_update.
  - exists 2%Z. reflexivity.
  - left. apply (nth_error_In _ 26). vm_compute. reflexivity.
Defined.

(** The update after the first sweep is the eleventh: it only counts. *)
Lemma throttled_update_changes_nothing_witness :
  exists this',
    updateProceduralAetherytes (host := Host.approx) Host.first_sweep
      = Some this' /\
    frameCount this' = (frameCount Host.first_sweep + 1)%Z /\
    distantStars this' = distantStars Host.first_sweep /\
    loadedAetherytes this' = loadedAetherytes Host.first_sweep /\
    scene this' = scene Host.first_sweep /\
    camera this' = camera Host.first_sweep.
Proof.
  apply (throttled_update_changes_nothing (host := Host.approx)
           Host.first_sweep).
  intros [k Hk]. change (frameCount Host.first_sweep) with 10%Z in Hk. lia.
Defined.

(** The cell (0, 0, 0) is behind the turned camera: the second sweep gives it
    a star only because it was loaded. *)
Lemma frustum_gating_witness :
  isInViewFrustum Host.second_sweep_due
    (gridToWorld (host := Host.approx) Host.second_sweep_due
       (mkGridPos 0 0 0)) = false /\
  In (cellKey 0 0 0) (starKeys (distantStars Host.second_sweep)) /\
  (In (cellKey 0 0 0) (starKeys (distantStars Host.second_sweep_due)) \/
   In (cellKey 0 0 0) (keysOf (loadedAetherytes Host.second_sweep_due))).
Proof.
  assert (Hf : isInViewFrustum Host.second_sweep_due
                 (gridToWorld (host := Host.approx) Host.second_sweep_due
                    (mkGridPos 0 0 0)) = false)
    by (vm_compute; reflexivity).
  assert (Hafter : In (cellKey 0 0 0)
                      (starKeys (distantStars Host.second_sweep)))
    by (apply star_has_In; vm_compute; reflexivity).
  split; [exact Hf|]. split; [exact Hafter|].
  exact (proj2 (proj2 (frustum_gating (host := Host.approx)
                         Host.second_sweep_due Host.second_sweep 0 0 0
                         second_sweep_due_reachable second_sweep_update Hf))
           Hafter).
Defined.




(** Ten frames after it was loaded, the object of the cell (0, 0, 0) is
    within 8 of its placement. *)
Lemma bounded_oscillation_witness :
  exists orig,
    originalPosition (userData Host.crystal_due) = Some orig /\
    within 8 (position Host.crystal_due) orig.
Proof.
  apply (bounded_oscillation (host := Host.approx)
           Host.second_sweep_due "0,0,0"%string Host.crystal_due).
  - apply sin_approx_bounded.
  - apply second_sweep_due_reachable.
  - left. reflexivity.
Defined.

(** ** Where the statements of the specification fail *)

(** Claim C4 as stated fails.  After the first sweep the cell (0, 0, 0) is
    loaded at (-10, -10, -10).  With the camera at (0, 5, 420) the next update
    is the eleventh: it returns after counting the frame, and the object
    stays although its placement is 430.377 away, beyond 360. *)
Lemma sweeps_every_tick_counterexample :
  ~ (forall (host : Math) (this this' : AsciiBackground) (o : Object3D)
            (orig : Vector3),
       reachable this ->
       updateProceduralAetherytes this = Some this' ->
       In o (distantStars this') \/ In o (map snd (loadedAetherytes this')) ->
       originalPosition (userData o) = Some orig ->
       distanceTo (cam_position (camera this')) orig
         <= renderDistance this' * 1.2).
Proof.
  intro H.
  assert (Hfar : distanceTo (host := Host.approx)
                   (cam_position
                      (camera (set_frameCount Host.flown_away 11)))
                   Host.placement
                 <= renderDistance (set_frameCount Host.flown_away 11) * 1.2).
  { apply (H Host.approx Host.flown_away
             (set_frameCount Host.flown_away 11) Host.crystal Host.placement).
    - apply flown_away_reachable.
    - reflexivity.
    - right. left. reflexivity.
    - reflexivity. }
  vm_compute in Hfar. apply Hfar. reflexivity.
Qed.

(** What the second sweep does with the cell (0, 0, 0): the cell is a
    candidate of the pass, passes the gate and the distance test, lies
    outside the frustum and has no star; after the update it has one. *)
Lemma downgrade_behind_camera :
  getGridPosition Host.second_sweep_due
    (cam_position (camera Host.second_sweep_due)) = Some (mkGridPos 0 0 2) /\
  js_div (renderDistance Host.second_sweep_due)
         (gridSize Host.second_sweep_due) = Some (300 / 100) /\
  inCube (mkGridPos 0 0 2) (Math_ceil (300 / 100)) 0 0 0 /\
  shouldHaveAetheryte (host := Host.approx) Host.second_sweep_due
    (mkGridPos 0 0 0) = true /\
  cellDistance (host := Host.approx) Host.second_sweep_due 0 0 0
    <= renderDistance Host.second_sweep_due /\
  isInViewFrustum Host.second_sweep_due
    (gridToWorld (host := Host.approx) Host.second_sweep_due
       (mkGridPos 0 0 0)) = false /\
  ~ In (cellKey 0 0 0) (starKeys (distantStars Host.second_sweep_due)) /\
  In (cellKey 0 0 0) (starKeys (distantStars Host.second_sweep)).
Proof.
  split; [vm_compute; reflexivity|].
  split; [vm_compute; reflexivity|].
  split.
  { replace (Math_ceil (300 / 100)) with 3%Z by (vm_compute; reflexivity).
    unfold inCube. simpl. lia. }
  split; [vm_compute; reflexivity|].
  split; [vm_compute; discriminate|].
  split; [vm_compute; reflexivity|].
  split.
  - apply star_has_false. vm_compute. reflexivity.
  - apply star_has_In. vm_compute. reflexivity.
Qed.

(** Claim C6 as stated fails.  When the second sweep is due the cell
    (0, 0, 0) is loaded, 180.9 away and behind the camera.  The update skips
    it in the candidate pass and then downgrades it: a star is created for a
    cell outside the frustum. *)
Lemma never_outside_frustum_counterexample :
  ~ (forall (host : Math) (this this' : AsciiBackground) (c : GridPos) (q : Q)
            (x y z : Z),
       reachable this ->
       updateProceduralAetherytes this = Some this' ->
       getGridPosition this (cam_position (camera this)) = Some c ->
       js_div (renderDistance this) (gridSize this) = Some q ->
       inCube c (Math_ceil q) x y z ->
       isInViewFrustum this (gridToWorld this (mkGridPos x y z)) = false ->
       (In (cellKey x y z) (keysOf (loadedAetherytes this')) ->
        In (cellKey x y z) (keysOf (loadedAetherytes this))) /\
       (In (cellKey x y z) (starKeys (distantStars this')) ->
        In (cellKey x y z) (starKeys (distantStars this)))).
Proof.
  intro H.
  destruct downgrade_behind_camera
    as (Hc & Hq & Hcube & _ & _ & Hf & Hbefore & Hafter).
  destruct (H Host.approx Host.second_sweep_due Host.second_sweep
              (mkGridPos 0 0 2) (300 / 100) 0%Z 0%Z 0%Z
              second_sweep_due_reachable second_sweep_update
              Hc Hq Hcube Hf) as [_ Hstars].
  apply Hbefore, Hstars, Hafter.
Qed.

(** * Further properties of the generator *)

Section Further.

Context {host : Math}.

(** ** Every object stands for a gated cell *)

Lemma placedAt_sameView (t t' : AsciiBackground) (key : string)
    (o : Object3D) :
  sameView t t' -> placedAt t key o -> placedAt t' key o.
Proof.
  intros (_ & _ & _ & Hg & Ha) (Hk & x & y & z & E & Hgate & Ho).
  split; [exact Hk|]. exists x, y, z.
  unfold shouldHaveAetheryte, gridToWorld in *. rewrite Hg, Ha. auto.
Qed.

Lemma Placed_sameView (t t' : AsciiBackground) :
  sameView t t' ->
  loadedAetherytes t' = loadedAetherytes t ->
  distantStars t' = distantStars t ->
  Placed t -> Placed t'.
Proof.
  intros Hv El Es [Hl Hs]. split.
  - intros k a Hin. rewrite El in Hin.
    apply (placedAt_sameView t t' k a Hv). now apply Hl.
  - intros s Hin. rewrite Es in Hin.
    apply (placedAt_sameView t t' _ s Hv). now apply Hs.
Qed.

Lemma visitCell_Placed (t : AsciiBackground) (x y z : Z) :
  Placed t -> Placed (visitCell t x y z).
Proof.
  intros [Hl Hs].
  pose proof (visitCell_sameView t x y z) as Hv.
  destruct (visitCell_cases t x y z)
    as [[E _]|[(Hc & _ & _ & El & Es)|(Hc & _ & _ & _ & El & Es)]].
  - rewrite E. now split.
  - apply candidate_true in Hc. destruct Hc as (Hg & _).
    split.
    + intros k a Hin. rewrite El in Hin. apply in_app_iff in Hin.
      apply (placedAt_sameView t _ k a Hv).
      destruct Hin as [Hin|[Hin|[]]]; [now apply Hl|].
      injection Hin as <- <-. split; [reflexivity|].
      exists x, y, z. auto.
    + intros s Hin. rewrite Es in Hin. apply withoutStar_incl in Hin.
      apply (placedAt_sameView t _ _ s Hv). now apply Hs.
  - apply candidate_true in Hc. destruct Hc as (Hg & _).
    split.
    + intros k a Hin. rewrite El in Hin.
      apply (placedAt_sameView t _ k a Hv). now apply Hl.
    + intros s Hin. rewrite Es in Hin. apply in_app_iff in Hin.
      apply (placedAt_sameView t _ _ s Hv).
      destruct Hin as [Hin|[<-|[]]]; [now apply Hs|].
      split; [reflexivity|]. exists x, y, z. auto.
Qed.

Lemma visitCells_Placed (t : AsciiBackground) (c : GridPos) (r : Z) :
  Placed t -> Placed (visitCells t c r).
Proof.
  intro H. apply visitCells_ind; [|exact H].
  intros t' x y z _. apply visitCell_Placed.
Qed.

Lemma cleanupDistantObjects_Placed (t : AsciiBackground) :
  Inv t -> Placed t -> Placed (cleanupDistantObjects t).
Proof.
  intros Hinv [Hl Hs].
  destruct (cleanupDistantObjects_spec t (inv_loaded _ Hinv)) as (Hv & El & Es).
  split.
  - intros k a Hin. rewrite El in Hin. apply filter_In in Hin.
    apply (placedAt_sameView t _ k a Hv). now apply Hl.
  - intros s Hin. rewrite Es in Hin. apply filter_In in Hin.
    destruct Hin as [Hin _]. apply in_app_iff in Hin.
    apply (placedAt_sameView t _ _ s Hv).
    destruct Hin as [Hin|Hin]; [now apply Hs|].
    apply in_map_iff in Hin. destruct Hin as [[k a] [<- Hin]].
    apply filter_In in Hin. destruct Hin as [Hin Hd].
    destruct (downgradeStar_data t (k, a) Hd) as [Ek Eo].
    destruct (Hl k a Hin) as (_ & x & y & z & E & Hg & Ho).
    simpl in Ek, Eo. split; [reflexivity|].
    exists x, y, z. rewrite Ek, Eo. auto.
Qed.

Lemma update_Placed (this this' : AsciiBackground) :
  Inv this -> Placed this ->
  updateProceduralAetherytes this = Some this' -> Placed this'.
Proof.
  intros Hinv Hp H.
  set (t0 := set_frameCount this (frameCount this + 1)).
  assert (Hp0 : Placed t0) by exact Hp.
  assert (Hinv0 : Inv t0) by (destruct Hinv; now constructor).
  destruct (update_cases _ _ H) as [->|(c & r & ->)]; [exact Hp0|].
  apply cleanupDistantObjects_Placed; [now apply visitCells_Inv|].
  now apply visitCells_Placed.
Qed.

Lemma animateAetherytes_Placed (this : AsciiBackground) :
  Placed this -> Placed (animateAetherytes this).
Proof.
  intros [Hl Hs]. split; [|exact Hs].
  intros k a Hin. apply in_map_iff in Hin.
  destruct Hin as [[k' a'] [E Hin]]. simpl in E. injection E as <- <-.
  destruct (Hl k' a' Hin) as (Hk & x & y & z & E & Hg & Ho).
  destruct (animateCrystal_data a') as (Eo & _ & Ek).
  split; [now rewrite Ek|]. exists x, y, z. rewrite Eo. auto.
Qed.

Lemma reachable_Placed (this : AsciiBackground) :
  reachable this -> Placed this.
Proof.
  induction 1 as [frustum|this cam _ IH|this this' Hr IH H|this _ IH].
  - split; intros; contradiction.
  - exact IH.
  - destruct (reachable_Inv _ Hr) as [Hinv _].
    apply (update_Placed _ _ Hinv IH H).
  - now apply animateAetherytes_Placed.
Qed.

(** In every state of a run, each loaded object and each star carries the key
    of a cell that passes the placement gate, and its stored position is the
    jittered position of that cell. *)
Theorem active_set_well_placed (this : AsciiBackground) (o : Object3D) :
  reachable this ->
  In o (distantStars this) \/ In o (map snd (loadedAetherytes this)) ->
  exists x y z,
    gridKey (userData o) = cellKey x y z /\
    shouldHaveAetheryte this (mkGridPos x y z) = true /\
    originalPosition (userData o) = Some (gridToWorld this (mkGridPos x y z)).
Proof.
  intros Hr Hin. destruct (reachable_Placed _ Hr) as [Hl Hs].
  destruct Hin as [Hin|Hin].
  - destruct (Hs o Hin) as (_ & x & y & z & E & Hg & Ho).
    exists x, y, z. auto.
  - apply in_map_iff in Hin. destruct Hin as [[k a] [<- Hin]].
    destruct (Hl k a Hin) as (Hk & x & y & z & E & Hg & Ho).
    exists x, y, z. simpl. rewrite Hk. auto.
Qed.

(** ** What a sweeping update leaves behind *)

Lemma cellDistance_sameView (t t' : AsciiBackground) (x y z : Z) :
  sameView t t' -> cellDistance t' x y z = cellDistance t x y z.
Proof.
  intros (Hc & _ & _ & Hg & _). unfold cellDistance, gridToWorld.
  now rewrite Hc, Hg.
Qed.

Lemma gridToWorld_sameView (t t' : AsciiBackground) (g : GridPos) :
  sameView t t' -> gridToWorld t' g = gridToWorld t g.
Proof.
  intros (_ & _ & _ & Hg & _). unfold gridToWorld. now rewrite Hg.
Qed.

(** After the candidate pass every cell of the cube that passes the three
    tests has a representation, the detailed one below [detailDistance]. *)
Lemma visitCells_represents (this : AsciiBackground) (c : GridPos) (r : Z)
    (x y z : Z) :
  Inv this -> inCube c r x y z -> candidate this x y z = true ->
  (cellDistance this x y z < detailDistance this ->
   In (cellKey x y z) (keysOf (loadedAetherytes (visitCells this c r)))) /\
  (In (cellKey x y z) (keysOf (loadedAetherytes (visitCells this c r))) \/
   In (cellKey x y z) (starKeys (distantStars (visitCells this c r)))).
Proof.
  intros Hinv Hcube Hcand.
  set (key := cellKey x y z).
  set (R := fun t => Inv t /\ sameView this t).
  set (Q := fun t => Inv t /\ sameView this t /\
              (cellDistance this x y z < detailDistance this ->
               In key (keysOf (loadedAetherytes t))) /\
              (In key (keysOf (loadedAetherytes t)) \/
               In key (starKeys (distantStars t)))).
  assert (HR : forall t x' y' z', R t -> R (visitCell t x' y' z')).
  { intros t x' y' z' [Hi Hv]. split; [now apply visitCell_Inv|].
    eapply sameView_trans; [exact Hv|apply visitCell_sameView]. }
  assert (Hmono : forall t x' y' z',
            In key (keysOf (loadedAetherytes t)) ->
            In key (keysOf (loadedAetherytes (visitCell t x' y' z')))).
  { intros t x' y' z' H. unfold keysOf in *. apply in_map_iff in H.
    destruct H as [e [He Hin]]. apply in_map_iff. exists e.
    split; [exact He|]. now apply visitCell_loaded_mono. }
  assert (HQ : forall t x' y' z', Q t -> Q (visitCell t x' y' z')).
  { intros t x' y' z' (Hi & Hv & Hd & Hrep).
    destruct (HR t x' y' z' (conj Hi Hv)) as [Hi' Hv'].
    split; [exact Hi'|]. split; [exact Hv'|]. split; [auto|].
    destruct Hrep as [Hl|Hs]; [left; auto|].
    destruct (visitCell_cases t x' y' z')
      as [[-> _]|[(_ & _ & _ & El & Es)|(_ & _ & _ & _ & _ & Es)]].
    - now right.
    - destruct (string_dec key (cellKey x' y' z')) as [Ek|Ek].
      + left. rewrite El, keysOf_app, in_app_iff. right. left.
        simpl. now rewrite Ek.
      + right. rewrite Es.
        apply (withoutStar_keys _ _ (inv_stars _ Hi)). now split.
    - right. rewrite Es, starKeys_app, in_app_iff. now left. }
  assert (HRQ : forall t, R t -> Q (visitCell t x y z)).
  { intros t [Hi Hv].
    destruct (HR t x y z (conj Hi Hv)) as [Hi' Hv'].
    split; [exact Hi'|]. split; [exact Hv'|].
    pose proof (candidate_sameView _ _ x y z Hv) as Ec.
    pose proof (cellDistance_sameView _ _ x y z Hv) as Ed.
    assert (Edd : detailDistance t = detailDistance this) by apply Hv.
    destruct (visitCell_cases t x y z)
      as [[E [Hno|[[_ Hhas]|[Hge Hhas]]]]
         |[(_ & _ & _ & El & _)|(_ & Hge & _ & _ & _ & Es)]].
    - congruence.
    - rewrite E. apply Map_has_In in Hhas. fold key in Hhas. auto.
    - rewrite E. rewrite Ed, Edd in Hge. split.
      + intro Hd. exfalso. apply (Qlt_not_le _ _ Hd Hge).
      + destruct Hhas as [Hhas|Hhas];
          [left; now apply Map_has_In|right; now apply star_has_In].
    - assert (In key (keysOf (loadedAetherytes (visitCell t x y z)))).
      { rewrite El, keysOf_app, in_app_iff. right. now left. }
      auto.
    - rewrite Ed, Edd in Hge. split.
      + intro Hd. exfalso. apply (Qlt_not_le _ _ Hd Hge).
      + right. rewrite Es, starKeys_app, in_app_iff. right. now left. }
  destruct (visitCells_meets R Q this c r x y z Hcube HR HRQ HQ)
    as (_ & _ & H1 & H2); [|auto].
  split; [exact Hinv|apply sameView_refl].
Qed.

Lemma In_keysOf (key : string) (m : list (string * Object3D)) :
  In key (keysOf m) -> exists a, In (key, a) m.
Proof.
  unfold keysOf. rewrite in_map_iff. intros [[k a] [E Hin]].
  simpl in E. subst k. eauto.
Qed.

Lemma In_starKeys (key : string) (l : list Object3D) :
  In key (starKeys l) -> exists s, In s l /\ gridKey (userData s) = key.
Proof.
  unfold starKeys. rewrite in_map_iff. intros [s [E Hin]]. eauto.
Qed.

(** The stored position of an object that stands for the cell [(x, y, z)]. *)
Lemma placedAt_cell (t : AsciiBackground) (x y z : Z) (o : Object3D) :
  placedAt t (cellKey x y z) o ->
  originalPosition (userData o) = Some (gridToWorld t (mkGridPos x y z)).
Proof.
  intros (_ & x' & y' & z' & E & _ & Ho).
  destruct (cellKey_inj _ _ _ _ _ _ E) as (-> & -> & ->). exact Ho.
Qed.

(** After a sweeping update every candidate cell of the cube is represented:
    by the detailed object below [detailDistance], by the star beyond
    [detailDistance * 1.2]. *)
Lemma sweep_represents (this this' : AsciiBackground)
    (c : GridPos) (q : Q) (x y z : Z) :
  reachable this ->
  updateProceduralAetherytes this = Some this' ->
  (10 | frameCount this + 1)%Z ->
  getGridPosition this (cam_position (camera this)) = Some c ->
  js_div (renderDistance this) (gridSize this) = Some q ->
  inCube c (Math_ceil q) x y z ->
  candidate this x y z = true ->
  (In (cellKey x y z) (keysOf (loadedAetherytes this')) \/
   In (cellKey x y z) (starKeys (distantStars this'))) /\
  (cellDistance this x y z < detailDistance this ->
   In (cellKey x y z) (keysOf (loadedAetherytes this'))) /\
  (detailDistance this * 1.2 < cellDistance this x y z ->
   In (cellKey x y z) (starKeys (distantStars this'))).
Proof.
  intros Hr Hu Hdiv Hc Hq Hcube Hcand.
  set (key := cellKey x y z).
  destruct (reachable_Inv _ Hr) as [Hinv (Hrd & Hdd & _)].
  pose proof (reachable_Placed _ Hr) as Hpl.
  assert (E : js_rem (frameCount this + 1) 10 = 0%Z)
    by (apply Z.rem_divide; [discriminate|exact Hdiv]).
  destruct (update_sweeping _ _ Hu E) as (c' & q' & Hc' & Hq' & Ethis').
  rewrite Hc in Hc'. injection Hc' as <-.
  rewrite Hq in Hq'. injection Hq' as <-.
  set (t0 := set_frameCount this (frameCount this + 1)) in *.
  set (t1 := visitCells t0 c (Math_ceil q)) in *.
  assert (Hinv0 : Inv t0) by (destruct Hinv; now constructor).
  assert (Hinv1 : Inv t1) by now apply visitCells_Inv.
  assert (Hpl1 : Placed t1) by (apply visitCells_Placed; exact Hpl).
  assert (Hv1 : sameView this t1).
  { apply (sameView_trans _ t0); [|apply visitCells_sameView].
    unfold sameView. simpl. tauto. }
  destruct (visitCells_represents t0 c (Math_ceil q) x y z Hinv0 Hcube Hcand)
    as [Hnear Hrep].
  fold t1 key in Hnear, Hrep.
  change (cellDistance t0 x y z) with (cellDistance this x y z) in Hnear.
  change (detailDistance t0) with (detailDistance this) in Hnear.
  apply candidate_true in Hcand. destruct Hcand as (_ & Hin300 & _).
  apply Qgtb_false in Hin300.
  set (d := cellDistance this x y z) in *.
  assert (Horig : forall o, placedAt t1 key o ->
            originalPosition (userData o)
              = Some (gridToWorld this (mkGridPos x y z))).
  { intros o Ho. rewrite <- (gridToWorld_sameView _ _ _ Hv1).
    now apply placedAt_cell. }
  assert (Hfar : forall o, placedAt t1 key o -> tooFar t1 o = false).
  { intros o Ho. rewrite (tooFar_sameView _ _ o Hv1).
    rewrite (tooFar_at this o _ (Horig o Ho)). fold (cellDistance this x y z).
    fold d. apply Qgtb_false. rewrite Hrd in *. lra. }
  assert (Hband : forall o, placedAt t1 key o ->
            beyondDetail t1 o = Qgtb d (detailDistance this * 1.2)).
  { intros o Ho. rewrite (beyondDetail_sameView _ _ o Hv1).
    now rewrite (beyondDetail_at this o _ (Horig o Ho)). }
  destruct (cleanupDistantObjects_spec t1 (inv_loaded _ Hinv1))
    as (_ & El & Es).
  rewrite <- Ethis' in El, Es.
  (* what the sweep does with a loaded object of the cell *)
  assert (Hloaded : In key (keysOf (loadedAetherytes t1)) ->
            (Qgtb d (detailDistance this * 1.2) = false ->
             In key (keysOf (loadedAetherytes this'))) /\
            (Qgtb d (detailDistance this * 1.2) = true ->
             In key (starKeys (distantStars this')))).
  { intro Hin. destruct (In_keysOf _ _ Hin) as [a Ha].
    pose proof (proj1 Hpl1 key a Ha) as Hpa. split; intro Hb.
    - rewrite El. unfold keysOf. apply in_map_iff. exists (key, a).
      split; [reflexivity|]. apply filter_In. split; [exact Ha|].
      unfold sweepKeeps. simpl. now rewrite (Hfar a Hpa), (Hband a Hpa), Hb.
    - assert (Hd : sweepDowngrades t1 a = true).
      { unfold sweepDowngrades. now rewrite (Hfar a Hpa), (Hband a Hpa), Hb. }
      pose proof (sweep_downgraded t1 (key, a) (inv_loaded _ Hinv1) Ha Hd)
        as Hstar.
      rewrite <- Ethis' in Hstar. unfold starKeys. apply in_map_iff.
      exists (downgradeStar (key, a)). split; [|exact Hstar].
      now destruct (downgradeStar_data t1 (key, a) Hd). }
  (* a star of the cell survives the sweep *)
  assert (Hstar : In key (starKeys (distantStars t1)) ->
            In key (starKeys (distantStars this'))).
  { intro Hin. destruct (In_starKeys _ _ Hin) as (s & Hs & Hk).
    pose proof (proj2 Hpl1 s Hs) as Hps. rewrite Hk in Hps.
    unfold starKeys. apply in_map_iff. exists s. split; [exact Hk|].
    rewrite Es. apply filter_In. split; [apply in_app_iff; now left|].
    rewrite keepStar_tooFar. now rewrite (Hfar s Hps). }
  split; [|split].
  - destruct Hrep as [Hl|Hs]; [|right; now apply Hstar].
    destruct (Qgtb d (detailDistance this * 1.2)) eqn:Hb.
    + right. now apply (Hloaded Hl).
    + left. now apply (Hloaded Hl).
  - intro Hd. apply (Hloaded (Hnear Hd)). apply Qgtb_false.
    rewrite Hdd in *. lra.
  - intro Hd. apply Qgtb_true in Hd. destruct Hrep as [Hl|Hs].
    + now apply (Hloaded Hl).
    + now apply Hstar.
Qed.

(** After a sweeping update of a state of a run, every cell of the cube that
    passes the placement gate, the distance test and the frustum test has
    exactly one representation: its key is in one of the two sets and not in
    the other, and keys are distinct within each set.  Below
    [detailDistance] it is the detailed object, beyond
    [detailDistance * 1.2] the star. *)
Theorem one_representation_per_candidate (this this' : AsciiBackground)
    (c : GridPos) (q : Q) (x y z : Z) :
  reachable this ->
  updateProceduralAetherytes this = Some this' ->
  (10 | frameCount this + 1)%Z ->
  getGridPosition this (cam_position (camera this)) = Some c ->
  js_div (renderDistance this) (gridSize this) = Some q ->
  inCube c (Math_ceil q) x y z ->
  candidate this x y z = true ->
  (In (cellKey x y z) (keysOf (loadedAetherytes this')) /\
   ~ In (cellKey x y z) (starKeys (distantStars this')) \/
   ~ In (cellKey x y z) (keysOf (loadedAetherytes this')) /\
   In (cellKey x y z) (starKeys (distantStars this'))) /\
  NoDup (keysOf (loadedAetherytes this')) /\
  NoDup (starKeys (distantStars this')) /\
  (cellDistance this x y z < detailDistance this ->
   In (cellKey x y z) (keysOf (loadedAetherytes this'))) /\
  (detailDistance this * 1.2 < cellDistance this x y z ->
   In (cellKey x y z) (starKeys (distantStars this'))).
Proof.
  intros Hr Hu Hdiv Hc Hq Hcube Hcand.
  destruct (reachable_Inv _ (reach_update _ _ Hr Hu)) as [Hinv' _].
  destruct (sweep_represents this this' c q x y z Hr Hu Hdiv Hc Hq Hcube
              Hcand) as (Hrep & Hnear & Hfar).
  assert (Hexcl : In (cellKey x y z) (keysOf (loadedAetherytes this')) ->
                  ~ In (cellKey x y z) (starKeys (distantStars this')))
    by apply (inv_exclusive _ Hinv').
  split; [|split; [apply (inv_loaded _ Hinv')|
           split; [apply (inv_stars _ Hinv')|split; assumption]]].
  destruct Hrep as [Hl|Hs].
  - left. split; [exact Hl|now apply Hexcl].
  - right. split; [|exact Hs]. intro Hl. now apply (Hexcl Hl).
Qed.

(** After a sweeping update of a state of a run, the placement of every
    loaded object is within [detailDistance * 1.2] of the viewpoint. *)
Theorem loaded_within_detail_band (this this' : AsciiBackground)
    (key : string) (a : Object3D) :
  reachable this ->
  updateProceduralAetherytes this = Some this' ->
  (10 | frameCount this + 1)%Z ->
  In (key, a) (loadedAetherytes this') ->
  exists orig,
    originalPosition (userData a) = Some orig /\
    distanceTo (cam_position (camera this')) orig
      <= detailDistance this' * 1.2.
Proof.
  intros Hr Hu Hdiv Hin.
  destruct (reachable_Inv _ Hr) as [Hinv _].
  destruct (reachable_Inv _ (reach_update _ _ Hr Hu)) as [Hinv' _].
  destruct (update_sweep_state _ _ Hinv Hu Hdiv) as (t & E & Hinvt & _ & _).
  destruct (cleanupDistantObjects_spec t (inv_loaded _ Hinvt))
    as (Hv & El & _).
  rewrite <- E in Hv, El.
  destruct (inv_placed _ Hinv' key a Hin) as (orig & _ & Ho & _).
  exists orig. split; [exact Ho|].
  rewrite El in Hin. apply filter_In in Hin. destruct Hin as [_ Hk].
  unfold sweepKeeps in Hk. apply andb_true_iff in Hk. destruct Hk as [_ Hk].
  apply negb_true_iff in Hk.
  rewrite <- (beyondDetail_sameView _ _ a Hv) in Hk.
  rewrite (beyondDetail_at _ a orig Ho) in Hk. now apply Qgtb_false.
Qed.

(** An update of a state of a run brings a key into the active set only on a
    sweeping update, and only for a cell of the cube that passes the
    placement gate, the distance test and the frustum test. *)
Theorem new_keys_are_candidates (this this' : AsciiBackground) (key : string) :
  reachable this ->
  updateProceduralAetherytes this = Some this' ->
  In key (keysOf (loadedAetherytes this')) \/
  In key (starKeys (distantStars this')) ->
  ~ In key (keysOf (loadedAetherytes this)) ->
  ~ In key (starKeys (distantStars this)) ->
  (10 | frameCount this + 1)%Z /\
  exists c q x y z,
    getGridPosition this (cam_position (camera this)) = Some c /\
    js_div (renderDistance this) (gridSize this) = Some q /\
    inCube c (Math_ceil q) x y z /\
    key = cellKey x y z /\
    candidate this x y z = true.
Proof.
  intros Hr Hu Hin Hnl Hns.
  destruct (reachable_Inv _ Hr) as [Hinv _].
  destruct (Z.eq_dec (js_rem (frameCount this + 1) 10) 0) as [E|E].
  2:{ rewrite (update_throttled _ E) in Hu. injection Hu as <-.
      simpl in Hin. tauto. }
  split; [apply Z.rem_divide; [discriminate|exact E]|].
  destruct (update_sweeping _ _ Hu E) as (c & q & Hc & Hq & ->).
  exists c, q.
  set (t0 := set_frameCount this (frameCount this + 1)) in *.
  assert (Hinv1 : Inv (visitCells t0 c (Math_ceil q))).
  { apply visitCells_Inv. destruct Hinv. now constructor. }
  destruct (cleanupDistantObjects_spec _ (inv_loaded _ Hinv1))
    as (_ & El & Es).
  rewrite El, Es in Hin.
  destruct (visitCells_new_keys t0 c (Math_ceil q) key) as [Hl Hs].
  assert (Hnew : In key (keysOf (loadedAetherytes
                                   (visitCells t0 c (Math_ceil q)))) \/
                 In key (starKeys (distantStars
                                     (visitCells t0 c (Math_ceil q))))).
  { destruct Hin as [Hin|Hin].
    - left. now apply keysOf_filter in Hin.
    - apply starKeys_filter in Hin.
      rewrite starKeys_app, downgraded_keys, in_app_iff in Hin.
      destruct Hin as [Hin|Hin]; [now right|].
      left. now apply keysOf_filter in Hin. }
  destruct Hnew as [Hnew|Hnew].
  - destruct (Hl Hnew) as [H|(x & y & z & H)]; [contradiction|].
    exists x, y, z. tauto.
  - destruct (Hs Hnew) as [H|(x & y & z & H)]; [contradiction|].
    exists x, y, z. tauto.
Qed.

(** Running the candidate pass a second time from the same viewpoint changes
    nothing, the scene log included. *)
Theorem candidate_pass_idempotent (this : AsciiBackground) (c : GridPos)
    (r : Z) :
  Inv this ->
  visitCells (visitCells this c r) c r = visitCells this c r.
Proof.
  intro Hinv. set (t1 := visitCells this c r).
  pose proof (visitCells_sameView this c r) as Hv. fold t1 in Hv.
  apply (visitCells_ind (fun s => s = t1)); [|reflexivity].
  intros s x y z Hcube ->.
  destruct (candidate t1 x y z) eqn:Hc; [|now apply visitCell_skip].
  assert (Hc' : candidate this x y z = true)
    by now rewrite <- (candidate_sameView _ _ x y z Hv).
  destruct (visitCells_represents this c r x y z Hinv Hcube Hc')
    as [Hnear Hrep].
  fold t1 in Hnear, Hrep.
  rewrite <- (cellDistance_sameView _ _ x y z Hv) in Hnear.
  assert (Edd : detailDistance t1 = detailDistance this) by apply Hv.
  rewrite <- Edd in Hnear.
  destruct (visitCell_cases t1 x y z)
    as [[E _]|[(_ & Hd & Hhas & _)|(_ & _ & Hhas & Hstar & _)]].
  - exact E.
  - apply Map_has_false in Hhas. exfalso. apply Hhas. now apply Hnear.
  - apply Map_has_false in Hhas. apply star_has_false in Hstar.
    tauto.
Qed.

(** ** The scene graph follows the active set *)

Lemma occurrences_app (key : string) (l1 l2 : list string) :
  occurrences key (l1 ++ l2)
    = (occurrences key l1 + occurrences key l2)%Z.
Proof. unfold occurrences. rewrite count_occ_app. lia. Qed.

Lemma occurrences_cons (key k : string) (l : list string) :
  occurrences key (k :: l)
    = ((if String.eqb k key then 1 else 0) + occurrences key l)%Z.
Proof.
  unfold occurrences. simpl. destruct (string_dec k key) as [E|E].
  - apply String.eqb_eq in E. rewrite E. lia.
  - apply String.eqb_neq in E. rewrite E. lia.
Qed.

Lemma occurrences_distinct (key : string) (l : list string) :
  NoDup l -> In key l -> occurrences key l = 1%Z.
Proof.
  intros Hnd Hin. unfold occurrences.
  now rewrite (proj1 (NoDup_count_occ' string_dec l) Hnd key Hin).
Qed.

Lemma occurrences_splice1 (key : string) (stars : list Object3D) (i : nat) :
  occurrences key (starKeys (splice1 i stars)) =
  (occurrences key (starKeys stars)
   - match nth_error stars i with
     | Some s => if hasKey key s then 1 else 0
     | None => 0
     end)%Z.
Proof.
  revert i. induction stars as [|s stars IH]; intros [|i];
    cbn [splice1 nth_error]; try lia.
  - unfold starKeys. cbn [map]. rewrite occurrences_cons. unfold hasKey. lia.
  - unfold starKeys in *. cbn [map]. rewrite !occurrences_cons, IH. lia.
Qed.

Lemma occurrences_filter (key : string) (p : Object3D -> bool)
    (stars : list Object3D) :
  occurrences key (starKeys (filter p stars)) =
  (occurrences key (starKeys stars)
   - occurrences key (starKeys (filter (fun s => negb (p s)) stars)))%Z.
Proof.
  unfold starKeys. induction stars as [|s stars IH]; cbn [filter map];
    [reflexivity|].
  destruct (p s); cbn [negb map]; rewrite !occurrences_cons; lia.
Qed.

Lemma occurrences_delete (key k : string) (m : list (string * Object3D)) :
  occurrences key (keysOf (Map_delete k m))
    = if String.eqb k key then 0%Z else occurrences key (keysOf m).
Proof.
  unfold Map_delete, keysOf.
  induction m as [|[k' a] m IH]; cbn [filter map fst].
  - now destruct (String.eqb k key).
  - destruct (String.eqb k' k) eqn:E; cbn [negb map fst].
    + rewrite IH. apply String.eqb_eq in E. subst k'.
      rewrite occurrences_cons. destruct (String.eqb k key); lia.
    + rewrite !occurrences_cons, IH.
      destruct (String.eqb k key) eqn:E'; [|reflexivity].
      apply String.eqb_eq in E'. subst key. rewrite E. lia.
Qed.

(** Arithmetic on counters with conditional increments. *)
Ltac count_lia :=
  repeat match goal with
         | |- context [if ?b then _ else _] => destruct b
         end;
  lia.

Lemma visitCell_Synced (t : AsciiBackground) (x y z : Z) :
  Synced t -> Synced (visitCell t x y z).
Proof.
  intro H. unfold visitCell.
  destruct (negb (shouldHaveAetheryte _ _)); [exact H|].
  destruct (Qgtb _ _); [exact H|].
  destruct (negb (isInViewFrustum _ _)); [exact H|].
  set (worldPos := gridToWorld t (mkGridPos x y z)).
  destruct (Qltb _ _).
  - destruct (negb (Map_has _ _)) eqn:Hhas; [|exact H].
    apply negb_true_iff in Hhas.
    intro key. destruct (H key) as [Hs Ha].
    cbn [scene_add set_scene set_loadedAetherytes set_distantStars
         distantStars loadedAetherytes scene].
    rewrite (Map_set_fresh _ _ _ Hhas).
    set (a := newAetheryte x y z (cellKey x y z) worldPos).
    assert (Eadd : occurrences key (keysOf (loadedAetherytes t
                                             ++ [(cellKey x y z, a)]))
                   = ((if hasKey key a then 1 else 0)
                      + occurrences key (keysOf (loadedAetherytes t)))%Z).
    { rewrite keysOf_app, occurrences_app. cbn [keysOf map fst].
      rewrite occurrences_cons. unfold hasKey, occurrences. simpl. lia. }
    destruct (findIndex _ _) as [i|].
    + pose proof (occurrences_splice1 key (distantStars t) i) as Hsp.
      destruct (nth_error (distantStars t) i) as [s|];
        cbn [scene_remove scene_add set_scene set_loadedAetherytes
             set_distantStars distantStars loadedAetherytes scene
             balance Kind_eqb andb];
        rewrite Hsp, Eadd; count_lia.
    + cbn [scene_remove scene_add set_scene set_loadedAetherytes
           set_distantStars distantStars loadedAetherytes scene
           balance Kind_eqb andb].
      rewrite Eadd. count_lia.
  - destruct (negb (Map_has _ _) && negb (existsb _ _)); [|exact H].
    intro key. destruct (H key) as [Hs Ha].
    cbn [scene_remove scene_add set_scene set_loadedAetherytes
         set_distantStars distantStars loadedAetherytes scene
         balance Kind_eqb andb].
    rewrite starKeys_app, occurrences_app. cbn [starKeys map].
    rewrite occurrences_cons. unfold hasKey, occurrences in *. simpl.
    count_lia.
Qed.

Lemma visitCells_Synced (t : AsciiBackground) (c : GridPos) (r : Z) :
  Synced t -> Synced (visitCells t c r).
Proof.
  intro H. apply visitCells_ind; [|exact H].
  intros t' x y z _. apply visitCell_Synced.
Qed.

Lemma cleanupAetheryte_Synced (t : AsciiBackground) (k : string)
    (a : Object3D) :
  NoDup (keysOf (loadedAetherytes t)) ->
  In k (keysOf (loadedAetherytes t)) ->
  gridKey (userData a) = k ->
  Synced t -> Synced (cleanupAetheryte t (k, a)).
Proof.
  intros Hnd Hin Hk H key. destruct (H key) as [Hs Ha].
  unfold cleanupAetheryte.
  destruct (originalPosition (userData a)) as [orig|]; [|auto].
  pose proof (occurrences_delete key k (loadedAetherytes t)) as Hdel.
  pose proof (occurrences_distinct k _ Hnd Hin) as Hone.
  assert (Ehas : hasKey key a = String.eqb k key)
    by (unfold hasKey; now rewrite Hk).
  destruct (Qgtb _ (renderDistance t * 1.2)).
  - cbn [scene_remove scene_add set_scene set_loadedAetherytes
         set_distantStars distantStars loadedAetherytes scene
         balance Kind_eqb andb].
    rewrite Hdel, Ehas.
    destruct (String.eqb k key) eqn:E;
      [apply String.eqb_eq in E; subst key|]; lia.
  - destruct (Qgtb _ (detailDistance t * 1.2)); [|auto].
    cbn [scene_remove scene_add set_scene set_loadedAetherytes
         set_distantStars distantStars loadedAetherytes scene
         balance Kind_eqb andb].
    rewrite starKeys_app, occurrences_app, Hdel, Ehas.
    cbn [starKeys map]. rewrite occurrences_cons.
    unfold hasKey. cbn [newStar userData gridKey].
    change (occurrences key []) with 0%Z.
    destruct (String.eqb k key) eqn:E;
      [apply String.eqb_eq in E; subst key|]; lia.
Qed.

Lemma cleanup_fold_Synced (rest : list (string * Object3D)) :
  forall t,
    NoDup (keysOf rest) ->
    (forall e, In e rest -> In e (loadedAetherytes t)) ->
    (forall k a, In (k, a) rest -> gridKey (userData a) = k) ->
    NoDup (keysOf (loadedAetherytes t)) ->
    Synced t -> Synced (fold_left cleanupAetheryte rest t).
Proof.
  induction rest as [|[k a] rest IH]; intros t Hnd Hsub Htag Hl H;
    cbn [fold_left]; [exact H|].
  cbn [keysOf map fst] in Hnd. inversion Hnd as [|? ? Hk Hrest]; subst.
  destruct (cleanupAetheryte_spec t k a) as (_ & El & _).
  apply IH.
  - exact Hrest.
  - intros e He. rewrite El.
    destruct (sweepKeeps t a); [apply Hsub; now right|].
    unfold Map_delete. apply filter_In. split; [apply Hsub; now right|].
    apply negb_true_iff. apply String.eqb_neq. intro E. apply Hk.
    apply in_map_iff. exists e. auto.
  - intros k' a' Hin. apply Htag. now right.
  - rewrite El. destruct (sweepKeeps t a); [exact Hl|].
    now apply distinct_after_filter.
  - apply cleanupAetheryte_Synced; auto.
    + apply in_map_iff. exists (k, a). split; [reflexivity|].
      apply Hsub. now left.
    + apply (Htag k a). now left.
Qed.

Lemma remove_stars_scene (removed : list Object3D) (key : string) :
  forall t,
    balance Star key
      (scene (fold_left (fun t s => scene_remove Star s t) removed t))
    = (balance Star key (scene t) - occurrences key (starKeys removed))%Z /\
    balance Aetheryte key
      (scene (fold_left (fun t s => scene_remove Star s t) removed t))
    = balance Aetheryte key (scene t) /\
    loadedAetherytes (fold_left (fun t s => scene_remove Star s t) removed t)
    = loadedAetherytes t /\
    distantStars (fold_left (fun t s => scene_remove Star s t) removed t)
    = distantStars t /\
    sameView t (fold_left (fun t s => scene_remove Star s t) removed t).
Proof.
  induction removed as [|s removed IH]; intro t; cbn [fold_left].
  - change (occurrences key (starKeys [])) with 0%Z.
    repeat split; lia.
  - destruct (IH (scene_remove Star s t)) as (E1 & E2 & E3 & E4 & E5).
    rewrite E1, E2, E3, E4. cbn [starKeys map]. fold (starKeys removed).
    rewrite occurrences_cons.
    cbn [scene_remove set_scene scene balance Kind_eqb andb
         loadedAetherytes distantStars].
    unfold hasKey.
    split; [count_lia|]. split; [lia|]. split; [reflexivity|].
    split; [reflexivity|exact E5].
Qed.

Lemma cleanupDistantObjects_Synced (t : AsciiBackground) :
  Inv t -> Placed t -> Synced t -> Synced (cleanupDistantObjects t).
Proof.
  intros Hinv Hpl H. unfold cleanupDistantObjects.
  set (t1 := fold_left cleanupAetheryte (loadedAetherytes t) t).
  assert (H1 : Synced t1).
  { apply cleanup_fold_Synced; auto.
    - apply (inv_loaded _ Hinv).
    - intros k a Hin. now destruct (proj1 Hpl k a Hin).
    - apply (inv_loaded _ Hinv). }
  set (removed := filter (fun s => negb (keepStar t1 s)) (distantStars t1)).
  intro key.
  destruct (remove_stars_scene removed key t1) as (E1 & E2 & E3 & E4 & E5).
  set (t2 := fold_left (fun t s => scene_remove Star s t) removed t1) in *.
  cbn [set_distantStars scene distantStars loadedAetherytes].
  rewrite E1, E2, E3, E4. destruct (H1 key) as [Hs Ha].
  split; [|exact Ha].
  rewrite (filter_ext (keepStar t2) (keepStar t1)).
  - rewrite occurrences_filter. fold removed. lia.
  - intro s. rewrite !keepStar_tooFar. now rewrite (tooFar_sameView _ _ s E5).
Qed.

Lemma update_Synced (this this' : AsciiBackground) :
  Inv this -> Placed this -> Synced this ->
  updateProceduralAetherytes this = Some this' -> Synced this'.
Proof.
  intros Hinv Hpl H Hu.
  set (t0 := set_frameCount this (frameCount this + 1)).
  assert (H0 : Synced t0) by exact H.
  assert (Hpl0 : Placed t0) by exact Hpl.
  assert (Hinv0 : Inv t0) by (destruct Hinv; now constructor).
  destruct (update_cases _ _ Hu) as [->|(c & r & ->)]; [exact H0|].
  apply cleanupDistantObjects_Synced.
  - now apply visitCells_Inv.
  - now apply visitCells_Placed.
  - now apply visitCells_Synced.
Qed.

Lemma reachable_Synced (this : AsciiBackground) :
  reachable this -> Synced this.
Proof.
  induction 1 as [frustum|this cam _ IH|this this' Hr IH H|this _ IH].
  - intro key. split; reflexivity.
  - exact IH.
  - destruct (reachable_Inv _ Hr) as [Hinv _].
    apply (update_Synced _ _ Hinv (reachable_Placed _ Hr) IH H).
  - intro key. destruct (IH key) as [Hs Ha]. split; [exact Hs|].
    rewrite animateAetherytes_keys. exact Ha.
Qed.

Lemma occurrences_absent (key : string) (l : list string) :
  ~ In key l -> occurrences key l = 0%Z.
Proof.
  intro H. unfold occurrences.
  now rewrite (proj1 (count_occ_not_In string_dec l key) H).
Qed.

(** In every state of a run the scene graph holds the active set and nothing
    else of it: for a key of [distantStars] the calls of [scene.add] on stars
    of that key exceed the calls of [scene.remove] by one, for any other key
    they balance, and the same holds for the detailed objects and the keys of
    [loadedAetherytes]. *)
Theorem scene_follows_active_set (this : AsciiBackground) (key : string) :
  reachable this ->
  balance Star key (scene this)
    = (if existsb (hasKey key) (distantStars this) then 1 else 0)%Z /\
  balance Aetheryte key (scene this)
    = (if Map_has key (loadedAetherytes this) then 1 else 0)%Z.
Proof.
  intro Hr. destruct (reachable_Inv _ Hr) as [Hinv _].
  destruct (reachable_Synced _ Hr key) as [Hs Ha]. rewrite Hs, Ha. split.
  - destruct (existsb _ _) eqn:E.
    + apply star_has_In in E.
      apply occurrences_distinct; [apply (inv_stars _ Hinv)|exact E].
    + apply star_has_false in E. now apply occurrences_absent.
  - destruct (Map_has _ _) eqn:E.
    + apply Map_has_In in E.
      apply occurrences_distinct; [apply (inv_loaded _ Hinv)|exact E].
    + apply Map_has_false in E. now apply occurrences_absent.
Qed.

(** ** The lattice *)


Lemma jitter_range (this : AsciiBackground) (g : GridPos) :
  (-10 <= vec_x (gridToWorld this g) - inject_Z (grid_x g) * gridSize this
        < 10) /\
  (-10 <= vec_y (gridToWorld this g) - inject_Z (grid_y g) * gridSize this
        < 10) /\
  (-10 <= vec_z (gridToWorld this g) - inject_Z (grid_z g) * gridSize this
        < 10).
Proof.
  destruct g as [gx gy gz]. unfold gridToWorld.
  cbn [vec_x vec_y vec_z grid_x grid_y grid_z].
  destruct (seededRandom_range gx gy gz).
  destruct (seededRandom_range gy gz gx).
  destruct (seededRandom_range gz gx gy).
  repeat split; lra.
Qed.



Lemma round_nearest (p s : Q) :
  0 < s ->
  (inject_Z (Math_round (p / s)) - 0.5) * s <= p /\
  p < (inject_Z (Math_round (p / s)) + 0.5) * s.
Proof.
  intro Hs. unfold Math_round.
  pose proof (Qfloor_le (p / s + 0.5)) as H1.
  pose proof (Qlt_floor (p / s + 0.5)) as H2.
  rewrite inject_Z_plus in H2. change (inject_Z 1) with 1 in H2.
  set (n := inject_Z (Qfloor (p / s + 0.5))) in *.
  assert (E : p == p / s * s) by (field; lra).
  assert (L : (n - 0.5) * s <= p / s * s)
    by (apply Qmult_le_compat_r; lra).
  assert (U : p / s * s < (n + 0.5) * s)
    by (apply Qmult_lt_compat_r; lra).
  split; lra.
Qed.

Lemma cell_nearest (this : AsciiBackground) (p : Vector3) (g : GridPos) :
  0 < gridSize this ->
  getGridPosition this p = Some g ->
  ((inject_Z (grid_x g) - 0.5) * gridSize this <= vec_x p
   /\ vec_x p < (inject_Z (grid_x g) + 0.5) * gridSize this) /\
  ((inject_Z (grid_y g) - 0.5) * gridSize this <= vec_y p
   /\ vec_y p < (inject_Z (grid_y g) + 0.5) * gridSize this) /\
  ((inject_Z (grid_z g) - 0.5) * gridSize this <= vec_z p
   /\ vec_z p < (inject_Z (grid_z g) + 0.5) * gridSize this).
Proof.
  intros Hs H. unfold getGridPosition in H.
  rewrite !js_div_Some in H by lra. cbn [bind] in H. injection H as <-.
  cbn [grid_x grid_y grid_z].
  split; [|split]; now apply round_nearest.
Qed.


Lemma component_below_distance (a b : Vector3) :
  (forall u v, 0 <= u -> u * u <= v -> u <= Math_sqrt v + 1) ->
  Qabs (vec_x a - vec_x b) <= distanceTo a b + 1 /\
  Qabs (vec_y a - vec_y b) <= distanceTo a b + 1 /\
  Qabs (vec_z a - vec_z b) <= distanceTo a b + 1.
Proof.
  intro Hsqrt. unfold distanceTo.
  set (dx := vec_x a - vec_x b). set (dy := vec_y a - vec_y b).
  set (dz := vec_z a - vec_z b).
  pose proof (Qsquare_nonneg dx). pose proof (Qsquare_nonneg dy).
  pose proof (Qsquare_nonneg dz).
  assert (Sq : forall d, Qabs d * Qabs d == d * d).
  { intro d. apply Qabs_case; intros; ring. }
  repeat split; apply Hsqrt; try apply Qabs_nonneg; rewrite Sq; lra.
Qed.

Lemma within_four (a b : Z) :
  Qabs (inject_Z a * 100 - inject_Z b * 100) < 400 ->
  (b - 3 <= a <= b + 3)%Z.
Proof.
  intro H.
  assert (H1 : inject_Z a < inject_Z (b + 4))
    by (rewrite inject_Z_plus; change (inject_Z 4) with 4;
        revert H; apply Qabs_case; intros; lra).
  assert (H2 : inject_Z b < inject_Z (a + 4))
    by (rewrite inject_Z_plus; change (inject_Z 4) with 4;
        revert H; apply Qabs_case; intros; lra).
  rewrite <- Zlt_Qlt in H1, H2. lia.
Qed.

(** The cube of cells that the candidate pass runs over misses no cell in
    range: in a state of a run, a cell whose placement is within
    [renderDistance] of the viewpoint lies in the cube around the camera
    cell.  The host's square root may fall short of the exact one by up to
    one unit. *)
Theorem cube_covers_render_distance (this : AsciiBackground) (c : GridPos)
    (q : Q) (x y z : Z) :
  (forall u v, 0 <= u -> u * u <= v -> u <= Math_sqrt v + 1) ->
  reachable this ->
  getGridPosition this (cam_position (camera this)) = Some c ->
  js_div (renderDistance this) (gridSize this) = Some q ->
  cellDistance this x y z <= renderDistance this ->
  inCube c (Math_ceil q) x y z.
Proof.
  intros Hsqrt Hr Hc Hq Hd.
  destruct (reachable_Inv _ Hr) as [_ (Hrd & _ & Hg & _)].
  rewrite Hrd, Hg in Hq. vm_compute in Hq. injection Hq as <-.
  change (Math_ceil (3 # 1)) with 3%Z.
  assert (Hpos : 0 < gridSize this) by (rewrite Hg; reflexivity).
  destruct (cell_nearest this _ c Hpos Hc) as (Cx & Cy & Cz).
  destruct (jitter_range this (mkGridPos x y z)) as (Jx & Jy & Jz).
  cbn [grid_x grid_y grid_z] in Jx, Jy, Jz.
  rewrite Hg in Cx, Cy, Cz, Jx, Jy, Jz.
  destruct (component_below_distance (cam_position (camera this))
              (gridToWorld this (mkGridPos x y z)) Hsqrt) as (Dx & Dy & Dz).
  fold (cellDistance this x y z) in Dx, Dy, Dz. rewrite Hrd in Hd.
  unfold inCube. split; [|split]; apply within_four.
  - revert Dx. apply Qabs_case; intros; apply Qabs_case; intros; lra.
  - revert Dy. apply Qabs_case; intros; apply Qabs_case; intros; lra.
  - revert Dz. apply Qabs_case; intros; apply Qabs_case; intros; lra.
Qed.

(** Different cells have different keys. *)
Theorem cell_keys_distinct (x y z x' y' z' : Z) :
  cellKey x y z = cellKey x' y' z' <-> x = x' /\ y = y' /\ z = z'.
Proof.
  split.
  - apply cellKey_inj.
  - now intros (-> & -> & ->).
Qed.

(** ** Frames *)

Lemma visitCell_frameCount (t : AsciiBackground) (x y z : Z) :
  frameCount (visitCell t x y z) = frameCount t.
Proof.
  unfold visitCell.
  destruct (negb (shouldHaveAetheryte _ _)); [reflexivity|].
  destruct (Qgtb _ _); [reflexivity|].
  destruct (negb (isInViewFrustum _ _)); [reflexivity|].
  destruct (Qltb _ _).
  - destruct (negb (Map_has _ _)); [|reflexivity].
    cbn [scene_add set_scene set_loadedAetherytes distantStars].
    destruct (findIndex _ _) as [i|]; [|reflexivity].
    now destruct (nth_error _ _).
  - now destruct (negb (Map_has _ _) && negb (existsb _ _)).
Qed.

Lemma cleanupDistantObjects_frameCount (t : AsciiBackground) :
  frameCount (cleanupDistantObjects t) = frameCount t.
Proof.
  unfold cleanupDistantObjects. cbn [set_distantStars frameCount].
  assert (H1 : forall l s,
            frameCount (fold_left (fun t s => scene_remove Star s t) l s)
            = frameCount s).
  { induction l as [|o l IH]; intro s; cbn [fold_left]; [reflexivity|].
    now rewrite IH. }
  assert (H2 : forall l s,
            frameCount (fold_left cleanupAetheryte l s) = frameCount s).
  { induction l as [|[k a] l IH]; intro s; cbn [fold_left]; [reflexivity|].
    rewrite IH. unfold cleanupAetheryte.
    destruct (originalPosition (userData a)); [|reflexivity].
    destruct (Qgtb _ _); [reflexivity|]. now destruct (Qgtb _ _). }
  now rewrite H1, H2.
Qed.

Lemma update_frameCount (this this' : AsciiBackground) :
  updateProceduralAetherytes this = Some this' ->
  frameCount this' = (frameCount this + 1)%Z.
Proof.
  intro H. destruct (update_cases _ _ H) as [->|(c & r & ->)];
    [reflexivity|].
  rewrite cleanupDistantObjects_frameCount.
  apply (visitCells_ind
           (fun s => frameCount s = (frameCount this + 1)%Z));
    [|reflexivity].
  intros t x y z _ Ht. now rewrite visitCell_frameCount.
Qed.

Lemma animate_frame (cam : Camera) (this this' : AsciiBackground) :
  animate cam this = Some this' ->
  frameCount this' = (frameCount this + 1)%Z /\
  sameView (set_camera this cam) this'.
Proof.
  intro H. destruct (animate_cases _ _ _ H) as (t & Hu & ->). split.
  - apply (update_frameCount _ _ Hu).
  - destruct (update_cases _ _ Hu) as [->|(c & r & ->)].
    + unfold sameView. simpl. tauto.
    + eapply sameView_trans;
        [|apply (cleanupDistantObjects_sameView
                   (visitCells (set_frameCount (set_camera this cam)
                                  (frameCount (set_camera this cam) + 1))
                               c r))].
      eapply sameView_trans; [|apply visitCells_sameView].
      unfold sameView. simpl. tauto.
Qed.

Lemma frames_empty (cams : list Camera) :
  forall t t',
    (0 <= frameCount t)%Z ->
    (frameCount t + Z.of_nat (List.length cams) <= 9)%Z ->
    loadedAetherytes t = [] /\ distantStars t = [] /\ scene t = [] ->
    frames cams t = Some t' ->
    frameCount t' = (frameCount t + Z.of_nat (List.length cams))%Z /\
    loadedAetherytes t' = [] /\ distantStars t' = [] /\ scene t' = [].
Proof.
  induction cams as [|cam cams IH]; intros t t' H0 H9 He H.
  - cbn in H. injection H as <-. cbn [List.length]. split; [lia|exact He].
  - cbn [frames] in H.
    destruct (animate cam t) as [t1|] eqn:E; [|discriminate].
    cbn [bind] in H. cbn [List.length] in *.
    unfold animate in E.
    rewrite update_throttled in E.
    2:{ unfold js_rem. cbn [set_camera frameCount].
        rewrite Z.rem_small by lia. lia. }
    cbn [bind] in E. injection E as <-.
    destruct He as (El & Es & Ec).
    apply IH in H.
    + destruct H as (Hf & He'). split; [|exact He']. rewrite Hf. cbn. lia.
    + cbn. lia.
    + cbn. lia.
    + cbn. rewrite El, Es, Ec. auto.
Qed.

(** Nothing is generated before the tenth update: after [init] and up to
    eight frames, whatever the camera does, the active set and the scene
    graph are still empty, and the frame counter is the number of updates. *)
Theorem empty_before_first_sweep (frustum : Vector3 -> bool)
    (cams : list Camera) (this0 this : AsciiBackground) :
  init frustum = Some this0 ->
  frames cams this0 = Some this ->
  (List.length cams <= 8)%nat ->
  frameCount this = (1 + Z.of_nat (List.length cams))%Z /\
  loadedAetherytes this = [] /\ distantStars this = [] /\ scene this = [].
Proof.
  intros Hi Hf Hlen. unfold init in Hi.
  rewrite update_throttled in Hi by (cbn; discriminate).
  injection Hi as <-.
  apply (frames_empty cams _ this) in Hf;
    cbn [set_frameCount frameCount new_AsciiBackground loadedAetherytes
         distantStars scene] in *; try lia; auto.
Qed.

(** ** Stars *)

Lemma downgradeStar_still (t : AsciiBackground) (e : string * Object3D) :
  sweepDowngrades t (snd e) = true ->
  originalPosition (userData (downgradeStar e))
    = Some (position (downgradeStar e)) /\
  rotation (downgradeStar e) = mkVector3 0 0 0.
Proof.
  unfold sweepDowngrades, beyondDetail, downgradeStar.
  destruct (originalPosition (userData (snd e))); cbn; [tauto|].
  rewrite andb_false_r. discriminate.
Qed.

Lemma splice1_incl {A : Type} (i : nat) (l : list A) (a : A) :
  In a (splice1 i l) -> In a l.
Proof.
  revert i. induction l as [|b l IH]; intros [|i]; cbn; auto.
  intros [H|H]; eauto.
Qed.

Lemma visitCell_Still (t : AsciiBackground) (x y z : Z) :
  Still t -> Still (visitCell t x y z).
Proof.
  intros H s.
  destruct (visitCell_cases t x y z)
    as [[-> _]|[(_ & _ & _ & _ & ->)|(_ & _ & _ & _ & _ & ->)]].
  - apply H.
  - unfold withoutStar. destruct (findIndex _ _); [|apply H].
    intro Hin. apply H. eapply splice1_incl; eauto.
  - rewrite in_app_iff. intros [Hin|[<-|[]]]; [now apply H|].
    cbn. auto.
Qed.

Lemma update_Still (this this' : AsciiBackground) :
  Inv this -> Still this ->
  updateProceduralAetherytes this = Some this' -> Still this'.
Proof.
  intros Hinv H Hu.
  set (t0 := set_frameCount this (frameCount this + 1)).
  assert (H0 : Still t0) by exact H.
  assert (Hinv0 : Inv t0) by (destruct Hinv; now constructor).
  destruct (update_cases _ _ Hu) as [->|(c & r & ->)]; [exact H0|].
  fold t0.
  assert (H1 : Still (visitCells t0 c r)).
  { apply visitCells_ind; [|exact H0].
    intros t x y z _. apply visitCell_Still. }
  assert (Hinv1 : Inv (visitCells t0 c r)) by now apply visitCells_Inv.
  destruct (cleanupDistantObjects_spec _ (inv_loaded _ Hinv1))
    as (_ & _ & Es).
  intros s Hin. rewrite Es in Hin. apply filter_In in Hin.
  destruct Hin as [Hin _]. apply in_app_iff in Hin.
  destruct Hin as [Hin|Hin]; [now apply H1|].
  apply in_map_iff in Hin. destruct Hin as (e & <- & He).
  apply filter_In in He. destruct He as [_ He].
  apply (downgradeStar_still _ e He).
Qed.

Lemma reachable_Still (this : AsciiBackground) :
  reachable this -> Still this.
Proof.
  induction 1 as [frustum|this cam _ IH|this this' Hr IH H|this _ IH].
  - intros s [].
  - exact IH.
  - destruct (reachable_Inv _ Hr) as [Hinv _].
    apply (update_Still _ _ Hinv IH H).
  - exact IH.
Qed.

(** A star stands at the jittered lattice position of its cell and is never
    moved or turned, also when it replaces an object that was oscillating
    around that position. *)
Theorem stars_stand_at_placement (this : AsciiBackground) (s : Object3D) :
  reachable this ->
  In s (distantStars this) ->
  rotation s = mkVector3 0 0 0 /\
  exists x y z,
    gridKey (userData s) = cellKey x y z /\
    position s = gridToWorld this (mkGridPos x y z).
Proof.
  intros Hr Hin.
  destruct (reachable_Still _ Hr s Hin) as [Ho Hrot].
  split; [exact Hrot|].
  destruct (proj2 (reachable_Placed _ Hr) s Hin)
    as (_ & x & y & z & Ek & _ & Ho').
  exists x, y, z. split; [exact Ek|]. congruence.
Qed.
(** ** The camera at rest *)

Lemma set_camera_same (t : AsciiBackground) : set_camera t (camera t) = t.
Proof. now destruct t. Qed.

Lemma set_distantStars_same (t : AsciiBackground) :
  set_distantStars t (distantStars t) = t.
Proof. now destruct t. Qed.

Lemma cleanupAetheryte_kept (t : AsciiBackground) (k : string)
    (a : Object3D) :
  sweepKeeps t a = true -> cleanupAetheryte t (k, a) = t.
Proof.
  unfold sweepKeeps, tooFar, beyondDetail, cleanupAetheryte.
  destruct (originalPosition (userData a)); [|reflexivity].
  destruct (Qgtb _ (renderDistance t * 1.2)); [discriminate|].
  now destruct (Qgtb _ (detailDistance t * 1.2)).
Qed.

Lemma filter_all {A : Type} (p : A -> bool) (l : list A) :
  (forall a, In a l -> p a = true) -> filter p l = l.
Proof.
  induction l as [|a l IH]; intro H; cbn; [reflexivity|].
  rewrite (H a (or_introl eq_refl)). f_equal. apply IH.
  intros b Hb. apply H. now right.
Qed.

Lemma filter_none {A : Type} (p : A -> bool) (l : list A) :
  (forall a, In a l -> p a = true) -> filter (fun a => negb (p a)) l = [].
Proof.
  induction l as [|a l IH]; intro H; cbn; [reflexivity|].
  rewrite (H a (or_introl eq_refl)). cbn. apply IH.
  intros b Hb. apply H. now right.
Qed.

(** The sweep of a settled state changes nothing. *)
Lemma Settled_sweep (t : AsciiBackground) :
  Settled t -> cleanupDistantObjects t = t.
Proof.
  intros (_ & Hl & Hs). unfold cleanupDistantObjects.
  assert (Hfold : forall l,
            (forall k a, In (k, a) l -> sweepKeeps t a = true) ->
            fold_left cleanupAetheryte l t = t).
  { induction l as [|[k a] l IH]; intro H; cbn [fold_left]; [reflexivity|].
    rewrite (cleanupAetheryte_kept t k a (H k a (or_introl eq_refl))).
    apply IH. intros k' a' Hin. apply (H k' a'). now right. }
  rewrite (Hfold _ Hl).
  rewrite (filter_none (keepStar t) _ Hs). cbn [fold_left].
  rewrite (filter_all (keepStar t) _ Hs). apply set_distantStars_same.
Qed.

(** The candidate pass of a settled state changes nothing. *)
Lemma Settled_pass (t : AsciiBackground) (c : GridPos) (q : Q) :
  Settled t ->
  getGridPosition t (cam_position (camera t)) = Some c ->
  js_div (renderDistance t) (gridSize t) = Some q ->
  visitCells t c (Math_ceil q) = t.
Proof.
  intros (Hrep & _) Hc Hq.
  apply (visitCells_ind (fun s => s = t)); [|reflexivity].
  intros s x y z Hcube ->.
  destruct (candidate t x y z) eqn:Hcand; [|now apply visitCell_skip].
  destruct (Hrep c q x y z Hc Hq Hcube Hcand) as [Hin Hnear].
  destruct (visitCell_cases t x y z)
    as [[E _]|[(_ & Hd & Hhas & _)|(_ & _ & Hhas & Hstar & _)]].
  - exact E.
  - apply Map_has_false in Hhas. exfalso. apply Hhas. now apply Hnear.
  - apply Map_has_false in Hhas. apply star_has_false in Hstar. tauto.
Qed.

(** An update of a settled state only counts the frame. *)
Lemma Settled_update (t t' : AsciiBackground) :
  Settled t ->
  updateProceduralAetherytes t = Some t' ->
  t' = set_frameCount t (frameCount t + 1).
Proof.
  intros Hs Hu.
  destruct (Z.eq_dec (js_rem (frameCount t + 1) 10) 0) as [E|E].
  - destruct (update_sweeping _ _ Hu E) as (c & q & Hc & Hq & ->).
    set (t0 := set_frameCount t (frameCount t + 1)).
    assert (Hs0 : Settled t0) by exact Hs.
    rewrite (Settled_pass t0 c q Hs0 Hc Hq). now apply Settled_sweep.
  - rewrite (update_throttled _ E) in Hu. congruence.
Qed.

Lemma animateAetherytes_Settled (t : AsciiBackground) :
  Settled t -> Settled (animateAetherytes t).
Proof.
  intros (Hrep & Hl & Hs). split; [|split].
  - intros c q x y z Hc Hq Hcube Hcand.
    rewrite animateAetherytes_keys. exact (Hrep c q x y z Hc Hq Hcube Hcand).
  - intros k a Hin. apply in_map_iff in Hin.
    destruct Hin as [[k' a'] [E Hin]]. cbn [fst snd] in E.
    injection E as <- <-.
    pose proof (Hl k' a' Hin) as Hk.
    unfold sweepKeeps, tooFar, beyondDetail in *.
    destruct (animateCrystal_data a') as (-> & _). exact Hk.
  - exact Hs.
Qed.

(** A sweeping update settles the state. *)
Lemma sweep_Settled (this this' : AsciiBackground) :
  reachable this ->
  updateProceduralAetherytes this = Some this' ->
  (10 | frameCount this + 1)%Z ->
  Settled this'.
Proof.
  intros Hr Hu Hdiv.
  assert (E : js_rem (frameCount this + 1) 10 = 0%Z)
    by (apply Z.rem_divide; [discriminate|exact Hdiv]).
  destruct (update_sweeping _ _ Hu E) as (c & q & Hc & Hq & Ethis').
  set (t0 := set_frameCount this (frameCount this + 1)) in *.
  set (t1 := visitCells t0 c (Math_ceil q)) in *.
  destruct (reachable_Inv _ Hr) as [Hinv _].
  assert (Hinv0 : Inv t0) by (destruct Hinv; now constructor).
  assert (Hinv1 : Inv t1) by now apply visitCells_Inv.
  destruct (cleanupDistantObjects_spec t1 (inv_loaded _ Hinv1))
    as (Hv' & El & Es).
  rewrite <- Ethis' in Hv', El, Es.
  assert (Hv : sameView this this').
  { apply (sameView_trans _ t1); [|exact Hv'].
    apply (sameView_trans _ t0); [|apply visitCells_sameView].
    unfold sameView. simpl. tauto. }
  split; [|split].
  - intros c' q' x y z Hc' Hq' Hcube Hcand.
    destruct Hv as (Ecam & Erd & Edd & Egs & Eac).
    assert (Hv2 : sameView this this') by (unfold sameView; tauto).
    rewrite (candidate_sameView _ _ x y z Hv2) in Hcand.
    rewrite (cellDistance_sameView _ _ x y z Hv2), Edd.
    unfold getGridPosition in Hc'. rewrite Ecam, Egs in Hc'.
    fold (getGridPosition this (cam_position (camera this))) in Hc'.
    rewrite Erd, Egs in Hq'.
    destruct (sweep_represents this this' c' q' x y z Hr Hu Hdiv Hc' Hq'
                Hcube Hcand) as (Hrep & Hnear & _).
    split; assumption.
  - intros k a Hin. rewrite El in Hin. apply filter_In in Hin.
    destruct Hin as [_ Hk]. cbn [snd] in Hk.
    now rewrite (sweepKeeps_sameView _ _ a Hv').
  - intros s Hin. rewrite Es in Hin. apply filter_In in Hin.
    destruct Hin as [_ Hk].
    rewrite keepStar_tooFar in *. now rewrite (tooFar_sameView _ _ s Hv').
Qed.

(** A frame that leaves the camera where it is keeps a settled state
    settled, and changes neither the keys, the stars nor the scene graph. *)
Lemma rest_frame (t t' : AsciiBackground) :
  Settled t ->
  animate (camera t) t = Some t' ->
  Settled t' /\ camera t' = camera t /\
  keysOf (loadedAetherytes t') = keysOf (loadedAetherytes t) /\
  distantStars t' = distantStars t /\ scene t' = scene t.
Proof.
  intros Hs Ha. destruct (animate_cases _ _ _ Ha) as (u & Hu & ->).
  rewrite set_camera_same in Hu.
  rewrite (Settled_update _ _ Hs Hu). split; [|split; [|split; [|split]]].
  - apply animateAetherytes_Settled. exact Hs.
  - reflexivity.
  - now rewrite animateAetherytes_keys.
  - reflexivity.
  - reflexivity.
Qed.

Lemma rest_frames (n : nat) :
  forall t t',
    Settled t ->
    frames (repeat (camera t) n) t = Some t' ->
    keysOf (loadedAetherytes t') = keysOf (loadedAetherytes t) /\
    distantStars t' = distantStars t /\ scene t' = scene t.
Proof.
  induction n as [|n IH]; intros t t' Hs H.
  - cbn in H. injection H as <-. auto.
  - cbn [repeat frames] in H.
    destruct (animate (camera t) t) as [t1|] eqn:E; [|discriminate].
    cbn [bind] in H.
    destruct (rest_frame _ _ Hs E) as (Hs1 & Ecam & Ek & Est & Esc).
    rewrite <- Ecam in H. destruct (IH _ _ Hs1 H) as (Hk & Hst & Hsc).
    repeat split; congruence.
Qed.

(** Once a frame has swept, the active set stays as it is while the camera
    rests: over any number of further frames with the same camera, no key
    enters or leaves the loaded set, no star is touched, and nothing is
    added to or removed from the scene graph. *)
Theorem active_set_settles_at_rest (cam : Camera)
    (this this1 this2 : AsciiBackground) (n : nat) :
  reachable this ->
  (10 | frameCount this + 1)%Z ->
  animate cam this = Some this1 ->
  frames (repeat cam n) this1 = Some this2 ->
  keysOf (loadedAetherytes this2) = keysOf (loadedAetherytes this1) /\
  distantStars this2 = distantStars this1 /\
  scene this2 = scene this1.
Proof.
  intros Hr Hdiv Ha Hf.
  destruct (animate_cases _ _ _ Ha) as (u & Hu & E).
  assert (Hs : Settled this1).
  { rewrite E. apply animateAetherytes_Settled.
    apply (sweep_Settled (set_camera this cam) u);
      [now apply reach_move|exact Hu|exact Hdiv]. }
  assert (Ecam : camera this1 = cam).
  { destruct (animate_frame _ _ _ Ha) as [_ Hv]. apply Hv. }
  rewrite <- Ecam in Hf. exact (rest_frames n _ _ Hs Hf).
Qed.


End Further.

(** * The further properties at concrete states *)

(** The stand-in square root falls short of the exact one by less than a
    thousandth. *)
Lemma sqrt_approx_lower (u v : Q) :
  0 <= u -> u * u <= v -> u <= Host.sqrt_approx v + 1.
Proof.
  intros Hu Huv. unfold Host.sqrt_approx.
  set (n := Qfloor (v * 1000000)).
  assert (Hn : (0 <= n)%Z).
  { apply (Qfloor_resp_le 0 (v * 1000000)).
    pose proof (Qsquare_nonneg u). lra. }
  destruct (Z.sqrt_spec n Hn) as [_ Hs].
  pose proof (Z.sqrt_nonneg n) as Hs0.
  set (s := Z.sqrt n) in *.
  pose proof (Qlt_floor (v * 1000000)) as Hv. fold n in Hv.
  assert (Hw : inject_Z (n + 1) <= inject_Z ((s + 1) * (s + 1)))
    by (rewrite <- Zle_Qle; unfold Z.succ in Hs; lia).
  rewrite inject_Z_mult in Hw.
  set (w := inject_Z (s + 1)) in *.
  assert (Hw0 : 1 <= w).
  { unfold w. change 1 with (inject_Z 1). rewrite <- Zle_Qle. lia. }
  assert (Hlt : 1000 * u < w).
  { destruct (Qlt_le_dec (1000 * u) w) as [H|H]; [exact H|exfalso].
    assert (Hpos : 0 < w) by lra.
    assert (A : w * w <= w * (1000 * u))
      by (apply (proj2 (Qmult_le_l w (1000 * u) w Hpos)); exact H).
    assert (B : w * (1000 * u) <= 1000 * u * (1000 * u))
      by (apply Qmult_le_compat_r; lra).
    assert (E : 1000 * u * (1000 * u) == u * u * 1000000) by ring.
    lra. }
  unfold w in Hlt. rewrite inject_Z_plus in Hlt.
  change (inject_Z 1) with 1 in Hlt.
  assert (E : inject_Z s / 1000 == inject_Z s * (1 # 1000)) by field.
  rewrite E. lra.
Qed.

Lemma second_sweep_reachable : reachable (host := Host.approx) Host.second_sweep.
Proof.
  exact (reach_update _ _ second_sweep_due_reachable second_sweep_update).
Qed.

Lemma second_sweep_divides : (10 | frameCount Host.second_sweep_due + 1)%Z.
Proof. exists 2%Z. reflexivity. Qed.

(** The downgraded star of the cell (0, 0, 0) after the second sweep. *)
Lemma active_set_well_placed_witness :
  exists x y z,
    gridKey (userData Scenes.downgraded_star) = cellKey x y z /\
    shouldHaveAetheryte (host := Host.approx) Host.second_sweep
      (mkGridPos x y z) = true /\
    originalPosition (userData Scenes.downgraded_star)
      = Some (gridToWorld (host := Host.approx) Host.second_sweep
                (mkGridPos x y z)).
Proof.
  apply (active_set_well_placed (host := Host.approx) Host.second_sweep
           Scenes.downgraded_star second_sweep_reachable).
  left. apply (nth_error_In _ 26). vm_compute. reflexivity.
Defined.

(** The cell (1, 0, 1) at the second sweep: at distance 108.865 it is loaded
    and has no star. *)
Lemma one_representation_per_candidate_witness :
  (In (cellKey 1 0 1) (keysOf (loadedAetherytes Host.second_sweep)) /\
   ~ In (cellKey 1 0 1) (starKeys (distantStars Host.second_sweep)) \/
   ~ In (cellKey 1 0 1) (keysOf (loadedAetherytes Host.second_sweep)) /\
   In (cellKey 1 0 1) (starKeys (distantStars Host.second_sweep))) /\
  NoDup (keysOf (loadedAetherytes Host.second_sweep)) /\
  NoDup (starKeys (distantStars Host.second_sweep)) /\
  (cellDistance (host := Host.approx) Host.second_sweep_due 1 0 1
     < detailDistance Host.second_sweep_due ->
   In (cellKey 1 0 1) (keysOf (loadedAetherytes Host.second_sweep))) /\
  (detailDistance Host.second_sweep_due * 1.2
     < cellDistance (host := Host.approx) Host.second_sweep_due 1 0 1 ->
   In (cellKey 1 0 1) (starKeys (distantStars Host.second_sweep))).
Proof.
  apply (one_representation_per_candidate (host := Host.approx)
           Host.second_sweep_due Host.second_sweep (mkGridPos 0 0 2)
           (300 / 100) 1 0 1
           second_sweep_due_reachable second_sweep_update
           second_sweep_divides).
  - vm_compute. reflexivity.
  - vm_compute. reflexivity.
  - vm_compute. intuition discriminate.
  - vm_compute. reflexivity.
Defined.

(** The object of the cell (1, 0, 1) after the second sweep. *)
Lemma loaded_within_detail_band_witness :
  exists orig,
    originalPosition (userData Scenes.near_crystal) = Some orig /\
    distanceTo (host := Host.approx)
      (cam_position (camera Host.second_sweep)) orig
      <= detailDistance Host.second_sweep * 1.2.
Proof.
  apply (loaded_within_detail_band (host := Host.approx)
           Host.second_sweep_due Host.second_sweep "1,0,1"%string
           Scenes.near_crystal
           second_sweep_due_reachable second_sweep_update
           second_sweep_divides).
  left. vm_compute. reflexivity.
Defined.

(** The key of the cell (1, 0, 1) is new after the second sweep. *)
Lemma new_keys_are_candidates_witness :
  (10 | frameCount Host.second_sweep_due + 1)%Z /\
  exists c q x y z,
    getGridPosition Host.second_sweep_due
      (cam_position (camera Host.second_sweep_due)) = Some c /\
    js_div (renderDistance Host.second_sweep_due)
           (gridSize Host.second_sweep_due) = Some q /\
    inCube c (Math_ceil q) x y z /\
    "1,0,1"%string = cellKey x y z /\
    candidate (host := Host.approx) Host.second_sweep_due x y z = true.
Proof.
  apply (new_keys_are_candidates (host := Host.approx)
           Host.second_sweep_due Host.second_sweep "1,0,1"%string
           second_sweep_due_reachable second_sweep_update).
  - left. left. vm_compute. reflexivity.
  - vm_compute. intuition discriminate.
  - vm_compute. intuition discriminate.
Defined.

(** The candidate pass of the second sweep, run twice. *)
Lemma candidate_pass_idempotent_witness :
  visitCells (host := Host.approx)
    (visitCells (host := Host.approx) Host.second_sweep_due
       (mkGridPos 0 0 2) 3)
    (mkGridPos 0 0 2) 3
  = visitCells (host := Host.approx) Host.second_sweep_due
      (mkGridPos 0 0 2) 3.
Proof.
  apply (candidate_pass_idempotent (host := Host.approx)
           Host.second_sweep_due (mkGridPos 0 0 2) 3).
  apply (reachable_Inv _ second_sweep_due_reachable).
Defined.

(** The cell (0, 0, 0) after the second sweep: its star is in the scene, its
    detailed object was added once and removed once. *)
Lemma scene_follows_active_set_witness :
  balance Star "0,0,0" (scene Host.second_sweep)
    = (if existsb (hasKey "0,0,0") (distantStars Host.second_sweep)
       then 1 else 0)%Z /\
  balance Aetheryte "0,0,0" (scene Host.second_sweep)
    = (if Map_has "0,0,0" (loadedAetherytes Host.second_sweep)
       then 1 else 0)%Z.
Proof.
  apply (scene_follows_active_set (host := Host.approx) Host.second_sweep
           "0,0,0"%string second_sweep_reachable).
Defined.



(** The cell (1, 0, 1) when the second sweep is due. *)
Lemma cube_covers_render_distance_witness :
  inCube (mkGridPos 0 0 2) (Math_ceil (300 / 100)) 1 0 1.
Proof.
  apply (cube_covers_render_distance (host := Host.approx)
           Host.second_sweep_due (mkGridPos 0 0 2) (300 / 100) 1 0 1
           sqrt_approx_lower second_sweep_due_reachable).
  - vm_compute. reflexivity.
  - vm_compute. reflexivity.
  - vm_compute. discriminate.
Defined.

(** The frame of the second sweep and the ten frames after it, the camera
    where it was: the tenth of them sweeps again. *)
Lemma active_set_settles_at_rest_witness :
  keysOf (loadedAetherytes Scenes.at_rest)
    = keysOf (loadedAetherytes Scenes.swept_frame) /\
  distantStars Scenes.at_rest = distantStars Scenes.swept_frame /\
  scene Scenes.at_rest = scene Scenes.swept_frame.
Proof.
  apply (active_set_settles_at_rest (host := Host.approx) Host.turned
           Host.second_sweep_due Scenes.swept_frame Scenes.at_rest 10
           second_sweep_due_reachable second_sweep_divides).
  - vm_compute. reflexivity.
  - vm_compute. reflexivity.
Defined.

(** The first eight frames of the page at rest. *)
Lemma empty_before_first_sweep_witness :
  frameCount Scenes.eighth_frame
    = (1 + Z.of_nat (List.length (repeat (Host.lookDownZ Host.home) 8)))%Z /\
  loadedAetherytes Scenes.eighth_frame = [] /\
  distantStars Scenes.eighth_frame = [] /\
  scene Scenes.eighth_frame = [].
Proof.
  apply (empty_before_first_sweep (host := Host.approx)
           (containsPoint (Host.lookDownZ Host.home))
           (repeat (Host.lookDownZ Host.home) 8)
           Host.loaded_page Scenes.eighth_frame).
  - vm_compute. reflexivity.
  - vm_compute. reflexivity.
  - simpl. lia.
Defined.

(** The downgraded star of the cell (0, 0, 0) after the second sweep. *)
Lemma stars_stand_at_placement_witness :
  rotation Scenes.downgraded_star = mkVector3 0 0 0 /\
  exists x y z,
    gridKey (userData Scenes.downgraded_star) = cellKey x y z /\
    position Scenes.downgraded_star
      = gridToWorld (host := Host.approx) Host.second_sweep
          (mkGridPos x y z).
Proof.
  apply (stars_stand_at_placement (host := Host.approx) Host.second_sweep
           Scenes.downgraded_star second_sweep_reachable).
  apply (nth_error_In _ 26). vm_compute. reflexivity.
Defined.

(** * Properties of the page script *)

Lemma hasComma_app (s r : string) :
  hasComma (s ++ String "," r) = true.
Proof.
  induction s as [|c s IH]; simpl; [reflexivity|].
  rewrite IH. apply orb_true_r.
Qed.

Lemma join_cons (a b : string) (l : list string) :
  Konami.join (a :: b :: l) = (a ++ String "," (Konami.join (b :: l)))%string.
Proof. reflexivity. Qed.

(** On lists of keys without commas [join] loses nothing, the empty list
    apart. *)
Lemma join_inj (l l' : list string) :
  Konami.commaFree l -> Konami.commaFree l' ->
  l <> [] -> l' <> [] ->
  Konami.join l = Konami.join l' -> l = l'.
Proof.
  unfold Konami.commaFree. revert l'.
  induction l as [|a l IH]; intros l' Hl Hl' Hn Hn' E; [contradiction|].
  destruct l' as [|a' l']; [contradiction|].
  inversion Hl as [|? ? Ha Hl1]; subst.
  inversion Hl' as [|? ? Ha' Hl1']; subst.
  destruct l as [|b l], l' as [|b' l'].
  - simpl in E. now subst.
  - rewrite join_cons in E. change (Konami.join [a]) with a in E. subst a.
    rewrite hasComma_app in Ha. discriminate.
  - rewrite join_cons in E. change (Konami.join [a']) with a' in E. subst a'.
    rewrite hasComma_app in Ha'. discriminate.
  - rewrite !join_cons in E.
    destruct (comma_split _ _ _ _ Ha Ha' E) as [-> E'].
    f_equal. apply IH; auto; discriminate.
Qed.

Lemma slice_last_length {A : Type} (n : nat) (l : list A) :
  (List.length (Konami.slice_last n l) <= n)%nat.
Proof. unfold Konami.slice_last. rewrite length_skipn. lia. Qed.

Lemma slice_last_app {A : Type} (n : nat) (l : list A) (a : A) :
  Konami.slice_last (S n) (Konami.slice_last (S n) l ++ [a])
    = Konami.slice_last (S n) (l ++ [a]).
Proof.
  unfold Konami.slice_last.
  rewrite !length_app, length_skipn. cbn [List.length].
  destruct (Nat.le_gt_cases (List.length l) (S n)) as [H|H].
  - replace (List.length l - S n)%nat with 0%nat by lia. cbn [skipn].
    now replace (List.length l - 0)%nat with (List.length l) by lia.
  - replace (List.length l - (List.length l - S n) + 1 - S n)%nat with 1%nat
      by lia.
    rewrite (skipn_app (List.length l + 1 - S n)).
    replace (List.length l + 1 - S n - List.length l)%nat with 0%nat by lia.
    rewrite (skipn_app 1). rewrite length_skipn.
    replace (1 - (List.length l - (List.length l - S n)))%nat with 0%nat
      by lia.
    change (skipn 0 [a]) with [a]. f_equal.
    rewrite skipn_skipn. f_equal. lia.
Qed.

Lemma press_snoc (keys code : list string) (key : string) :
  Konami.press (keys ++ [key]) code
    = fst (Konami.keydown key (Konami.press keys code)).
Proof. unfold Konami.press. now rewrite fold_left_app. Qed.

Lemma press_last_ten (keys : list string) :
  Konami.press keys [] = Konami.slice_last 10 keys.
Proof.
  induction keys as [|key keys IH] using rev_ind; [reflexivity|].
  rewrite press_snoc, IH. cbn [Konami.keydown fst].
  apply slice_last_app.
Qed.

Lemma commaFree_slice (n : nat) (l : list string) :
  Konami.commaFree l -> Konami.commaFree (Konami.slice_last n l).
Proof.
  unfold Konami.commaFree, Konami.slice_last. rewrite !Forall_forall.
  intros H x Hx. apply H.
  rewrite <- (firstn_skipn (List.length l - n) l). apply in_app_iff. auto.
Qed.

Lemma slice_last_nonempty {A : Type} (n : nat) (l : list A) (a : A) :
  Konami.slice_last (S n) (l ++ [a]) <> [].
Proof.
  unfold Konami.slice_last. intro E.
  apply (f_equal (@List.length A)) in E.
  rewrite length_skipn, length_app in E. cbn in E. lia.
Qed.

(** The buffer holds the last ten keys pressed, and a key press calls
    [activateMatrixMode] exactly when these are the ten keys of the pattern,
    as long as no key name contains a comma. *)
Theorem konami_fires_on_pattern (keys : list string) (key : string) :
  Konami.commaFree (keys ++ [key]) ->
  fst (Konami.keydown key (Konami.press keys []))
    = Konami.slice_last 10 (keys ++ [key]) /\
  (snd (Konami.keydown key (Konami.press keys [])) = true <->
   Konami.slice_last 10 (keys ++ [key]) = Konami.konamiPattern).
Proof.
  intro Hcf. rewrite press_last_ten. cbn [Konami.keydown fst snd].
  rewrite slice_last_app. split; [reflexivity|].
  rewrite String.eqb_eq. split.
  - apply join_inj.
    + now apply commaFree_slice.
    + repeat constructor.
    + apply slice_last_nonempty.
    + discriminate.
  - now intros ->.
Qed.



(** Typing the ten keys of the pattern fires it, whatever was typed before. *)
Lemma konami_pattern_fires (keys : list string) :
  snd (Konami.keydown "a"
         (Konami.press (keys ++ removelast Konami.konamiPattern) [])) = true.
Proof.
  rewrite press_last_ten. cbn [Konami.keydown snd].
  rewrite slice_last_app. rewrite <- app_assoc.
  unfold Konami.slice_last. rewrite length_app.
  replace (List.length keys
           + List.length (removelast Konami.konamiPattern ++ ["a"%string])
           - 10)%nat
    with (List.length keys) by (cbn; lia).
  rewrite skipn_app, skipn_all, Nat.sub_diag. reflexivity.
Qed.

(** * Properties of the flight controls *)

Section ControlsFacts.

Context {host : Math} {trig : Trig}.

Import Controls.

Lemma clamp_inside (m a : Q) :
  - m < a -> a < m -> Math_max (- m) (Math_min m a) = a.
Proof.
  intros H1 H2. unfold Math_max, Math_min.
  destruct (Qle_bool m a) eqn:E1.
  - apply Qle_bool_iff in E1. lra.
  - destruct (Qle_bool (- m) a) eqn:E2; [reflexivity|].
    assert (E3 : Qle_bool (- m) a = true) by (apply Qle_bool_iff; lra).
    congruence.
Qed.

Lemma updateMovement_Turning (forward : Vector3) (this : Controls) :
  Turning this -> Turning (updateMovement forward this).
Proof.
  intros (Ha & Hm & Hd & Hx & Hy & Hz).
  unfold updateMovement. destruct (autoPilot this); [unfold Turning; tauto|].
  apply Qabs_Qle_condition in Hx, Hy.
  unfold Turning.
  cbn [set_motion rotationalAcceleration maxRotationSpeed rotationalDamping
       rotationalVelocity vec_x vec_y vec_z Vec.multiplyScalar].
  rewrite Ha, Hm, Hd.
  split; [reflexivity|]. split; [reflexivity|]. split; [reflexivity|].
  destruct (keys this) as [kw ka ks kd ku kn kl kr].
  cbn [key_a key_d key_ArrowUp key_ArrowDown key_ArrowLeft key_ArrowRight].
  split; [|split].
  - destruct ku, kn; rewrite clamp_inside by lra;
      apply Qabs_Qle_condition; lra.
  - destruct ka, kd, kl, kr; rewrite clamp_inside by lra;
      apply Qabs_Qle_condition; lra.
  - rewrite clamp_inside by lra. lra.
Qed.

Lemma updateAutoPilot_rotation (now deltaTime : Q) (this : Controls) :
  rotationalVelocity (updateAutoPilot now deltaTime this)
    = rotationalVelocity this /\
  rotationalAcceleration (updateAutoPilot now deltaTime this)
    = rotationalAcceleration this /\
  maxRotationSpeed (updateAutoPilot now deltaTime this)
    = maxRotationSpeed this /\
  rotationalDamping (updateAutoPilot now deltaTime this)
    = rotationalDamping this /\
  idleThreshold (updateAutoPilot now deltaTime this) = idleThreshold this /\
  idleTimer (updateAutoPilot now deltaTime this) = idleTimer this.
Proof.
  unfold updateAutoPilot.
  destruct (negb (autoPilot this) && Qgtb _ _); cbn;
    destruct (autoPilot this); cbn; tauto.
Qed.

Lemma handle_Turning (this : Controls) (e : Event) :
  Turning this -> Turning (handle this e).
Proof.
  intro H. destruct e as [key now|key|now pilotNow forward]; cbn [handle].
  - unfold keydown. destruct (hasOwnProperty key); [|exact H].
    unfold resetIdleTimer. cbn. destruct (autoPilot this); exact H.
  - unfold keyup. destruct (hasOwnProperty key); exact H.
  - unfold animate. apply updateMovement_Turning.
    set (this1 := if Qeq_bool (idleTimer this) 0
                  then set_idleTimer this now else this).
    assert (H1 : Turning this1) by (unfold this1; destruct (Qeq_bool _ _); exact H).
    destruct (updateAutoPilot_rotation pilotNow 16 this1)
      as (E1 & E2 & E3 & E4 & _).
    unfold Turning. rewrite E1, E2, E3, E4. exact H1.
Qed.

(** Whatever the keys, the clock and the camera do, the rotational velocity
    never comes near [maxRotationSpeed]: pitch stays within 0.0085 and yaw
    within 17/1200 per frame, and there is no roll.  The clamp of
    [updateMovement] never cuts a value. *)
Theorem rotation_stays_below_limit (events : list Event) :
  Qabs (vec_x (rotationalVelocity (run events new_Controls))) <= 0.0085 /\
  Qabs (vec_y (rotationalVelocity (run events new_Controls))) <= 17 # 1200 /\
  vec_z (rotationalVelocity (run events new_Controls)) == 0 /\
  maxRotationSpeed (run events new_Controls) = 0.04.
Proof.
  assert (H : Turning (run events new_Controls)).
  { unfold run.
    assert (H0 : Turning new_Controls).
    { unfold Turning. cbn. repeat split; try reflexivity; discriminate. }
    revert H0. generalize new_Controls.
    induction events as [|e events IH]; intros c Hc; cbn [fold_left];
      [exact Hc|].
    apply IH. now apply handle_Turning. }
  destruct H as (_ & Hm & _ & Hx & Hy & Hz). auto.
Qed.

(** A frame on auto-pilot pulls the camera towards the box of the path: the
    distance of each coordinate from the centre of the path shrinks by a
    fiftieth, up to a fiftieth of the path's radius.  The velocity is the
    step the camera made. *)
Theorem autopilot_pulls_towards_path (now deltaTime : Q) (this : Controls) :
  (forall a, -1 <= Math_sin a <= 1) ->
  (forall a, -1 <= Math_cos a <= 1) ->
  autoPilot (updateAutoPilot now deltaTime this) = true ->
  Qabs (vec_x (camera_position (updateAutoPilot now deltaTime this)))
    <= 0.98 * Qabs (vec_x (camera_position this)) + 3 /\
  Qabs (vec_y (camera_position (updateAutoPilot now deltaTime this)) - 50)
    <= 0.98 * Qabs (vec_y (camera_position this) - 50) + 1.5 /\
  Qabs (vec_z (camera_position (updateAutoPilot now deltaTime this)))
    <= 0.98 * Qabs (vec_z (camera_position this)) + 3 /\
  velocity (updateAutoPilot now deltaTime this)
    = Vec.subVectors (camera_position (updateAutoPilot now deltaTime this))
                     (camera_position this) /\
  previousCameraPosition (updateAutoPilot now deltaTime this)
    = camera_position this.
Proof.
  intros Hsin Hcos. unfold updateAutoPilot.
  set (this1 := if negb (autoPilot this) && Qgtb _ _ then _ else this).
  assert (E1 : camera_position this1 = camera_position this)
    by (unfold this1; now destruct (negb (autoPilot this) && Qgtb _ _)).
  destruct (autoPilot this1) eqn:Hp; [intros _|intro H; congruence].
  cbn [set_motion set_pilot camera_position velocity previousCameraPosition
       autoPilotTime vec_x vec_y vec_z].
  rewrite E1.
  set (t := autoPilotTime this1 + deltaTime * 0.001).
  pose proof (Hsin (t * 0.15)) as Sx. pose proof (Hsin (t * 0.23)) as Sy.
  pose proof (Hcos (t * 0.19)) as Sz.
  split; [|split; [|split; [|split; reflexivity]]].
  - apply Qabs_case; intros; apply Qabs_case; intros; lra.
  - apply Qabs_case; intros; apply Qabs_case; intros; lra.
  - apply Qabs_case; intros; apply Qabs_case; intros; lra.
Qed.

Lemma handle_idleThreshold (this : Controls) (e : Event) :
  idleThreshold (handle this e) = idleThreshold this.
Proof.
  destruct e as [key now|key|now pilotNow forward]; cbn [handle].
  - unfold keydown. destruct (hasOwnProperty key); [|reflexivity].
    unfold resetIdleTimer. cbn. now destruct (autoPilot this).
  - unfold keyup. now destruct (hasOwnProperty key).
  - unfold animate, updateMovement.
    set (this1 := if Qeq_bool (idleTimer this) 0
                  then set_idleTimer this now else this).
    assert (E : idleThreshold this1 = idleThreshold this)
      by (unfold this1; now destruct (Qeq_bool _ _)).
    destruct (updateAutoPilot_rotation pilotNow 16 this1)
      as (_ & _ & _ & _ & E' & _).
    destruct (autoPilot (updateAutoPilot pilotNow 16 this1)); cbn; congruence.
Qed.

Lemma handle_manual (since span : Q) (this : Controls) (e : Event) :
  0 < since -> timely since span e ->
  autoPilot this = false /\ since <= idleTimer this /\
  idleThreshold this = span ->
  autoPilot (handle this e) = false /\ since <= idleTimer (handle this e) /\
  idleThreshold (handle this e) = span.
Proof.
  intros Hpos Ht (Hp & Hi & Hs).
  split; [|split; [|now rewrite handle_idleThreshold]];
    destruct e as [key now|key|now pilotNow forward]; cbn [handle timely] in *.
  - unfold keydown. destruct (hasOwnProperty key); [|exact Hp].
    unfold resetIdleTimer. cbn. now rewrite Hp.
  - unfold keyup. now destruct (hasOwnProperty key).
  - unfold animate.
    assert (E0 : Qeq_bool (idleTimer this) 0 = false).
    { destruct (Qeq_bool _ _) eqn:E; [|reflexivity].
      apply Qeq_bool_eq in E. lra. }
    rewrite E0. unfold updateAutoPilot. rewrite Hp.
    assert (E1 : Qgtb (pilotNow - idleTimer this) (idleThreshold this) = false)
      by (apply Qgtb_false; rewrite Hs; lra).
    rewrite E1. cbn [negb andb]. rewrite Hp.
    unfold updateMovement. now rewrite Hp.
  - unfold keydown. destruct (hasOwnProperty key); [|exact Hi].
    unfold resetIdleTimer. cbn. now rewrite Hp.
  - unfold keyup. now destruct (hasOwnProperty key).
  - unfold animate.
    assert (E0 : Qeq_bool (idleTimer this) 0 = false).
    { destruct (Qeq_bool _ _) eqn:E; [|reflexivity].
      apply Qeq_bool_eq in E. lra. }
    rewrite E0. unfold updateAutoPilot. rewrite Hp.
    assert (E1 : Qgtb (pilotNow - idleTimer this) (idleThreshold this) = false)
      by (apply Qgtb_false; rewrite Hs; lra).
    rewrite E1. cbn [negb andb]. rewrite Hp.
    unfold updateMovement. now rewrite Hp.
Qed.

(** Pressing a movement key ends the auto-pilot and keeps it off for the next
    [idleThreshold] milliseconds, whatever else happens in that time. *)
Theorem manual_control_after_key (this : Controls) (key : string) (now : Q)
    (events : list Event) :
  hasOwnProperty key = true ->
  0 < now ->
  Forall (timely now (idleThreshold this)) events ->
  autoPilot (run events (keydown key now this)) = false.
Proof.
  intros Hk Hpos Hev.
  assert (H0 : autoPilot (keydown key now this) = false /\
               now <= idleTimer (keydown key now this) /\
               idleThreshold (keydown key now this) = idleThreshold this).
  { unfold keydown. rewrite Hk. unfold resetIdleTimer. cbn.
    destruct (autoPilot this) eqn:Hp; cbn; rewrite ?Hp;
      repeat split; try reflexivity; apply Qle_refl. }
  revert H0. generalize (keydown key now this). unfold run.
  induction Hev as [|e events He _ IH]; intros c Hc; cbn [fold_left];
    [apply Hc|].
  apply IH. now apply (handle_manual now (idleThreshold this)).
Qed.

(** A frame that comes more than [idleThreshold] after the idle timer was set
    switches the auto-pilot on.  The keys held have no effect in that frame:
    the velocity is the step of the auto-pilot, and the rotational velocity
    stays as it was. *)
Theorem autopilot_engages_when_idle (now pilotNow : Q) (forward : Vector3)
    (this : Controls) :
  autoPilot this = false ->
  ~ idleTimer this == 0 ->
  idleThreshold this < pilotNow - idleTimer this ->
  autoPilot (animate now pilotNow forward this) = true /\
  autoPilotTime (animate now pilotNow forward this) == 0.016 /\
  velocity (animate now pilotNow forward this)
    = Vec.subVectors (camera_position (animate now pilotNow forward this))
                     (camera_position this) /\
  rotationalVelocity (animate now pilotNow forward this)
    = rotationalVelocity this.
Proof.
  intros Hp Hi Ht. unfold animate.
  assert (E0 : Qeq_bool (idleTimer this) 0 = false).
  { destruct (Qeq_bool _ _) eqn:E; [|reflexivity].
    apply Qeq_bool_eq in E. contradiction. }
  rewrite E0. unfold updateAutoPilot. rewrite Hp.
  assert (E1 : Qgtb (pilotNow - idleTimer this) (idleThreshold this) = true)
    by now apply Qgtb_true.
  rewrite E1. cbn [negb andb set_pilot set_motion autoPilot].
  unfold updateMovement. cbn [set_pilot set_motion autoPilot autoPilotTime
    velocity camera_position rotationalVelocity].
  repeat split.
Qed.

End ControlsFacts.

(** * Properties of the head-up display *)

Lemma Math_round_between (lo hi : Z) (v : Q) :
  inject_Z lo <= v -> v <= inject_Z hi -> (lo <= Math_round v <= hi)%Z.
Proof.
  intros H1 H2. unfold Math_round.
  pose proof (Qfloor_le (v + 0.5)) as F1.
  pose proof (Qlt_floor (v + 0.5)) as F2.
  rewrite inject_Z_plus in F2. change (inject_Z 1) with 1 in F2.
  assert (A : inject_Z lo < inject_Z (Qfloor (v + 0.5) + 1))
    by (rewrite inject_Z_plus; change (inject_Z 1) with 1; lra).
  assert (B : inject_Z (Qfloor (v + 0.5)) < inject_Z (hi + 1))
    by (rewrite inject_Z_plus; change (inject_Z 1) with 1; lra).
  rewrite <- Zlt_Qlt in A, B. lia.
Qed.

Lemma lerp_between (a b : Z) (t : Q) :
  0 <= t <= 1 ->
  (Z.min a b <= Math_round (inject_Z a + (inject_Z b - inject_Z a) * t)
   <= Z.max a b)%Z.
Proof.
  intros [H0 H1].
  assert (Hab : (a <= b)%Z \/ (b <= a)%Z) by lia.
  destruct Hab as [Hab|Hab].
  - rewrite Z.min_l, Z.max_r by lia.
    assert (Hq : inject_Z a <= inject_Z b) by now rewrite <- Zle_Qle.
    assert (P : 0 <= (inject_Z b - inject_Z a) * t)
      by (apply Qmult_le_0_compat; lra).
    assert (P' : t * (inject_Z b - inject_Z a) <= 1 * (inject_Z b - inject_Z a))
      by (apply Qmult_le_compat_r; lra).
    apply Math_round_between; lra.
  - rewrite Z.min_r, Z.max_l by lia.
    assert (Hq : inject_Z b <= inject_Z a) by now rewrite <- Zle_Qle.
    assert (P : 0 <= (inject_Z a - inject_Z b) * t)
      by (apply Qmult_le_0_compat; lra).
    assert (P' : t * (inject_Z a - inject_Z b) <= 1 * (inject_Z a - inject_Z b))
      by (apply Qmult_le_compat_r; lra).
    assert (E : (inject_Z b - inject_Z a) * t
                == - ((inject_Z a - inject_Z b) * t)) by ring.
    apply Math_round_between; lra.
Qed.

(** For [t] between 0 and 1 every channel of the interpolated colour lies
    between the channels of the two colours; the interpolation starts at the
    first colour and ends at the second. *)
Theorem lerpColor_interpolates (r1 g1 b1 r2 g2 b2 : Z) (t : Q) :
  0 <= t <= 1 ->
  (exists r g b,
     Hud.lerpColor (r1, g1, b1) (r2, g2, b2) t = (r, g, b) /\
     (Z.min r1 r2 <= r <= Z.max r1 r2)%Z /\
     (Z.min g1 g2 <= g <= Z.max g1 g2)%Z /\
     (Z.min b1 b2 <= b <= Z.max b1 b2)%Z) /\
  Hud.lerpColor (r1, g1, b1) (r2, g2, b2) 0 = (r1, g1, b1) /\
  Hud.lerpColor (r1, g1, b1) (r2, g2, b2) 1 = (r2, g2, b2).
Proof.
  intro Ht. split.
  - eexists _, _, _. split; [reflexivity|].
    auto using lerp_between.
  - assert (R : forall a b : Z,
              Math_round (inject_Z a + (inject_Z b - inject_Z a) * 0) = a /\
              Math_round (inject_Z a + (inject_Z b - inject_Z a) * 1) = b).
    { intros a b. unfold Math_round. split; apply Qfloor_unique; lra. }
    cbn [Hud.lerpColor].
    destruct (R r1 r2) as [-> ->], (R g1 g2) as [-> ->], (R b1 b2) as [-> ->].
    split; reflexivity.
Qed.

Lemma lerp_channel (a b : Z) (t : Q) :
  Hud.channel a -> Hud.channel b -> 0 <= t <= 1 ->
  Hud.channel (Math_round (inject_Z a + (inject_Z b - inject_Z a) * t)).
Proof.
  unfold Hud.channel. intros Ha Hb Ht.
  pose proof (lerp_between a b t Ht). lia.
Qed.

(** With the constructor's idle threshold of ten seconds a countdown that is
    shown is in range: the number is one of 1, ..., 10 and is the remaining
    time in seconds rounded up, the ring is at least empty and less than
    full, and the colour has proper channel values.  It is shown only while
    the clock is within the ten seconds after the idle timer. *)
Theorem countdown_in_range (now : Q) (this : Controls.Controls)
    (countdown : Z) (progress : Q) (r g b : Z) :
  Controls.idleThreshold this = 10000 ->
  Hud.drawAutoPilotCountdown now this
    = Some (Hud.Shown countdown progress (r, g, b)) ->
  (1 <= countdown <= 10)%Z /\
  countdown = Math_ceil (10 * (1 - progress)) /\
  0 <= progress < 1 /\
  progress == (now - Controls.idleTimer this) / 10000 /\
  Hud.channel r /\ Hud.channel g /\ Hud.channel b.
Proof.
  intros HT H. unfold Hud.drawAutoPilotCountdown in H.
  destruct (Controls.autoPilot this); [discriminate|].
  destruct (_ || _); [discriminate|].
  rewrite HT in H.
  set (tsi := now - Controls.idleTimer this) in *.
  destruct (Qle_bool 10000 tsi) eqn:E1; [discriminate|].
  assert (Hlt : tsi < 10000).
  { apply Qnot_le_lt. intro A. apply Qle_bool_iff in A. congruence. }
  destruct (Math_ceil ((10000 - tsi) / 1000) >? 10)%Z eqn:E2; [discriminate|].
  rewrite js_div_Some in H by discriminate. cbn [bind] in H.
  assert (Hn : (Math_ceil ((10000 - tsi) / 1000) <= 10)%Z) by lia.
  assert (Ec : Math_ceil (10 * (1 - tsi / 10000))
               = Math_ceil ((10000 - tsi) / 1000))
    by (apply Qceiling_comp; field).
  unfold Math_ceil in *.
  pose proof (Qle_ceiling ((10000 - tsi) / 1000)) as C1.
  pose proof (Qceiling_lt ((10000 - tsi) / 1000)) as C2.
  unfold Z.sub in C2. rewrite inject_Z_plus in C2.
  change (inject_Z (- (1))) with (-1 # 1) in C2.
  assert (C3 : inject_Z (Qceiling ((10000 - tsi) / 1000)) <= 10)
    by (change 10 with (inject_Z 10); now rewrite <- Zle_Qle).
  unfold Qdiv in *.
  change (/ 1000) with (1 # 1000) in *.
  change (/ 10000) with (1 # 10000) in *.
  change (/ 0.33) with (100 # 33) in *.
  change (/ 0.34) with (100 # 34) in *.
  assert (Hge : 0 <= tsi) by lra.
  assert (Hp : 0 <= tsi * (1 # 10000) < 1) by lra.
  assert (Hn1 : (1 <= Qceiling ((10000 - tsi) * (1 # 1000)))%Z).
  { assert (A : inject_Z 0 < inject_Z (Qceiling ((10000 - tsi) * (1 # 1000))))
      by (change (inject_Z 0) with 0; lra).
    rewrite <- Zlt_Qlt in A. lia. }
  assert (Hfin : progress = tsi * (1 # 10000) /\
                 countdown = Qceiling ((10000 - tsi) * (1 # 1000)) /\
                 Hud.channel r /\ Hud.channel g /\ Hud.channel b).
  { destruct (Qltb (tsi * (1 # 10000)) 0.33) eqn:B1.
    - injection H as <- <- <- <- <-. split; [reflexivity|]. split; [reflexivity|].
      apply Qltb_true in B1.
      repeat split; apply lerp_channel; unfold Hud.channel; try lia; lra.
    - apply Qltb_false in B1.
      destruct (Qltb (tsi * (1 # 10000)) 0.66) eqn:B2.
      + injection H as <- <- <- <- <-. split; [reflexivity|]. split; [reflexivity|].
        apply Qltb_true in B2.
        repeat split; apply lerp_channel; unfold Hud.channel; try lia; lra.
      + injection H as <- <- <- <- <-. split; [reflexivity|]. split; [reflexivity|].
        apply Qltb_false in B2.
        repeat split; apply lerp_channel; unfold Hud.channel; try lia; lra. }
  destruct Hfin as (-> & -> & Hr & Hg & Hb).
  split; [lia|]. split; [now rewrite Ec|].
  split; [exact Hp|]. split; [reflexivity|auto].
Qed.

(** * Properties of the drifting characters *)

Lemma times_Forall {A : Type} (P : A -> Prop) (body : Draw A)
    (random : nat -> Q) :
  (forall n, P (fst (body random n))) ->
  forall count n,
    Forall P (fst (times count body random n)) /\
    List.length (fst (times count body random n)) = count.
Proof.
  intros Hbody. induction count as [|count IH]; intro n; cbn [times].
  - split; [constructor|reflexivity].
  - unfold andThen. specialize (Hbody n).
    destruct (body random n) as [a n1].
    specialize (IH n1). destruct (times count body random n1) as [rest n2].
    cbn in *. destruct IH as [IH1 IH2]. split; [now constructor|now f_equal].
Qed.

Lemma returning_step (p v : Q) :
  Sprites.returning p v ->
  Sprites.returning (p + v) (Sprites.bounce (p + v) v).
Proof.
  unfold Sprites.returning, Sprites.bounce. intros [Hin Hv].
  destruct (Qgtb (Qabs (p + v)) 100) eqn:E.
  - apply Qgtb_true in E. split.
    + destruct Hin as [Hin|Hin]; [|lra]. right.
      assert (Ep : p + v + v * -1 == p) by ring. now rewrite Ep.
    + assert (Ev : v * -1 == - v) by ring. rewrite Ev, Qabs_opp. exact Hv.
  - apply Qgtb_false in E. split; [now left|exact Hv].
Qed.

Lemma returning_near (p v : Q) :
  Sprites.returning p v -> Qabs p <= 100.025.
Proof.
  unfold Sprites.returning. intros [[Hin|Hin] Hv]; [lra|].
  revert Hin Hv. apply Qabs_case; intros; revert Hin Hv;
    apply Qabs_case; intros; revert Hin Hv; apply Qabs_case; intros; lra.
Qed.

Lemma animateSprite_Confined (sprite : Sprites.Sprite) :
  Sprites.Confined sprite -> Sprites.Confined (Sprites.animateSprite sprite).
Proof.
  intros (Hx & Hy & Hz). unfold Sprites.Confined, Sprites.animateSprite.
  cbn. auto using returning_step.
Qed.

Lemma after_Confined (frames : nat) :
  forall sprites,
    Forall Sprites.Confined sprites ->
    Forall Sprites.Confined (Sprites.after frames sprites) /\
    List.length (Sprites.after frames sprites) = List.length sprites.
Proof.
  induction frames as [|frames IH]; intros sprites H; cbn [Sprites.after].
  - auto.
  - destruct (IH (Sprites.animateSprites sprites)) as [IH1 IH2].
    + unfold Sprites.animateSprites. apply Forall_map.
      eapply Forall_impl; [|exact H]. apply animateSprite_Confined.
    + split; [exact IH1|]. rewrite IH2. apply length_map.
Qed.

Lemma newAsciiSprite_Confined (random : nat -> Q) (n : nat) :
  unitInterval random ->
  Sprites.Confined (fst (Sprites.newAsciiSprite random n)).
Proof.
  intro Hr. unfold Sprites.newAsciiSprite, pick, andThen, Math_random, ret.
  cbn [fst].
  unfold Sprites.Confined, Sprites.returning.
  cbn [Sprites.sprite_position Sprites.sprite_velocity vec_x vec_y vec_z].
  pose proof (Hr (S (S n))). pose proof (Hr (S (S (S n)))).
  pose proof (Hr (S (S (S (S n))))).
  pose proof (Hr (S (S (S (S (S (S (S n)))))))).
  pose proof (Hr (S (S (S (S (S (S (S (S n))))))))).
  pose proof (Hr (S (S (S (S (S (S (S (S (S n)))))))))).
  repeat split; try left; apply Qabs_Qle_condition; lra.
Qed.

(** The eighty sprites stay in their box for good: if [Math.random] returns
    values in [0, 1), then after any number of frames every coordinate of
    every sprite is within 100.025 of the origin, and eighty there are. *)
Theorem sprites_stay_in_box (random : nat -> Q) (n frames : nat)
    (sprite : Sprites.Sprite) :
  unitInterval random ->
  In sprite (Sprites.after frames (fst (Sprites.createAsciiSprites random n))) ->
  Qabs (vec_x (Sprites.sprite_position sprite)) <= 100.025 /\
  Qabs (vec_y (Sprites.sprite_position sprite)) <= 100.025 /\
  Qabs (vec_z (Sprites.sprite_position sprite)) <= 100.025 /\
  List.length (Sprites.after frames (fst (Sprites.createAsciiSprites random n)))
    = 80%nat.
Proof.
  intros Hr Hin.
  destruct (times_Forall Sprites.Confined Sprites.newAsciiSprite random
              (fun k => newAsciiSprite_Confined random k Hr) 80 n)
    as [Hall Hlen].
  fold Sprites.createAsciiSprites in Hall, Hlen.
  destruct (after_Confined frames _ Hall) as [Hc Hl].
  rewrite Forall_forall in Hc. destruct (Hc sprite Hin) as (Hx & Hy & Hz).
  rewrite Hl, Hlen.
  split; [apply (returning_near _ _ Hx)|].
  split; [apply (returning_near _ _ Hy)|].
  split; [apply (returning_near _ _ Hz)|reflexivity].
Qed.

(** * Properties of the floating debris *)

Lemma pick_defined {A : Type} (array : list A) (random : nat -> Q) (n : nat) :
  unitInterval random -> array <> [] ->
  exists a, fst (pick array random n) = Some a /\ In a array.
Proof.
  intros Hr Hne. unfold pick, andThen, Math_random, ret. cbn [fst].
  destruct (Hr n) as [H0 H1].
  set (len := inject_Z (Z.of_nat (List.length array))).
  assert (Hlen : 0 < len).
  { unfold len. change 0 with (inject_Z 0). rewrite <- Zlt_Qlt.
    destruct array; [contradiction|cbn; lia]. }
  assert (P0 : 0 <= random n * len) by (apply Qmult_le_0_compat; lra).
  assert (P1 : random n * len < 1 * len)
    by (apply Qmult_lt_compat_r; lra).
  unfold Math_floor.
  pose proof (Qfloor_le (random n * len)) as F.
  assert (F0 : (0 <= Qfloor (random n * len))%Z)
    by (apply (Qfloor_resp_le 0 _ P0)).
  assert (F1 : (Qfloor (random n * len) < Z.of_nat (List.length array))%Z).
  { rewrite Zlt_Qlt. fold len. lra. }
  unfold array_at.
  destruct (Qfloor (random n * len) <? 0)%Z eqn:E; [lia|].
  destruct (nth_error array (Z.to_nat (Qfloor (random n * len)))) as [a|] eqn:En.
  - exists a. split; [reflexivity|]. eapply nth_error_In; eauto.
  - apply nth_error_None in En. lia.
Qed.

Lemma times_length {A : Type} (body : Draw A) (random : nat -> Q)
    (count n : nat) :
  List.length (fst (times count body random n)) = count.
Proof.
  apply (times_Forall (fun _ => True) body random (fun _ => I) count n).
Qed.

Lemma pushAll_spec (created : list Debris.Particle) :
  forall this,
    Debris.floatingDebris (Debris.pushAll created this)
      = Debris.floatingDebris this ++ created /\
    Debris.present (Debris.debris_scene (Debris.pushAll created this))
      = (Debris.present (Debris.debris_scene this)
         + Z.of_nat (List.length created))%Z.
Proof.
  unfold Debris.pushAll.
  induction created as [|d created IH]; intro this; cbn [fold_left].
  - rewrite app_nil_r. cbn. split; [reflexivity|lia].
  - destruct (IH (Debris.mkField (Debris.floatingDebris this ++ [d])
                    (Debris.Added d :: Debris.debris_scene this)))
      as [E1 E2].
    rewrite E1, E2. cbn [Debris.floatingDebris Debris.debris_scene
                         Debris.present List.length].
    rewrite <- app_assoc. split; [reflexivity|lia].
Qed.

Section DebrisFacts.

Context {host : Math} {trig : Trig}.

Lemma visit_kept (cam : Camera) (debris : Debris.Particle) :
  snd (Debris.visit cam debris) = true ->
  Debris.near cam (fst (Debris.visit cam debris)).
Proof.
  unfold Debris.visit, Debris.near.
  set (pos := match Debris.debris_velocity debris with
              | Some v => _ | None => _ end).
  destruct (Qgtb (distanceTo (cam_position cam) pos) 250) eqn:E1;
    [discriminate|].
  apply Qgtb_false in E1. cbn [orb].
  destruct (containsPoint cam pos) eqn:E2; cbn [negb andb fst snd
    Debris.debris_position]; [intros _; auto|].
  destruct (Qgtb (distanceTo (cam_position cam) pos) 100) eqn:E3;
    [discriminate|].
  apply Qgtb_false in E3. cbn [fst Debris.debris_position]. auto.
Qed.

Lemma removals_counted (visited : list (Debris.Particle * bool)) :
  forall scene,
    Debris.present
      (fold_left
         (fun scene (v : Debris.Particle * bool) =>
            if snd v then scene else Debris.Removed (fst v) :: scene)
         visited scene)
    = (Debris.present scene - Z.of_nat (List.length visited)
       + Z.of_nat (List.length (filter snd visited)))%Z.
Proof.
  induction visited as [|[d b] visited IH]; intro scene; cbn [fold_left].
  - cbn. lia.
  - rewrite IH. destruct b; cbn [snd fst filter List.length Debris.present];
      lia.
Qed.

(** What one update leaves in the field: first the particles it kept, moved
    by their velocity and all close enough to the camera, within 250 and
    within 100 when outside the frustum; then five new ones if fewer than
    200 were kept, and none otherwise. *)
Theorem debris_update_shape (cam : Camera) (forward right up : Vector3)
    (this : Debris.Field) (random : nat -> Q) (n : nat) :
  exists kept spawned,
    Debris.floatingDebris
      (fst (Debris.updateFloatingDebris cam forward right up this random n))
      = kept ++ spawned /\
    (List.length kept <= List.length (Debris.floatingDebris this))%nat /\
    Forall (Debris.near cam) kept /\
    ((List.length kept < 200)%nat /\ List.length spawned = 5%nat \/
     (200 <= List.length kept)%nat /\ spawned = []).
Proof.
  unfold Debris.updateFloatingDebris.
  set (visited := map (Debris.visit cam) (Debris.floatingDebris this)).
  set (kept := map fst (filter snd visited)).
  exists kept.
  assert (Hlen : (List.length kept <= List.length (Debris.floatingDebris this))%nat).
  { unfold kept, visited. rewrite length_map.
    etransitivity; [apply filter_length_le|]. now rewrite length_map. }
  assert (Hnear : Forall (Debris.near cam) kept).
  { unfold kept, visited. apply Forall_forall. intros d Hd.
    apply in_map_iff in Hd. destruct Hd as ([d' b] & <- & Hd).
    apply filter_In in Hd. destruct Hd as [Hd Hb]. cbn in Hb. subst b.
    apply in_map_iff in Hd. destruct Hd as (d0 & E & _).
    cbn [fst]. replace d' with (fst (Debris.visit cam d0)) by now rewrite E.
    apply visit_kept. now rewrite E. }
  cbn [Debris.floatingDebris]. fold kept.
  destruct (List.length kept <? 200)%nat eqn:E.
  - apply Nat.ltb_lt in E. unfold andThen.
    destruct (times 5 (Debris.spawn cam forward right up) random n)
      as [created n'] eqn:Ec.
    exists created. cbn [ret fst].
    destruct (pushAll_spec created
                (Debris.mkField kept
                   (fold_left
                      (fun scene (v : Debris.Particle * bool) =>
                         if snd v then scene
                         else Debris.Removed (fst v) :: scene)
                      visited (Debris.debris_scene this)))) as [E1 _].
    rewrite E1. cbn [Debris.floatingDebris].
    split; [reflexivity|]. split; [exact Hlen|]. split; [exact Hnear|].
    left. split; [exact E|].
    pose proof (times_length (Debris.spawn cam forward right up) random 5 n)
      as L.
    now rewrite Ec in L.
  - apply Nat.ltb_ge in E. exists []. cbn [ret fst Debris.floatingDebris].
    rewrite app_nil_r.
    split; [reflexivity|]. split; [exact Hlen|]. split; [exact Hnear|].
    right. split; [exact E|reflexivity].
Qed.

Lemma update_counts (cam : Camera) (forward right up : Vector3)
    (this : Debris.Field) (random : nat -> Q) (n : nat) :
  (List.length (Debris.floatingDebris this) <= 300)%nat ->
  Debris.present (Debris.debris_scene this)
    = Z.of_nat (List.length (Debris.floatingDebris this)) ->
  (List.length
     (Debris.floatingDebris
        (fst (Debris.updateFloatingDebris cam forward right up this random n)))
   <= 300)%nat /\
  Debris.present
    (Debris.debris_scene
       (fst (Debris.updateFloatingDebris cam forward right up this random n)))
  = Z.of_nat
      (List.length
         (Debris.floatingDebris
            (fst (Debris.updateFloatingDebris cam forward right up this
                    random n)))).
Proof.
  intros H300 Hsync. unfold Debris.updateFloatingDebris.
  set (visited := map (Debris.visit cam) (Debris.floatingDebris this)).
  set (kept := map fst (filter snd visited)).
  set (scene := fold_left _ visited (Debris.debris_scene this)).
  assert (Hlen : (List.length kept <= List.length (Debris.floatingDebris this))%nat).
  { unfold kept, visited. rewrite length_map.
    etransitivity; [apply filter_length_le|]. now rewrite length_map. }
  assert (Hscene : Debris.present scene = Z.of_nat (List.length kept)).
  { unfold scene. rewrite removals_counted, Hsync. unfold kept, visited.
    rewrite !length_map. lia. }
  cbn [Debris.floatingDebris]. fold kept.
  destruct (List.length kept <? 200)%nat eqn:E.
  - apply Nat.ltb_lt in E. unfold andThen.
    pose proof (times_length (Debris.spawn cam forward right up) random 5 n)
      as L.
    destruct (times 5 (Debris.spawn cam forward right up) random n)
      as [created n'].
    cbn [fst] in L. cbn [ret fst].
    destruct (pushAll_spec created (Debris.mkField kept scene)) as [E1 E2].
    rewrite E1, E2. cbn [Debris.floatingDebris Debris.debris_scene].
    rewrite length_app, L, Hscene. split; lia.
  - cbn [ret fst Debris.floatingDebris Debris.debris_scene].
    split; [lia|exact Hscene].
Qed.

(** The field never holds more than the 300 particles that
    [createFloatingDebris] puts into it, whatever the camera does and whatever
    [Math.random] returns, and the scene graph holds exactly the particles
    of the field: every particle was added once, and removed when the filter
    dropped it. *)
Theorem debris_never_exceeds_300 (camera_position : Vector3)
    (poses : list Debris.Pose) (random : nat -> Q) (n n' : nat) :
  List.length
    (Debris.floatingDebris
       (fst (Debris.createFloatingDebris camera_position Debris.new_Field
               random n))) = 300%nat /\
  (List.length
     (Debris.floatingDebris
        (fst (Debris.fly poses
                (fst (Debris.createFloatingDebris camera_position
                        Debris.new_Field random n))
                random n'))) <= 300)%nat /\
  Debris.present
    (Debris.debris_scene
       (fst (Debris.fly poses
               (fst (Debris.createFloatingDebris camera_position
                       Debris.new_Field random n))
               random n')))
  = Z.of_nat
      (List.length
         (Debris.floatingDebris
            (fst (Debris.fly poses
                    (fst (Debris.createFloatingDebris camera_position
                            Debris.new_Field random n))
                    random n')))).
Proof.
  set (created := fst (Debris.createFloatingDebris camera_position
                         Debris.new_Field random n)).
  assert (H0 : List.length (Debris.floatingDebris created) = 300%nat /\
               Debris.present (Debris.debris_scene created) = 300%Z).
  { unfold created, Debris.createFloatingDebris, andThen.
    pose proof (times_length (Debris.newFloatingDebris camera_position)
                  random 300 n) as L.
    destruct (times 300 (Debris.newFloatingDebris camera_position) random n)
      as [l n1].
    cbn [fst] in L. cbn [ret fst].
    destruct (pushAll_spec l Debris.new_Field) as [E1 E2].
    rewrite E1, E2. cbn [Debris.new_Field Debris.floatingDebris
                         Debris.debris_scene Debris.present app].
    rewrite L. split; reflexivity. }
  destruct H0 as [L0 S0]. split; [exact L0|].
  assert (Hinv : (List.length (Debris.floatingDebris created) <= 300)%nat /\
                 Debris.present (Debris.debris_scene created)
                 = Z.of_nat (List.length (Debris.floatingDebris created)))
    by (rewrite L0, S0; split; [lia|reflexivity]).
  clear L0 S0. revert Hinv. generalize created. generalize n'.
  induction poses as [|pose poses IH]; intros k this Hinv;
    cbn [Debris.fly].
  - exact Hinv.
  - unfold andThen.
    pose proof (update_counts (Debris.pose_camera pose)
                  (Debris.pose_forward pose) (Debris.pose_right pose)
                  (Debris.pose_up pose) this random k
                  (proj1 Hinv) (proj2 Hinv)) as Hstep.
    destruct (Debris.updateFloatingDebris _ _ _ _ this random k)
      as [this1 k1].
    cbn [fst] in Hstep. now apply IH.
Qed.

Lemma createDebrisParticle_shape (random : nat -> Q) (n : nat) :
  unitInterval random ->
  Debris.wellShaped (Debris.shape (fst (Debris.createDebrisParticle random n))).
Proof.
  intro Hr. unfold Debris.createDebrisParticle.
  unfold andThen at 1. unfold Math_random at 1.
  destruct (Qltb (random n) 0.3); [|destruct (Qltb (random n) 0.6)].
  - unfold andThen.
    destruct (pick_defined [0x9d4edd; 0x00e5ff; 0x5b7fff; 0xffd700]%Z
                random (S n) Hr) as (c & Ec & _); [discriminate|].
    destruct (pick _ random (S n)) as [color n1]. cbn [fst] in Ec. subst color.
    unfold Math_random, ret. cbn [fst Debris.fresh Debris.shape
                                  Debris.wellShaped].
    pose proof (Hr n1). split; [eauto|lra].
  - unfold andThen.
    destruct (pick_defined [0x9d4edd; 0x00e5ff; 0x5b7fff]%Z
                random (S n) Hr) as (c & Ec & _); [discriminate|].
    destruct (pick _ random (S n)) as [color n1]. cbn [fst] in Ec. subst color.
    unfold Math_random, ret. cbn [fst Debris.fresh Debris.shape
                                  Debris.wellShaped].
    pose proof (Hr n1). split; [eauto|lra].
  - unfold andThen.
    destruct (pick_defined
                ["◆"; "◇"; "★"; "✦"; "✧"; "※"; "+"; "*"; "·"]%string
                random (S n) Hr) as (c & Ec & _); [discriminate|].
    destruct (pick _ random (S n)) as [char n1]. cbn [fst] in Ec. subst char.
    destruct (pick_defined
                ["#9d4edd"; "#00e5ff"; "#5b7fff"; "#ffd700"]%string
                random n1 Hr) as (c' & Ec' & _); [discriminate|].
    destruct (pick _ random n1) as [color n2]. cbn [fst] in Ec'. subst color.
    unfold Math_random, ret. cbn [fst Debris.fresh Debris.shape
                                  Debris.wellShaped].
    pose proof (Hr n2). pose proof (Hr (S n2)).
    split; [eauto|]. split; [eauto|]. split; lra.
Qed.

Lemma launch_Launched (debris : Debris.Particle) (pos : Vector3)
    (random : nat -> Q) (n : nat) :
  unitInterval random ->
  Debris.wellShaped (Debris.shape debris) ->
  Debris.Launched (fst (Debris.launch debris pos random n)).
Proof.
  intros Hr Hs. unfold Debris.launch, andThen, Math_random, ret.
  cbn [fst]. unfold Debris.Launched.
  cbn [Debris.shape Debris.debris_velocity Debris.rotationSpeed].
  pose proof (Hr n). pose proof (Hr (S n)). pose proof (Hr (S (S n))).
  pose proof (Hr (S (S (S n)))).
  split; [exact Hs|]. split.
  - eexists. split; [reflexivity|]. cbn [vec_x vec_y vec_z].
    repeat split; apply Qabs_Qle_condition; lra.
  - eexists. split; [reflexivity|]. apply Qabs_Qle_condition; lra.
Qed.

Lemma newFloatingDebris_Launched (camera_position : Vector3)
    (random : nat -> Q) (n : nat) :
  unitInterval random ->
  Debris.Launched (fst (Debris.newFloatingDebris camera_position random n)).
Proof.
  intro Hr. unfold Debris.newFloatingDebris.
  unfold andThen at 1 2 3 4. unfold Math_random at 1 2 3.
  pose proof (createDebrisParticle_shape random (S (S (S n))) Hr) as Hs.
  destruct (Debris.createDebrisParticle random (S (S (S n)))) as [d n1].
  now apply launch_Launched.
Qed.

Lemma spawn_Launched (cam : Camera) (forward right up : Vector3)
    (random : nat -> Q) (n : nat) :
  unitInterval random ->
  Debris.Launched (fst (Debris.spawn cam forward right up random n)).
Proof.
  intro Hr. unfold Debris.spawn.
  unfold andThen at 1 2 3 4. unfold Math_random at 1 2 3.
  pose proof (createDebrisParticle_shape random (S (S (S n))) Hr) as Hs.
  destruct (Debris.createDebrisParticle random (S (S (S n)))) as [d n1].
  now apply launch_Launched.
Qed.

Lemma pushAll_Forall (P : Debris.Particle -> Prop)
    (created : list Debris.Particle) (this : Debris.Field) :
  Forall P (Debris.floatingDebris this) -> Forall P created ->
  Forall P (Debris.floatingDebris (Debris.pushAll created this)).
Proof.
  intros H1 H2. destruct (pushAll_spec created this) as [-> _].
  apply Forall_app. auto.
Qed.

Lemma visit_Launched (cam : Camera) (debris : Debris.Particle) :
  Debris.Launched debris -> Debris.Launched (fst (Debris.visit cam debris)).
Proof.
  unfold Debris.visit.
  destruct (Qgtb _ 250 || _); cbn [fst]; unfold Debris.Launched;
    cbn [Debris.shape Debris.debris_velocity Debris.rotationSpeed]; auto.
Qed.

Lemma update_Launched (cam : Camera) (forward right up : Vector3)
    (this : Debris.Field) (random : nat -> Q) (n : nat) :
  unitInterval random ->
  Forall Debris.Launched (Debris.floatingDebris this) ->
  Forall Debris.Launched
    (Debris.floatingDebris
       (fst (Debris.updateFloatingDebris cam forward right up this random n))).
Proof.
  intros Hr H. unfold Debris.updateFloatingDebris.
  set (visited := map (Debris.visit cam) (Debris.floatingDebris this)).
  set (scene := fold_left _ visited (Debris.debris_scene this)).
  assert (Hk : Forall Debris.Launched (map fst (filter snd visited))).
  { apply Forall_forall. intros d Hd.
    apply in_map_iff in Hd. destruct Hd as ([d' b] & <- & Hd).
    apply filter_In in Hd. destruct Hd as [Hd _].
    apply in_map_iff in Hd. destruct Hd as (d0 & E & Hd0).
    cbn [fst]. replace d' with (fst (Debris.visit cam d0)) by now rewrite E.
    apply visit_Launched. rewrite Forall_forall in H. auto. }
  cbn [Debris.floatingDebris].
  destruct (List.length _ <? 200)%nat; [|exact Hk].
  unfold andThen.
  pose proof (times_Forall Debris.Launched
                (Debris.spawn cam forward right up) random
                (fun k => spawn_Launched cam forward right up random k Hr)
                5 n) as [Hc _].
  destruct (times 5 (Debris.spawn cam forward right up) random n)
    as [created n'].
  cbn [fst] in Hc. cbn [ret fst]. now apply pushAll_Forall.
Qed.

(** If [Math.random] returns values in [0, 1), every particle of the field
    is at all times as its creator left it: a shape with a colour of its
    array and a size in its range, a velocity of at most 0.015 per axis and a
    rotation speed of at most 0.0075.  The tests of [updateFloatingDebris]
    for a missing velocity never fail. *)
Theorem debris_always_launched (camera_position : Vector3)
    (poses : list Debris.Pose) (random : nat -> Q) (n n' : nat)
    (debris : Debris.Particle) :
  unitInterval random ->
  In debris
    (Debris.floatingDebris
       (fst (Debris.fly poses
               (fst (Debris.createFloatingDebris camera_position
                       Debris.new_Field random n))
               random n'))) ->
  Debris.Launched debris.
Proof.
  intros Hr.
  set (created := fst (Debris.createFloatingDebris camera_position
                         Debris.new_Field random n)).
  assert (H0 : Forall Debris.Launched (Debris.floatingDebris created)).
  { unfold created, Debris.createFloatingDebris, andThen.
    pose proof (times_Forall Debris.Launched
                  (Debris.newFloatingDebris camera_position) random
                  (fun k => newFloatingDebris_Launched camera_position
                              random k Hr)
                  300 n) as [Hc _].
    destruct (times 300 (Debris.newFloatingDebris camera_position) random n)
      as [l n1].
    cbn [fst] in Hc. cbn [ret fst]. apply pushAll_Forall; [constructor|exact Hc]. }
  assert (H : Forall Debris.Launched
                (Debris.floatingDebris
                   (fst (Debris.fly poses created random n')))).
  { revert H0. generalize created. generalize n'.
    induction poses as [|pose poses IH]; intros k this Hinv;
      cbn [Debris.fly]; [exact Hinv|].
    unfold andThen.
    pose proof (update_Launched (Debris.pose_camera pose)
                  (Debris.pose_forward pose) (Debris.pose_right pose)
                  (Debris.pose_up pose) this random k Hr Hinv) as Hstep.
    destruct (Debris.updateFloatingDebris _ _ _ _ this random k)
      as [this1 k1].
    cbn [fst] in Hstep. now apply IH. }
  rewrite Forall_forall in H. apply H.
Qed.

End DebrisFacts.

(** * Properties of the fade-in and the pulse *)

Lemma cube_monotone (a b : Q) :
  0 <= a -> a <= b -> Glow.Math_pow3 a <= Glow.Math_pow3 b.
Proof.
  intros Ha Hab. unfold Glow.Math_pow3.
  assert (H1 : a * a <= b * b)
    by (apply Qmult_le_compat_nonneg; split; lra).
  assert (H0 : 0 <= a * a) by (apply Qmult_le_0_compat; lra).
  apply Qmult_le_compat_nonneg; split; lra.
Qed.

Lemma easeOut_range (p q : Q) :
  0 <= p -> p <= q -> q <= 1 ->
  0 <= Glow.easeOut p /\ Glow.easeOut p <= Glow.easeOut q /\
  Glow.easeOut q <= 1.
Proof.
  intros H0 Hpq H1. unfold Glow.easeOut.
  pose proof (cube_monotone (1 - q) (1 - p)) as M1.
  pose proof (cube_monotone (1 - p) 1) as M2.
  pose proof (cube_monotone 0 (1 - q)) as M3.
  change (Glow.Math_pow3 1) with (1 * 1 * 1) in M2.
  change (Glow.Math_pow3 0) with (0 * 0 * 0) in M3.
  assert (M1' := M1 ltac:(lra) ltac:(lra)).
  assert (M2' := M2 ltac:(lra) ltac:(lra)).
  assert (M3' := M3 ltac:(lra) ltac:(lra)).
  lra.
Qed.

Lemma age_progress (d a b : Q) :
  0 < d -> 0 <= a -> a <= b -> b < d ->
  0 <= a / d /\ a / d <= b / d /\ b / d <= 1.
Proof.
  intros Hd Ha Hab Hb.
  assert (Hi : 0 < / d) by now apply Qinv_lt_0_compat.
  unfold Qdiv.
  assert (A : 0 <= a * / d) by (apply Qmult_le_0_compat; lra).
  assert (B : a * / d <= b * / d) by (apply Qmult_le_compat_r; lra).
  assert (C : b * / d <= d * / d) by (apply Qmult_le_compat_r; lra).
  assert (E : d * / d == 1) by (apply Qmult_inv_r; lra).
  lra.
Qed.

(** A crystal grows in without a jump back: while it is younger than the
    fade-in duration its scale is at least a tenth and at most one, and it
    does not shrink from a frame to a later one; from then on the scale is
    one. *)
Theorem fade_in_grows (fadeInDuration now later spawnTime : Q) :
  0 < fadeInDuration ->
  ~ spawnTime == 0 ->
  spawnTime <= now -> now <= later ->
  exists scale scale',
    Glow.fadeScale fadeInDuration now (Some spawnTime)
      = Some (Glow.SetScale scale) /\
    Glow.fadeScale fadeInDuration later (Some spawnTime)
      = Some (Glow.SetScale scale') /\
    0.1 <= scale /\ scale <= scale' /\ scale' <= 1 /\
    (fadeInDuration <= later - spawnTime -> scale' = 1).
Proof.
  intros Hd Hs Hnow Hlater. unfold Glow.fadeScale, Glow.truthy.
  assert (E0 : Qeq_bool spawnTime 0 = false).
  { destruct (Qeq_bool _ _) eqn:E; [|reflexivity].
    apply Qeq_bool_eq in E. contradiction. }
  rewrite E0. cbn [negb].
  rewrite !js_div_Some by lra. cbn [bind].
  destruct (Qltb (later - spawnTime) fadeInDuration) eqn:E2.
  - apply Qltb_true in E2.
    assert (E1 : Qltb (now - spawnTime) fadeInDuration = true)
      by (apply Qltb_true; lra).
    rewrite E1. eexists _, _. split; [reflexivity|]. split; [reflexivity|].
    destruct (age_progress fadeInDuration (now - spawnTime)
                (later - spawnTime)) as (P0 & P1 & P2); try lra.
    destruct (easeOut_range _ _ P0 P1 P2) as (R0 & R1 & R2).
    repeat split; lra.
  - apply Qltb_false in E2.
    destruct (Qltb (now - spawnTime) fadeInDuration) eqn:E1.
    + apply Qltb_true in E1.
      eexists _, _. split; [reflexivity|]. split; [reflexivity|].
      destruct (age_progress fadeInDuration (now - spawnTime)
                  (now - spawnTime)) as (P0 & P1 & P2); try lra.
      destruct (easeOut_range _ _ P0 P1 P2) as (R0 & R1 & R2).
      repeat split; try lra.
    + eexists _, _. split; [reflexivity|]. split; [reflexivity|].
      repeat split; lra.
Qed.


(** * The properties of the page, the controls and the particles at concrete
    inputs *)

Lemma cos_approx_bounded (a : Q) : -1 <= Flights.cos_approx a <= 1.
Proof. apply sin_approx_bounded. Qed.

Lemma dice_unit : unitInterval Flights.dice.
Proof.
  intro n. unfold Flights.dice.
  pose proof (Z.mod_pos_bound (Z.of_nat n * 37) 100 eq_refl) as [H0 H1].
  rewrite Zle_Qle in H0. rewrite Zlt_Qlt in H1.
  change (inject_Z 0) with 0 in H0. change (inject_Z 100) with 100 in H1.
  unfold Qdiv. change (/ 100) with (1 # 100). lra.
Qed.

(** Up, then the pattern. *)
Lemma konami_fires_on_pattern_witness :
  fst (Konami.keydown "a"
         (Konami.press
            ("ArrowUp"%string :: removelast Konami.konamiPattern) []))
    = Konami.slice_last 10
        (("ArrowUp"%string :: removelast Konami.konamiPattern)
         ++ ["a"%string]) /\
  (snd (Konami.keydown "a"
          (Konami.press
             ("ArrowUp"%string :: removelast Konami.konamiPattern) []))
     = true <->
   Konami.slice_last 10
     (("ArrowUp"%string :: removelast Konami.konamiPattern) ++ ["a"%string])
     = Konami.konamiPattern).
Proof.
  apply (konami_fires_on_pattern
           ("ArrowUp"%string :: removelast Konami.konamiPattern) "a").
  repeat constructor.
Defined.


(** The frame at 12000 of the page left alone since 1000. *)
Lemma autopilot_pulls_towards_path_witness :
  Qabs (vec_x (Controls.camera_position
                 (Controls.updateAutoPilot (host := Host.approx)
                    (trig := Flights.trig) 12000 16 Flights.idle)))
    <= 0.98 * Qabs (vec_x (Controls.camera_position Flights.idle)) + 3 /\
  Qabs (vec_y (Controls.camera_position
                 (Controls.updateAutoPilot (host := Host.approx)
                    (trig := Flights.trig) 12000 16 Flights.idle)) - 50)
    <= 0.98 * Qabs (vec_y (Controls.camera_position Flights.idle) - 50)
       + 1.5 /\
  Qabs (vec_z (Controls.camera_position
                 (Controls.updateAutoPilot (host := Host.approx)
                    (trig := Flights.trig) 12000 16 Flights.idle)))
    <= 0.98 * Qabs (vec_z (Controls.camera_position Flights.idle)) + 3 /\
  Controls.velocity
    (Controls.updateAutoPilot (host := Host.approx) (trig := Flights.trig)
       12000 16 Flights.idle)
    = Vec.subVectors
        (Controls.camera_position
           (Controls.updateAutoPilot (host := Host.approx)
              (trig := Flights.trig) 12000 16 Flights.idle))
        (Controls.camera_position Flights.idle) /\
  Controls.previousCameraPosition
    (Controls.updateAutoPilot (host := Host.approx) (trig := Flights.trig)
       12000 16 Flights.idle)
    = Controls.camera_position Flights.idle.
Proof.
  apply (autopilot_pulls_towards_path (host := Host.approx)
           (trig := Flights.trig) 12000 16 Flights.idle
           sin_approx_bounded cos_approx_bounded).
  vm_compute. reflexivity.
Defined.

(** The key w at 1000, then a frame five seconds later and one ten seconds
    later. *)
Lemma manual_control_after_key_witness :
  Controls.autoPilot
    (Controls.run (host := Host.approx) (trig := Flights.trig)
       [Controls.Frame 6000 6000 (mkVector3 0 0 (-1));
        Controls.KeyUp "w";
        Controls.Frame 11000 11000 (mkVector3 0 0 (-1))]
       (Controls.keydown "w" 1000 Controls.new_Controls)) = false.
Proof.
  apply (manual_control_after_key (host := Host.approx)
           (trig := Flights.trig) Controls.new_Controls "w" 1000).
  - reflexivity.
  - reflexivity.
  - repeat constructor; cbn; discriminate.
Defined.

(** The frame at 12000 of the page left alone since 1000. *)
Lemma autopilot_engages_when_idle_witness :
  Controls.autoPilot
    (Controls.animate (host := Host.approx) (trig := Flights.trig)
       12000 12000 (mkVector3 0 0 (-1)) Flights.idle) = true /\
  Controls.autoPilotTime
    (Controls.animate (host := Host.approx) (trig := Flights.trig)
       12000 12000 (mkVector3 0 0 (-1)) Flights.idle) == 0.016 /\
  Controls.velocity
    (Controls.animate (host := Host.approx) (trig := Flights.trig)
       12000 12000 (mkVector3 0 0 (-1)) Flights.idle)
    = Vec.subVectors
        (Controls.camera_position
           (Controls.animate (host := Host.approx) (trig := Flights.trig)
              12000 12000 (mkVector3 0 0 (-1)) Flights.idle))
        (Controls.camera_position Flights.idle) /\
  Controls.rotationalVelocity
    (Controls.animate (host := Host.approx) (trig := Flights.trig)
       12000 12000 (mkVector3 0 0 (-1)) Flights.idle)
    = Controls.rotationalVelocity Flights.idle.
Proof.
  apply (autopilot_engages_when_idle (host := Host.approx)
           (trig := Flights.trig) 12000 12000 (mkVector3 0 0 (-1))
           Flights.idle).
  - reflexivity.
  - discriminate.
  - reflexivity.
Defined.

(** Half way from purple to cyan. *)
Lemma lerpColor_interpolates_witness :
  (exists r g b,
     Hud.lerpColor (157, 78, 221)%Z (0, 229, 255)%Z 0.5 = (r, g, b) /\
     (Z.min 157 0 <= r <= Z.max 157 0)%Z /\
     (Z.min 78 229 <= g <= Z.max 78 229)%Z /\
     (Z.min 221 255 <= b <= Z.max 221 255)%Z) /\
  Hud.lerpColor (157, 78, 221)%Z (0, 229, 255)%Z 0 = (157, 78, 221)%Z /\
  Hud.lerpColor (157, 78, 221)%Z (0, 229, 255)%Z 1 = (0, 229, 255)%Z.
Proof.
  apply (lerpColor_interpolates 157 78 221 0 229 255 0.5).
  split; discriminate.
Defined.

(** Four seconds into the countdown the ring shows 6. *)
Lemma countdown_in_range_witness :
  (1 <= 6 <= 10)%Z /\
  6%Z = Math_ceil (10 * (1 - (5000 - 1000) / 10000)) /\
  0 <= (5000 - 1000) / 10000 < 1 /\
  (5000 - 1000) / 10000
    == (Flights.waiting - Controls.idleTimer Flights.idle) / 10000 /\
  Hud.channel 19 /\ Hud.channel 207 /\ Hud.channel 255.
Proof.
  apply (countdown_in_range Flights.waiting Flights.idle 6
           ((5000 - 1000) / 10000) 19 207 255).
  - reflexivity.
  - vm_compute. reflexivity.
Defined.

(** The sixth sprite of the supply after three frames. *)
Lemma sprites_stay_in_box_witness :
  Qabs (vec_x (Sprites.sprite_position Flights.sprite)) <= 100.025 /\
  Qabs (vec_y (Sprites.sprite_position Flights.sprite)) <= 100.025 /\
  Qabs (vec_z (Sprites.sprite_position Flights.sprite)) <= 100.025 /\
  List.length
    (Sprites.after 3 (fst (Sprites.createAsciiSprites Flights.dice 0%nat)))
    = 80%nat.
Proof.
  apply (sprites_stay_in_box Flights.dice 0%nat 3%nat Flights.sprite dice_unit).
  apply (nth_error_In _ 5). vm_compute. reflexivity.
Defined.

Lemma times_head {A : Type} (body : Draw A) (random : nat -> Q)
    (count n : nat) :
  fst (times (S count) body random n)
  = fst (body random n)
    :: fst (times count body random (snd (body random n))).
Proof.
  cbn [times]. unfold andThen. destruct (body random n) as [a k].
  cbn [fst snd]. now destruct (times count body random k).
Qed.

Lemma first_created {host : Math} {trig : Trig} (camera_position : Vector3)
    (random : nat -> Q) (n : nat) :
  In (fst (Debris.newFloatingDebris camera_position random n))
     (Debris.floatingDebris
        (fst (Debris.createFloatingDebris camera_position Debris.new_Field
                random n))).
Proof.
  unfold Debris.createFloatingDebris, andThen.
  pose proof (times_head (Debris.newFloatingDebris camera_position) random
                299 n) as E.
  destruct (times 300 (Debris.newFloatingDebris camera_position) random n)
    as [created k].
  cbn [ret fst] in *. destruct (pushAll_spec created Debris.new_Field) as [-> _].
  cbn [Debris.new_Field Debris.floatingDebris app].
  rewrite E. now left.
Qed.

(** The first particle of the field as created around the camera of the page
    as loaded. *)
Lemma debris_always_launched_witness : Debris.Launched Flights.particle.
Proof.
  apply (debris_always_launched (host := Host.approx) (trig := Flights.trig)
           Host.home [] Flights.dice 0%nat 0%nat Flights.particle dice_unit).
  exact (first_created (host := Host.approx) (trig := Flights.trig)
           Host.home Flights.dice 0%nat).
Defined.

(** A crystal spawned at 1000, half a second and a second and a half old. *)
Lemma fade_in_grows_witness :
  exists scale scale',
    Glow.fadeScale 2000 1500 (Some 1000) = Some (Glow.SetScale scale) /\
    Glow.fadeScale 2000 2500 (Some 1000) = Some (Glow.SetScale scale') /\
    0.1 <= scale /\ scale <= scale' /\ scale' <= 1 /\
    (2000 <= 2500 - 1000 -> scale' = 1).
Proof.
  apply (fade_in_grows 2000 1500 2500 1000);
    [reflexivity|discriminate|discriminate|discriminate].
Defined.


(** * Properties of the speed lines *)






Section SpeedLineFacts.

Context {host : Math} {trig : Trig}.











End SpeedLineFacts.

(** * The speed lines at concrete inputs *)




(** * Doubles: rounding *)

Lemma pow2_pos (e : Z) : 0 < Binary64.pow2 e.
Proof. apply Qpower_0_lt. reflexivity. Qed.

Lemma pow2_plus (a b : Z) : Binary64.pow2 (a + b) == Binary64.pow2 a * Binary64.pow2 b.
Proof. apply Qpower_plus. discriminate. Qed.

Lemma pow2_Z (e : Z) : (0 <= e)%Z -> Binary64.pow2 e == inject_Z (2 ^ e).
Proof. intro H. unfold Binary64.pow2. now rewrite Zpower_Qpower. Qed.

Lemma roundEven_near (t : Q) :
  t - (1 # 2) <= inject_Z (Binary64.roundEven t) <= t + (1 # 2).
Proof.
  unfold Binary64.roundEven.
  pose proof (Qfloor_le t) as Hlo. pose proof (Qlt_floor t) as Hhi.
  rewrite inject_Z_plus in Hhi. change (inject_Z 1) with 1 in Hhi.
  destruct (Qcompare (t - inject_Z (Qfloor t)) (1 # 2)) eqn:E.
  - apply Qeq_alt in E.
    destruct (Z.even (Qfloor t)); [lra|].
    rewrite inject_Z_plus. change (inject_Z 1) with 1. lra.
  - apply Qlt_alt in E. lra.
  - apply Qgt_alt in E. rewrite inject_Z_plus. change (inject_Z 1) with 1.
    lra.
Qed.

Lemma roundEven_integer (t : Q) (m : Z) :
  t == inject_Z m -> Binary64.roundEven t = m.
Proof.
  intro H. unfold Binary64.roundEven.
  assert (Ef : Qfloor t = m) by (rewrite H; apply Qfloor_Z).
  rewrite Ef.
  assert (E : Qcompare (t - inject_Z m) (1 # 2) = Lt)
    by (apply (proj1 (Qlt_alt _ _)); lra).
  now rewrite E.
Qed.

Lemma exponent_spec (q : Q) :
  ~ q == 0 -> Binary64.pow2 (Binary64.exponent q) <= Qabs q.
Proof.
  intro Hq. unfold Binary64.exponent.
  assert (Ha : 0 < Qabs q).
  { destruct (Qlt_le_dec 0 (Qabs q)) as [H|H]; [exact H|exfalso].
    apply Hq. apply Qabs_Qle_condition in H. lra. }
  set (a := Qabs q) in *.
  destruct (Qle_bool 1 a) eqn:E.
  - apply Qle_bool_iff in E.
    assert (Hn : (0 < Qfloor a)%Z).
    { apply Z.lt_le_trans with 1%Z; [lia|].
      change 1%Z with (Qfloor 1). now apply Qfloor_resp_le. }
    destruct (Z.log2_spec _ Hn) as [Hlo _].
    rewrite pow2_Z by apply Z.log2_nonneg.
    apply Qle_trans with (inject_Z (Qfloor a)); [|apply Qfloor_le].
    now rewrite <- Zle_Qle.
  - assert (E1 : a < 1).
    { destruct (Qlt_le_dec a 1) as [H|H]; [exact H|].
      apply Qle_bool_iff in H. congruence. }
    set (m := Qceiling (/ a)).
    assert (Hinv : 1 < / a).
    { apply Qlt_shift_inv_l; lra. }
    assert (Hm : / a <= inject_Z m) by apply Qle_ceiling.
    assert (Hm1 : (1 < m)%Z).
    { rewrite Zlt_Qlt. change (inject_Z 1) with 1. lra. }
    destruct (Z.log2_up_spec _ Hm1) as [_ Hup].
    set (k := Z.log2_up m) in *.
    assert (Hk : (0 <= k)%Z) by apply Z.log2_up_nonneg.
    unfold Binary64.pow2. rewrite Qpower_opp. fold (Binary64.pow2 k). rewrite (pow2_Z k Hk).
    assert (Hp : / a <= inject_Z (2 ^ k)).
    { apply Qle_trans with (inject_Z m); [exact Hm|]. now rewrite <- Zle_Qle. }
    assert (Hpos : 0 < inject_Z (2 ^ k)) by lra.
    apply Qle_shift_inv_r; [exact Hpos|].
    assert (Hmul : / a * a <= inject_Z (2 ^ k) * a)
      by (apply Qmult_le_compat_r; lra).
    rewrite Qmult_comm, Qmult_inv_r in Hmul by lra.
    rewrite Qmult_comm. exact Hmul.
Qed.

Lemma round64_eq (q : Q) :
  ~ q == 0 ->
  let u := Binary64.pow2 (Z.max (Binary64.exponent q) (-1022) - 52) in
  Binary64.round64 q == inject_Z (Binary64.roundEven (q / u)) * u.
Proof.
  intros Hq u. unfold Binary64.round64.
  destruct (Qeq_bool q 0) eqn:E.
  - apply Qeq_bool_iff in E. contradiction.
  - apply Qred_correct.
Qed.

(** Half a unit in the last place: the relative error of a normal number
    and the absolute error of a subnormal one. *)
Lemma round64_error (q : Q) :
  Qabs (Binary64.round64 q - q) <= Qabs q * Binary64.eps + Binary64.tiny.
Proof.
  assert (Ht : 0 < Binary64.tiny) by reflexivity.
  assert (He : 0 < Binary64.eps) by reflexivity.
  pose proof (Qabs_nonneg q) as Ha.
  destruct (Qeq_dec q 0) as [Hq|Hq].
  - assert (E : Binary64.round64 q == 0).
    { unfold Binary64.round64. apply Qeq_bool_iff in Hq. now rewrite Hq. }
    rewrite E, Hq. change (Qabs (0 - 0)) with 0.
    change (Qabs 0) with 0. lra.
  - rewrite (round64_eq q Hq). cbv zeta.
    set (e := Z.max (Binary64.exponent q) (-1022)).
    set (u := Binary64.pow2 (e - 52)).
    pose proof (pow2_pos (e - 52)) as Hu. fold u in Hu.
    pose proof (roundEven_near (q / u)) as [Hlo Hhi].
    set (z := inject_Z (Binary64.roundEven (q / u))) in *.
    assert (Eq : q == q / u * u) by (field; lra).
    assert (Hlo' : (q / u - (1 # 2)) * u <= z * u)
      by (apply Qmult_le_compat_r; lra).
    assert (Hhi' : z * u <= (q / u + (1 # 2)) * u)
      by (apply Qmult_le_compat_r; lra).
    assert (E1 : (q / u - (1 # 2)) * u == q - u * (1 # 2)) by (field; lra).
    assert (E2 : (q / u + (1 # 2)) * u == q + u * (1 # 2)) by (field; lra).
    assert (Hhalf : u * (1 # 2) <= Qabs q * Binary64.eps + Binary64.tiny).
    { unfold e in u. destruct (Z.max_spec (Binary64.exponent q) (-1022))
        as [[Hlt Em]|[Hle Em]].
      - (* subnormal *)
        assert (Eu : u == Binary64.tiny * 2).
        { unfold u. rewrite Em. reflexivity. }
        rewrite Eu. nra.
      - assert (Eu : u == Binary64.pow2 (Binary64.exponent q) * (1 # 4503599627370496)).
        { unfold u. rewrite Em.
          replace (Binary64.exponent q - 52)%Z with (Binary64.exponent q + -52)%Z by lia.
          rewrite pow2_plus. reflexivity. }
        pose proof (exponent_spec q Hq) as Hs.
        pose proof (pow2_pos (Binary64.exponent q)) as Hp.
        rewrite Eu. unfold Binary64.eps. lra. }
    apply Qabs_Qle_condition. lra.
Qed.

Lemma round64_within (q B : Q) :
  Qabs q <= B ->
  q - (B * Binary64.eps + Binary64.tiny) <= Binary64.round64 q <= q + (B * Binary64.eps + Binary64.tiny).
Proof.
  intro H. pose proof (round64_error q) as He.
  apply Qabs_Qle_condition in He.
  assert (Hm : Qabs q * Binary64.eps <= B * Binary64.eps)
    by (apply Qmult_le_compat_r; [exact H|discriminate]).
  lra.
Qed.

Lemma exponent_integer (q : Q) (n : Z) :
  q == inject_Z n -> n <> 0%Z -> Binary64.exponent q = Z.log2 (Z.abs n).
Proof.
  intros H Hn. unfold Binary64.exponent.
  assert (Ea : Qabs q == inject_Z (Z.abs n)).
  { rewrite H. unfold Qabs, inject_Z. reflexivity. }
  assert (E1 : Qle_bool 1 (Qabs q) = true).
  { apply Qle_bool_iff. rewrite Ea. change 1 with (inject_Z 1).
    rewrite <- Zle_Qle. lia. }
  rewrite E1. f_equal. rewrite Ea. apply Qfloor_Z.
Qed.

(** A whole number below [2 ^ 53] in magnitude is a double. *)
Lemma round64_integer (q : Q) (n : Z) :
  q == inject_Z n -> (Z.abs n < 2 ^ 53)%Z -> Binary64.round64 q == inject_Z n.
Proof.
  intros H Hn. destruct (Z.eq_dec n 0) as [->|Hn0].
  - unfold Binary64.round64. change (inject_Z 0) with 0 in *.
    apply Qeq_bool_iff in H. rewrite H. reflexivity.
  - assert (Hq : ~ q == 0).
    { rewrite H. change 0 with (inject_Z 0). rewrite inject_Z_injective.
      exact Hn0. }
    rewrite (round64_eq q Hq). cbv zeta.
    rewrite (exponent_integer q n H Hn0).
    set (e := Z.log2 (Z.abs n)).
    assert (He0 : (0 <= e)%Z) by apply Z.log2_nonneg.
    assert (He : (e < 53)%Z)
      by (apply Z.log2_lt_pow2; lia).
    rewrite Z.max_l by lia.
    set (k := (52 - e)%Z).
    assert (Eu : Binary64.pow2 (e - 52) * inject_Z (2 ^ k) == 1).
    { rewrite <- (pow2_Z k) by (unfold k; lia).
      rewrite <- pow2_plus. replace (e - 52 + k)%Z with 0%Z by (unfold k; lia).
      reflexivity. }
    pose proof (pow2_pos (e - 52)) as Hu.
    set (u := Binary64.pow2 (e - 52)) in *.
    assert (Et : q / u == inject_Z (n * 2 ^ k)).
    { rewrite inject_Z_mult, H.
      apply (Qmult_inj_r _ _ u); [lra|].
      rewrite <- Qmult_assoc, (Qmult_comm (inject_Z (2 ^ k))), Eu.
      field. lra. }
    rewrite (roundEven_integer _ _ Et), inject_Z_mult.
    rewrite <- Qmult_assoc, (Qmult_comm (inject_Z (2 ^ k))), Eu. ring.
Qed.
